(** * AnyTLS session pool: a shallow embedding of the session client

    The development follows [transport/anytls/session/client.go] (the pool
    manager, type [Client]) and the configuration merge of [NewAnyTLS] in the
    outbound adapter.  Go values are modelled as follows.

    - [uint64], [int64], [int] and [time.Duration] are integers in [Z]; the
      wrap-around of the 64-bit operations the code performs is written out
      with [u64] and [i64].
    - A [time.Time] is the number of nanoseconds elapsed since Go's zero
      time; [Add], [Before] and [After] are [+], [<] and [>] on [Z].
    - A [*Session] is an address into a store of session objects ([heap]),
      so that the registry, the idle pool and the close lists of a tick all
      alias the same object.
    - Each function of the client is a state transformer on [Client]; the
      outcomes of the network calls and the readings of the clock are
      arguments.  Where the source releases its locks in the middle of a
      function and another goroutine can run ([Close], the proactive
      creator), the function is given in two parts as well. *)

From stdpp Require Import gmap list sorting.
From Stdlib Require Import ZArith Lia.

Local Open Scope Z_scope.

(** ** Machine integers and time *)

Definition MaxUint64 : Z := 2 ^ 64 - 1.
Definition MaxInt64 : Z := 2 ^ 63 - 1.
Definition MinInt64 : Z := - 2 ^ 63.

(** Conversion to [uint64]: reduction modulo [2^64]. *)
Definition u64 (x : Z) : Z := x mod 2 ^ 64.

(** Conversion to [int64] (also the result of every [int64] and
    [time.Duration] operation): two's complement wrap-around. *)
Definition i64 (x : Z) : Z := (x + 2 ^ 63) mod 2 ^ 64 - 2 ^ 63.

(** [time.Second], in nanoseconds. *)
Definition Second : Z := 1000000000.

(** [time.Duration(n) * time.Second] for an [int] n. *)
Definition seconds (n : Z) : Z := i64 (i64 n * Second).

(** ** Configuration merge ([NewAnyTLS]) *)

Module Outbound.

(** [config.AnyTLSSessionManagement]: the global block. *)
Module AnyTLSSessionManagement.
Record t := mk {
  EnsureIdleSession : Z;
  MinIdleSession : Z;
  MinIdleSessionForAge : Z;
  EnsureIdleSessionCreateRate : Z;
  MaxConnectionLifetime : Z;
  ConnectionLifetimeJitter : Z;
  IdleSessionTimeout : Z;
  IdleSessionCheckInterval : Z
}.
End AnyTLSSessionManagement.

(** [AnyTLSSessionOverride]: every field is a nullable [*int]. *)
Module AnyTLSSessionOverride.
Record t := mk {
  EnsureIdleSession : option Z;
  MinIdleSession : option Z;
  MinIdleSessionForAge : option Z;
  EnsureIdleSessionCreateRate : option Z;
  MaxConnectionLifetime : option Z;
  ConnectionLifetimeJitter : option Z;
  IdleSessionTimeout : option Z;
  IdleSessionCheckInterval : option Z
}.
End AnyTLSSessionOverride.

(** The fields of [AnyTLSOption] that take part in the merge. *)
Module AnyTLSOption.
Record t := mk {
  IdleSessionCheckInterval : Z;
  IdleSessionTimeout : Z;
  MinIdleSession : Z;
  SessionOverride : option AnyTLSSessionOverride.t
}.
End AnyTLSOption.

(** The pool fields of [anytls.ClientConfig] ([tOption] in the source). *)
Module ClientConfig.
Record t := mk {
  IdleSessionCheckInterval : Z;
  IdleSessionTimeout : Z;
  MinIdleSession : Z;
  EnsureIdleSession : Z;
  EnsureIdleSessionCreateRate : Z;
  MinIdleSessionForAge : Z;
  MaxConnectionLifetime : Z;
  ConnectionLifetimeJitter : Z
}.

(** The zero value of the struct literal that starts the merge. *)
Definition zero : t := mk 0 0 0 0 0 0 0 0.
End ClientConfig.

Module G := AnyTLSSessionManagement.
Module O := AnyTLSSessionOverride.
Module L := AnyTLSOption.
Module T := ClientConfig.

(** "Apply global config if available". *)
Definition applyGlobal (globalCfg : option G.t) (tOption : T.t) : T.t :=
  match globalCfg with
  | None => tOption
  | Some g =>
      T.mk (G.IdleSessionCheckInterval g) (G.IdleSessionTimeout g)
           (G.MinIdleSession g) (G.EnsureIdleSession g)
           (G.EnsureIdleSessionCreateRate g) (G.MinIdleSessionForAge g)
           (G.MaxConnectionLifetime g) (G.ConnectionLifetimeJitter g)
  end.

(** "Apply legacy per-proxy settings (backward compatibility)". *)
Definition applyLegacy (option : L.t) (tOption : T.t) : T.t :=
  let t1 :=
    if 0 <? L.IdleSessionCheckInterval option
    then T.mk (seconds (L.IdleSessionCheckInterval option))
              (T.IdleSessionTimeout tOption) (T.MinIdleSession tOption)
              (T.EnsureIdleSession tOption) (T.EnsureIdleSessionCreateRate tOption)
              (T.MinIdleSessionForAge tOption) (T.MaxConnectionLifetime tOption)
              (T.ConnectionLifetimeJitter tOption)
    else tOption in
  let t2 :=
    if 0 <? L.IdleSessionTimeout option
    then T.mk (T.IdleSessionCheckInterval t1)
              (seconds (L.IdleSessionTimeout option)) (T.MinIdleSession t1)
              (T.EnsureIdleSession t1) (T.EnsureIdleSessionCreateRate t1)
              (T.MinIdleSessionForAge t1) (T.MaxConnectionLifetime t1)
              (T.ConnectionLifetimeJitter t1)
    else t1 in
  if 0 <? L.MinIdleSession option
  then T.mk (T.IdleSessionCheckInterval t2) (T.IdleSessionTimeout t2)
            (L.MinIdleSession option)
            (T.EnsureIdleSession t2) (T.EnsureIdleSessionCreateRate t2)
            (T.MinIdleSessionForAge t2) (T.MaxConnectionLifetime t2)
            (T.ConnectionLifetimeJitter t2)
  else t2.

(** One override field: when the pointer is not nil, the field of
    [tOption] becomes the converted pointee. *)
Definition orElse (conv : Z -> Z) (o : option Z) (cur : Z) : Z :=
  match o with
  | Some v => conv v
  | None => cur
  end.

(** "Apply per-proxy overrides (highest priority)". *)
Definition applyOverride (option : L.t) (tOption : T.t) : T.t :=
  match L.SessionOverride option with
  | None => tOption
  | Some override =>
      T.mk
        (orElse seconds (O.IdleSessionCheckInterval override)
                (T.IdleSessionCheckInterval tOption))
        (orElse seconds (O.IdleSessionTimeout override)
                (T.IdleSessionTimeout tOption))
        (orElse id (O.MinIdleSession override) (T.MinIdleSession tOption))
        (orElse id (O.EnsureIdleSession override) (T.EnsureIdleSession tOption))
        (orElse id (O.EnsureIdleSessionCreateRate override)
                (T.EnsureIdleSessionCreateRate tOption))
        (orElse id (O.MinIdleSessionForAge override)
                (T.MinIdleSessionForAge tOption))
        (orElse seconds (O.MaxConnectionLifetime override)
                (T.MaxConnectionLifetime tOption))
        (orElse seconds (O.ConnectionLifetimeJitter override)
                (T.ConnectionLifetimeJitter tOption))
  end.

(** The pool configuration [NewAnyTLS] hands to [anytls.NewClient]. *)
Definition mergeConfig (globalCfg : option G.t) (option : L.t) : T.t :=
  applyOverride option (applyLegacy option (applyGlobal globalCfg T.zero)).

End Outbound.

(** ** The session client *)

(** [session.ClientConfig]. *)
Record ClientConfig := mkClientConfig {
  IdleSessionCheckInterval : Z;
  IdleSessionTimeout : Z;
  MinIdleSession : Z;
  EnsureIdleSession : Z;
  EnsureIdleSessionCreateRate : Z;
  MinIdleSessionForAge : Z;
  MaxConnectionLifetime : Z;
  ConnectionLifetimeJitter : Z
}.

(** Modelled from the spec: [anytls.NewClient] (transport/anytls/client.go)
    is missing from the source tree; the merged configuration "collapses to
    one effective PoolConfig before the core is constructed", so each pool
    field is handed to [session.NewClient] as it is. *)
Definition toSessionConfig (t : Outbound.ClientConfig.t) : ClientConfig :=
  mkClientConfig
    (Outbound.ClientConfig.IdleSessionCheckInterval t)
    (Outbound.ClientConfig.IdleSessionTimeout t)
    (Outbound.ClientConfig.MinIdleSession t)
    (Outbound.ClientConfig.EnsureIdleSession t)
    (Outbound.ClientConfig.EnsureIdleSessionCreateRate t)
    (Outbound.ClientConfig.MinIdleSessionForAge t)
    (Outbound.ClientConfig.MaxConnectionLifetime t)
    (Outbound.ClientConfig.ConnectionLifetimeJitter t).

(** Addresses of session objects. *)
Abbreviation ptr := nat.

(** The fields of [Session] the client reads and writes.  [closed] is the
    session's own [IsClosed()] state. *)
Record Session := mkSession {
  seq : Z;
  createdAt : Z;
  idleSince : Z;
  closed : bool
}.

Definition setIdleSince (t : Z) (s : Session) : Session :=
  mkSession (seq s) (createdAt s) t (closed s).

Definition setClosed (s : Session) : Session :=
  mkSession (seq s) (createdAt s) (idleSince s) true.

(** The fields of a session that a scan of the pool reads and never
    writes. *)
Definition static (s : Session) : Z * Z * bool :=
  (seq s, createdAt s, closed s).

(** Modelled from the spec: the [skiplist] package is missing from the
    source tree.  "Any ordered map keyed by u64 suffices": the list of
    entries in ascending key order, one entry per key. *)
Module SkipList.
Definition t := list (Z * ptr).

Definition NewSkipList : t := [].

Fixpoint Insert (k : Z) (v : ptr) (l : t) : t :=
  match l with
  | [] => [(k, v)]
  | (k', v') :: l' =>
      if k <? k' then (k, v) :: (k', v') :: l'
      else if k =? k' then (k, v) :: l'
      else (k', v') :: Insert k v l'
  end.

Fixpoint Remove (k : Z) (l : t) : t :=
  match l with
  | [] => []
  | (k', v') :: l' => if k =? k' then l' else (k', v') :: Remove k l'
  end.

Definition IsEmpty (l : t) : bool :=
  match l with [] => true | _ => false end.

Definition Len (l : t) : Z := Z.of_nat (length l).

(** [Iterate()] positions an iterator on the first entry. *)
Definition Iterate (l : t) : option (Z * ptr) := head l.
End SkipList.

(** [Client].  [die] is [true] once [c.die] is done. *)
Record Client := mkClient {
  die : bool;
  sessionCounter : Z;
  idleSession : SkipList.t;
  sessions : gmap Z ptr;
  heap : list Session;
  idleSessionTimeout : Z;
  minIdleSession : Z;
  ensureIdleSession : Z;
  ensureIdleSessionCreateRate : Z;
  minIdleSessionForAge : Z;
  maxConnectionLifetime : Z;
  connectionLifetimeJitter : Z
}.

Definition setDie (b : bool) (c : Client) : Client :=
  mkClient b (sessionCounter c) (idleSession c) (sessions c) (heap c)
    (idleSessionTimeout c) (minIdleSession c) (ensureIdleSession c)
    (ensureIdleSessionCreateRate c) (minIdleSessionForAge c)
    (maxConnectionLifetime c) (connectionLifetimeJitter c).

Definition setSessionCounter (n : Z) (c : Client) : Client :=
  mkClient (die c) n (idleSession c) (sessions c) (heap c)
    (idleSessionTimeout c) (minIdleSession c) (ensureIdleSession c)
    (ensureIdleSessionCreateRate c) (minIdleSessionForAge c)
    (maxConnectionLifetime c) (connectionLifetimeJitter c).

Definition setIdleSession (l : SkipList.t) (c : Client) : Client :=
  mkClient (die c) (sessionCounter c) l (sessions c) (heap c)
    (idleSessionTimeout c) (minIdleSession c) (ensureIdleSession c)
    (ensureIdleSessionCreateRate c) (minIdleSessionForAge c)
    (maxConnectionLifetime c) (connectionLifetimeJitter c).

Definition setSessions (m : gmap Z ptr) (c : Client) : Client :=
  mkClient (die c) (sessionCounter c) (idleSession c) m (heap c)
    (idleSessionTimeout c) (minIdleSession c) (ensureIdleSession c)
    (ensureIdleSessionCreateRate c) (minIdleSessionForAge c)
    (maxConnectionLifetime c) (connectionLifetimeJitter c).

Definition setHeap (h : list Session) (c : Client) : Client :=
  mkClient (die c) (sessionCounter c) (idleSession c) (sessions c) h
    (idleSessionTimeout c) (minIdleSession c) (ensureIdleSession c)
    (ensureIdleSessionCreateRate c) (minIdleSessionForAge c)
    (maxConnectionLifetime c) (connectionLifetimeJitter c).

(** [NewClient], paired with the period it gives the maintenance routine.
    [NewAnyTLS] passes [context.TODO()], which is never done, so [die]
    starts [false]. *)
Definition NewClient (config : ClientConfig) : Client * Z :=
  let idleSessionCheckInterval :=
    if IdleSessionCheckInterval config <=? Second * 5
    then Second * 30 else IdleSessionCheckInterval config in
  let timeout :=
    if IdleSessionTimeout config <=? Second * 5
    then Second * 30 else IdleSessionTimeout config in
  (mkClient false 0 SkipList.NewSkipList ∅ []
     timeout (MinIdleSession config) (EnsureIdleSession config)
     (EnsureIdleSessionCreateRate config) (MinIdleSessionForAge config)
     (MaxConnectionLifetime config) (ConnectionLifetimeJitter config),
   idleSessionCheckInterval).

(** The idle-pool key of a session: [math.MaxUint64 - session.seq]. *)
Definition poolKey (s : Session) : Z := u64 (MaxUint64 - seq s).

(** [getIdleSession]: take the first entry of the pool, if any. *)
Definition getIdleSession (c : Client) : option ptr * Client :=
  if negb (SkipList.IsEmpty (idleSession c)) then
    match SkipList.Iterate (idleSession c) with
    | Some (key, idle) =>
        (Some idle, setIdleSession (SkipList.Remove key (idleSession c)) c)
    | None => (None, c)
    end
  else (None, c).

(** The [dieHook] that [createSession] installs on a session. *)
Definition sessionDieHook (s : Session) (c : Client) : Client :=
  let c1 := setIdleSession (SkipList.Remove (poolKey s) (idleSession c)) c in
  setSessions (delete (seq s) (sessions c1)) c1.

(** Modelled from the spec: [Session.Close] is missing from the source tree.
    "close(): idempotent; after return, is_closed() is true"; the death hook
    is "invoked exactly once when the session transitions to closed". *)
Definition SessionClose (p : ptr) (c : Client) : Client :=
  match heap c !! p with
  | Some s =>
      if closed s then c
      else sessionDieHook s (setHeap (<[p := setClosed s]> (heap c)) c)
  | None => c
  end.

(** [createSession].  [dialOk] is the outcome of [c.dialOut]; [now] is the
    clock reading stored in [createdAt]; [idleSince] starts as the zero
    time.  [session.Run()] starts the protocol loop of the session, which
    the client does not observe until the session dies. *)
Definition createSession (now : Z) (dialOk : bool) (c : Client)
  : option ptr * Client :=
  if negb dialOk then (None, c)
  else
    let p := length (heap c) in
    let n := u64 (sessionCounter c + 1) in
    let session := mkSession n now 0 false in
    let c1 := setSessionCounter n (setHeap (heap c ++ [session]) c) in
    (Some p, setSessions (<[n := p]> (sessions c1)) c1).

(** The [dieHook] that [CreateStream] installs on a stream of session [p].
    On a cancelled client the source starts [go session.Close()]; the
    close is taken at once. *)
Definition streamDieHook (now : Z) (p : ptr) (c : Client) : Client :=
  match heap c !! p with
  | Some session =>
      if negb (closed session) then
        if die c then SessionClose p c
        else
          let session' := setIdleSince now session in
          setIdleSession
            (SkipList.Insert (poolKey session') p (idleSession c))
            (setHeap (<[p := session']> (heap c)) c)
      else c
  | None => c
  end.

Inductive error := ErrClosedPipe | ErrCreateSession | ErrCreateStream.

(** [CreateStream].  A stream is named by the session that carries it.
    [openOk] is the outcome of [session.OpenStream()] on a live session; on
    a closed session [OpenStream] fails. *)
Definition CreateStream (now : Z) (dialOk openOk : bool) (c : Client)
  : (ptr + error) * Client :=
  if die c then (inr ErrClosedPipe, c)
  else
    let '(idle, c1) := getIdleSession c in
    let '(session, c2) :=
      match idle with
      | Some p => (Some p, c1)
      | None => createSession now dialOk c1
      end in
    match session with
    | None => (inr ErrCreateSession, c2)
    | Some p =>
        match heap c2 !! p with
        | Some s =>
            if openOk && negb (closed s) then (inl p, c2)
            else (inr ErrCreateStream, SessionClose p c2)
        | None => (inr ErrCreateStream, c2)
        end
    end.

(** [for _, session := range l { session.Close() }]. *)
Definition closeAll (l : list ptr) (c : Client) : Client :=
  foldl (fun acc p => SessionClose p acc) c l.

(** [Close] up to the release of [sessionsLock]: cancel, snapshot the
    registry and replace it by an empty map.  The snapshot lists the
    sessions in the order of [map_to_list]; Go ranges over the map in an
    unspecified order. *)
Definition closeReset (c : Client) : list ptr * Client :=
  let c1 := setDie true c in
  (snd <$> map_to_list (sessions c1), setSessions ∅ c1).

(** [Close]: the critical section, then [session.Close()] on the snapshot. *)
Definition Close (c : Client) : Client :=
  let '(sessionToClose, c1) := closeReset c in
  closeAll sessionToClose c1.

(** ** The maintenance cycle ([cleanup]) *)

(** The lifetime the age check grants a session: "Calculate
    session-specific lifetime with jitter". *)
Definition sessionLifetime (c : Client) (session : Session) : Z :=
  if 0 <? connectionLifetimeJitter c then
    let jitterRange := i64 (connectionLifetimeJitter c) in
    let jitterOffset := Z.rem (i64 (seq session)) (i64 (jitterRange * 2)) in
    i64 (i64 (maxConnectionLifetime c - connectionLifetimeJitter c)
         + i64 jitterOffset)
  else maxConnectionLifetime c.

(** [ageExpTime := session.createdAt.Add(sessionLifetime)]. *)
Definition ageExpTime (c : Client) (session : Session) : Z :=
  createdAt session + sessionLifetime c session.

(** The locals of [cleanup] during the scan, with the two structures the
    loop mutates: the session objects and the idle pool. *)
Record scan := mkScan {
  scHeap : list Session;
  scPool : SkipList.t;
  idleSessionsToClose : list ptr;
  ageSessionsToClose : list ptr;
  idleActiveCount : Z;
  ageActiveCount : Z
}.

(** [idleExpTime := now.Add(-c.idleSessionTimeout)]. *)
Definition idleExpTime (c : Client) (now : Z) : Z :=
  now + i64 (- idleSessionTimeout c).

(** "Check idle timeout": the close flag, the session after the check and
    the counter after the check. *)
Definition checkIdle (c : Client) (now : Z) (session : Session)
    (idleActiveCount : Z) : bool * Session * Z :=
  if idleSince session <? idleExpTime c now then
    if minIdleSession c <=? idleActiveCount then
      (true, session, idleActiveCount)
    else
      (false, setIdleSince now session, idleActiveCount + 1)
  else
    (false, session, idleActiveCount + 1).

(** "Check age-based expiration (if enabled)": the close flag and the
    counter after the check. *)
Definition checkAge (c : Client) (now : Z) (session : Session)
    (shouldCloseIdle : bool) (ageActiveCount : Z) : bool * Z :=
  if (0 <? maxConnectionLifetime c) && negb shouldCloseIdle then
    if ageExpTime c session <? now then
      if minIdleSessionForAge c <=? ageActiveCount then
        (true, ageActiveCount)
      else
        (false, ageActiveCount + 1)
    else (false, ageActiveCount)
  else (false, ageActiveCount).

(** One iteration of the loop of [cleanup], on the entry [(key, p)]. *)
Definition cleanupStep (c : Client) (now : Z) (st : scan) (e : Z * ptr)
  : scan :=
  let '(key, p) := e in
  match scHeap st !! p with
  | None => st
  | Some session =>
      let '(shouldCloseIdle, session1, idleActive) :=
        checkIdle c now session (idleActiveCount st) in
      let '(shouldCloseAge, ageActive) :=
        checkAge c now session1 shouldCloseIdle (ageActiveCount st) in
      let heap1 := <[p := session1]> (scHeap st) in
      if shouldCloseIdle || shouldCloseAge then
        if shouldCloseIdle then
          mkScan heap1 (SkipList.Remove key (scPool st))
            (idleSessionsToClose st ++ [p]) (ageSessionsToClose st)
            idleActive ageActive
        else
          mkScan heap1 (SkipList.Remove key (scPool st))
            (idleSessionsToClose st) (ageSessionsToClose st ++ [p])
            idleActive ageActive
      else
        mkScan heap1 (scPool st)
          (idleSessionsToClose st) (ageSessionsToClose st)
          idleActive ageActive
  end.

(** The scan of [cleanup]: the loop over the entries of the idle pool in
    iteration order, started with empty lists and zero counters. *)
Definition scanFrom (c : Client) (now : Z) (st : scan)
    (entries : list (Z * ptr)) : scan :=
  foldl (cleanupStep c now) st entries.

Definition scanInit (c : Client) : scan :=
  mkScan (heap c) (idleSession c) [] [] 0 0.

Definition cleanupScan (c : Client) (now : Z) : scan :=
  scanFrom c now (scanInit c) (idleSession c).

(** "Proactive session creation": the number of creators a tick starts for
    a pool that holds [currentPoolSize] sessions after the scan. *)
Definition toCreate (c : Client) (currentPoolSize : Z) : Z :=
  if 0 <? ensureIdleSession c then
    let deficit := ensureIdleSession c - currentPoolSize in
    if 0 <? deficit then
      if (0 <? ensureIdleSessionCreateRate c)
         && (ensureIdleSessionCreateRate c <? deficit)
      then ensureIdleSessionCreateRate c
      else deficit
    else 0
  else 0.

(** [cleanup] up to the point where the creators are started: the client
    after the scan and the closes, paired with the number of creators. *)
Definition cleanup (now : Z) (c : Client) : Client * Z :=
  let st := cleanupScan c now in
  let currentPoolSize := SkipList.Len (scPool st) in
  let c1 := setIdleSession (scPool st) (setHeap (scHeap st) c) in
  let c2 := closeAll (idleSessionsToClose st) c1 in
  let c3 := closeAll (ageSessionsToClose st) c2 in
  (c3, toCreate c currentPoolSize).

(** "Immediately put into idle pool": what a proactive creator does with
    the session [p] that [createSession] returned to it. *)
Definition proactiveInsert (now : Z) (p : ptr) (c : Client) : Client :=
  match heap c !! p with
  | Some session =>
      let session' := setIdleSince now session in
      setIdleSession
        (SkipList.Insert (poolKey session') p (idleSession c))
        (setHeap (<[p := session']> (heap c)) c)
  | None => c
  end.

(** The body of one proactive creator. *)
Definition proactiveCreator (nowDial nowInsert : Z) (dialOk : bool)
    (c : Client) : Client :=
  match createSession nowDial dialOk c with
  | (Some p, c1) => proactiveInsert nowInsert p c1
  | (None, c1) => c1
  end.

(** ** Operations as events *)

(** What can happen to a client, one constructor per function of the
    source that changes it; the arguments are the readings of the clock and
    the outcomes of the network calls. *)
Inductive op :=
| OpCreateStream (now : Z) (dialOk openOk : bool)
| OpStreamDie (now : Z) (p : ptr)
| OpSessionDie (p : ptr)
| OpCleanup (now : Z)
| OpCreatorDial (now : Z) (dialOk : bool)
| OpCreatorInsert (now : Z) (p : ptr)
| OpClose.

Definition exec (o : op) (c : Client) : Client :=
  match o with
  | OpCreateStream now dialOk openOk => snd (CreateStream now dialOk openOk c)
  | OpStreamDie now p => streamDieHook now p c
  | OpSessionDie p => SessionClose p c
  | OpCleanup now => fst (cleanup now c)
  | OpCreatorDial now dialOk => snd (createSession now dialOk c)
  | OpCreatorInsert now p => proactiveInsert now p c
  | OpClose => Close c
  end.

Definition run (os : list op) (c : Client) : Client :=
  foldl (fun acc o => exec o acc) c os.

(** ** Statements of the configuration contract *)

(** The resolution of one field as the configuration contract words it:
    a non-null override wins; otherwise a legacy field set greater than 0
    wins; otherwise the global value is used.  [conv] is the unit
    conversion of the two per-proxy layers. *)
Definition layered (conv : Z -> Z) (override legacy : option Z) (global : Z)
  : Z :=
  match override with
  | Some v => conv v
  | None =>
      match legacy with
      | Some l => if 0 <? l then conv l else global
      | None => global
      end
  end.

(** The value of a field in the global layer; an absent global block leaves
    the zero value of the field. *)
Definition globalField (f : Outbound.G.t -> Z) (g : option Outbound.G.t)
  : Z :=
  match g with
  | Some g => f g
  | None => 0
  end.

(** The value of a field in the override layer; an absent override block
    has every field null. *)
Definition overrideField (f : Outbound.O.t -> option Z) (o : Outbound.L.t)
  : option Z :=
  match Outbound.L.SessionOverride o with
  | Some ov => f ov
  | None => None
  end.

(** The client that [NewAnyTLS] builds for a global block and an option. *)
Definition effectiveClient (g : option Outbound.G.t) (o : Outbound.L.t)
  : Client :=
  fst (NewClient (toSessionConfig (Outbound.mergeConfig g o))).

(** An option whose override sets a lifetime of 10 seconds and a jitter of
    20 seconds, with no legacy field and no other override. *)
Definition jitterOverLifetime : Outbound.L.t :=
  Outbound.L.mk 0 0 0
    (Some (Outbound.O.mk None None None None (Some 10) (Some 20) None None)).

(** ** Counting the sessions a tick finds eligible for the age close *)

(** Whether the entry [e], visited in the scan state [st], reaches the age
    check (rotation enabled, not marked for the idle close) with its
    lifetime exceeded. *)
Definition ageEligibleAt (c : Client) (now : Z) (st : scan) (e : Z * ptr)
  : bool :=
  match scHeap st !! e.2 with
  | Some session =>
      let '(shouldCloseIdle, session1, _) :=
        checkIdle c now session (idleActiveCount st) in
      (0 <? maxConnectionLifetime c) && negb shouldCloseIdle
      && (ageExpTime c session1 <? now)
  | None => false
  end.

(** The number of entries of [entries] that the scan, started in [st],
    finds eligible for the age close. *)
Fixpoint ageEligible (c : Client) (now : Z) (st : scan)
    (entries : list (Z * ptr)) : Z :=
  match entries with
  | [] => 0
  | e :: entries' =>
      (if ageEligibleAt c now st e then 1 else 0)
      + ageEligible c now (cleanupStep c now st e) entries'
  end.

(** The number of entries of [entries] whose session, in the store [h],
    has outlived its lifetime at [now], whatever the idle check decides. *)
Fixpoint ageExpiredCount (c : Client) (now : Z) (h : list Session)
    (entries : list (Z * ptr)) : Z :=
  match entries with
  | [] => 0
  | e :: entries' =>
      match h !! e.2 with
      | Some session => if ageExpTime c session <? now then 1 else 0
      | None => 0
      end
      + ageExpiredCount c now h entries'
  end.

(** ** Invariants of the client *)

(** The order of the idle pool: ascending keys, each key once. *)
Definition keyLt (a b : Z * ptr) : Prop := a.1 < b.1.

Definition sortedPool (l : SkipList.t) : Prop := StronglySorted keyLt l.

(** What holds of the idle pool in every state, whatever has happened: it
    is sorted, each entry is a session stored under its own key, and
    sequence numbers are 64-bit unsigned values. *)
Record PoolInv (c : Client) : Prop := mkPoolInv {
  pool_sorted : sortedPool (idleSession c);
  pool_keyed :
    forall (k : Z) (p : ptr),
      (k, p) ∈ idleSession c ->
      exists s, heap c !! p = Some s /\ k = poolKey s;
  pool_seq :
    forall (p : ptr) (s : Session),
      heap c !! p = Some s -> 0 <= seq s <= MaxUint64
}.

(** Containment: every session of the idle pool is in the registry, under
    its own sequence number. *)
Definition containment (c : Client) : Prop :=
  forall (k : Z) (p : ptr),
    (k, p) ∈ idleSession c ->
    exists s, heap c !! p = Some s /\ sessions c !! seq s = Some p.

(** What holds of a client between two operations, except for the link
    from live sessions to the registry:
    - the pool is sorted, and each of its entries is a live session stored
      under its own key;
    - sequence numbers are the values the counter has taken, one session
      each;
    - every entry of the registry is a live session, stored under its
      sequence number. *)
Record InvBase (c : Client) : Prop := mkInvBase {
  inv_sorted : sortedPool (idleSession c);
  inv_idle :
    forall (k : Z) (p : ptr),
      (k, p) ∈ idleSession c ->
      exists s, heap c !! p = Some s /\ k = poolKey s /\ closed s = false;
  inv_counter : 0 <= sessionCounter c <= MaxUint64;
  inv_seq :
    forall (p : ptr) (s : Session),
      heap c !! p = Some s -> 1 <= seq s <= sessionCounter c;
  inv_inj :
    forall (p q : ptr) (s s' : Session),
      heap c !! p = Some s -> heap c !! q = Some s' ->
      seq s = seq s' -> p = q;
  inv_reg :
    forall (n : Z) (p : ptr),
      sessions c !! n = Some p ->
      exists s, heap c !! p = Some s /\ seq s = n /\ closed s = false
}.

(** Every live session is registered. *)
Definition liveRegistered (c : Client) : Prop :=
  forall (p : ptr) (s : Session),
    heap c !! p = Some s -> closed s = false ->
    sessions c !! seq s = Some p.

Definition Inv (c : Client) : Prop := InvBase c /\ liveRegistered c.

(** The assumptions under which an operation is taken: a dial that succeeds
    finds the counter below its maximum, and a proactive creator inserts a
    session that has not died since it was created. *)
Definition opOk (o : op) (c : Client) : Prop :=
  match o with
  | OpCreateStream _ dialOk _ =>
      dialOk = true -> sessionCounter c < MaxUint64
  | OpCreatorDial _ dialOk =>
      dialOk = true -> sessionCounter c < MaxUint64
  | OpCreatorInsert _ p =>
      forall s, heap c !! p = Some s -> closed s = false
  | _ => True
  end.

(** A client that can be reached from [c] by operations taken under their
    assumptions. *)
Inductive reachable (c : Client) : Client -> Prop :=
| reachable_refl : reachable c c
| reachable_step c' o :
    reachable c c' -> opOk o c' -> reachable c (exec o c').

(** A list of operations each taken under its assumption. *)
Fixpoint runOk (os : list op) (c : Client) : Prop :=
  match os with
  | [] => True
  | o :: os' => opOk o c /\ runOk os' (exec o c)
  end.

(** The client with its mutable state emptied: what is left are the
    settings [NewClient] copied from the configuration. *)
Definition settings (c : Client) : Client :=
  mkClient false 0 [] ∅ []
    (idleSessionTimeout c) (minIdleSession c) (ensureIdleSession c)
    (ensureIdleSessionCreateRate c) (minIdleSessionForAge c)
    (maxConnectionLifetime c) (connectionLifetimeJitter c).

(** ** Concrete clients and sessions used below *)

(** A client whose lifetime and jitter are both the largest duration. *)
Definition widestJitterClient : Client :=
  fst (NewClient (mkClientConfig 0 0 0 0 0 0 MaxInt64 MaxInt64)).

(** A client with a lifetime of 100 seconds and a jitter of 10 seconds. *)
Definition rotatingClient : Client :=
  fst (NewClient (mkClientConfig 0 0 0 0 0 0 (100 * Second) (10 * Second))).

(** A proactive creator that runs to the end: the dial succeeds at
    [created] and the session, stored at address [p], is pooled at
    [pooled]. *)
Definition pooledAt (created pooled : Z) (p : ptr) : list op :=
  [OpCreatorDial created true; OpCreatorInsert pooled p].

(** Scenario 2 of the specification: five sessions created and pooled at
    second 940, a timeout of 30 seconds and a floor of 2; the tick runs at
    second 1000, when every session has been idle for 60 seconds. *)
Definition fiveIdleConfig : ClientConfig :=
  mkClientConfig 0 (30 * Second) 2 0 0 0 0 0.

Definition fiveIdleOps : list op :=
  pooledAt (940 * Second) (940 * Second) 0
  ++ pooledAt (940 * Second) (940 * Second) 1
  ++ pooledAt (940 * Second) (940 * Second) 2
  ++ pooledAt (940 * Second) (940 * Second) 3
  ++ pooledAt (940 * Second) (940 * Second) 4.

Definition fiveIdleClient : Client :=
  run fiveIdleOps (fst (NewClient fiveIdleConfig)).

Definition fiveIdleTick : Z := 1000 * Second.

(** One session that has both timed out and outlived its lifetime at second
    1000: created at second 800 under a lifetime of 100 seconds, pooled at
    second 940 under a timeout of 30 seconds; the idle floor is 1 and there
    is no age floor. *)
Definition agedIdleConfig : ClientConfig :=
  mkClientConfig 0 (30 * Second) 1 0 0 0 (100 * Second) 0.

Definition agedIdleOps : list op :=
  pooledAt (800 * Second) (940 * Second) 0.

Definition agedIdleClient : Client :=
  run agedIdleOps (fst (NewClient agedIdleConfig)).

(** Two sessions that have outlived a lifetime of 100 seconds at second
    1000 (created at second 800, pooled at second 990, so neither has timed
    out), under an age floor of 1. *)
Definition twoAgedConfig : ClientConfig :=
  mkClientConfig 0 (30 * Second) 0 0 0 1 (100 * Second) 0.

Definition twoAgedOps : list op :=
  pooledAt (800 * Second) (990 * Second) 0
  ++ pooledAt (800 * Second) (990 * Second) 1.

Definition twoAgedClient : Client :=
  run twoAgedOps (fst (NewClient twoAgedConfig)).

(** A client with default settings. *)
Definition plainClient : Client :=
  fst (NewClient (mkClientConfig 0 0 0 0 0 0 0 0)).

(** One session, created and pooled by a proactive creator at second 1. *)
Definition onePooled : list op := pooledAt Second Second 0.

(** Two sessions, created and pooled at seconds 1 and 2. *)
Definition twoPooled : list op :=
  onePooled ++ pooledAt (2 * Second) (2 * Second) 1.

(** A creator whose session dies between its creation and its insertion. *)
Definition lateInsert : list op :=
  [OpCreatorDial Second true; OpSessionDie 0%nat;
   OpCreatorInsert Second 0%nat].

(** A client that keeps one idle session ready. *)
Definition ensureOneClient : Client :=
  fst (NewClient (mkClientConfig 0 0 0 1 0 0 0 0)).


(** One stream, opened on a new client. *)
Definition oneStream : list op := [OpCreateStream Second true true].

(** A session pooled again after its stream (session 0) and a session that
    carries a stream (session 1). *)
Definition idleAndBusy : list op :=
  onePooled ++ [OpCreateStream (2 * Second) true true;
                OpCreateStream (3 * Second) true true;
                OpStreamDie (4 * Second) 0].

(** * Properties *)

(** ** Machine integers *)

Lemma i64_id (x : Z) : MinInt64 <= x <= MaxInt64 -> i64 x = x.
Proof.
  unfold i64, MinInt64, MaxInt64. intros H.
  rewrite Z.mod_small; lia.
Qed.

Lemma u64_id (x : Z) : 0 <= x <= MaxUint64 -> u64 x = x.
Proof.
  unfold u64, MaxUint64. intros H. apply Z.mod_small. lia.
Qed.

Lemma i64_range (x : Z) : MinInt64 <= i64 x <= MaxInt64.
Proof.
  unfold i64, MinInt64, MaxInt64.
  pose proof (Z.mod_pos_bound (x + 2 ^ 63) (2 ^ 64)). lia.
Qed.

Lemma u64_range (x : Z) : 0 <= u64 x <= MaxUint64.
Proof.
  unfold u64, MaxUint64.
  pose proof (Z.mod_pos_bound x (2 ^ 64)). lia.
Qed.

Lemma seconds_exact (n : Z) :
  MinInt64 <= n * Second <= MaxInt64 -> seconds n = n * Second.
Proof.
  intros H. unfold seconds.
  assert (MinInt64 <= n <= MaxInt64)
    by (unfold Second, MinInt64, MaxInt64 in *; lia).
  rewrite (i64_id n) by assumption. now apply i64_id.
Qed.

(** ** The configuration merge *)

Module MergeFacts.
Import Outbound.

(** C9.  Every field of the merged configuration is resolved by the fixed
    priority override, then legacy (when greater than 0), then global; the
    two per-proxy layers give durations in seconds.  Only the check
    interval, the idle timeout and the idle floor have a legacy field. *)
Theorem merge_priority (g : option G.t) (o : L.t) :
  mergeConfig g o =
  T.mk
    (layered seconds (overrideField O.IdleSessionCheckInterval o)
       (Some (L.IdleSessionCheckInterval o))
       (globalField G.IdleSessionCheckInterval g))
    (layered seconds (overrideField O.IdleSessionTimeout o)
       (Some (L.IdleSessionTimeout o))
       (globalField G.IdleSessionTimeout g))
    (layered id (overrideField O.MinIdleSession o)
       (Some (L.MinIdleSession o))
       (globalField G.MinIdleSession g))
    (layered id (overrideField O.EnsureIdleSession o) None
       (globalField G.EnsureIdleSession g))
    (layered id (overrideField O.EnsureIdleSessionCreateRate o) None
       (globalField G.EnsureIdleSessionCreateRate g))
    (layered id (overrideField O.MinIdleSessionForAge o) None
       (globalField G.MinIdleSessionForAge g))
    (layered seconds (overrideField O.MaxConnectionLifetime o) None
       (globalField G.MaxConnectionLifetime g))
    (layered seconds (overrideField O.ConnectionLifetimeJitter o) None
       (globalField G.ConnectionLifetimeJitter g)).
Proof.
  unfold mergeConfig, applyOverride, applyLegacy, applyGlobal,
    overrideField, globalField, layered, orElse.
  destruct o as [lci lto lmi ov]; simpl.
  destruct g as [[ge gm ga gr gl gj gt gc]|]; simpl;
    destruct (0 <? lci), (0 <? lto), (0 <? lmi); simpl;
    destruct ov as [[oe om oa orr ol oj ot oc]|]; simpl; try reflexivity;
    destruct oc, ot, om; reflexivity.
Qed.

End MergeFacts.

(** [NewClient] copies the two rotation fields of its configuration. *)
Lemma NewClient_rotation_fields (config : ClientConfig) :
  maxConnectionLifetime (fst (NewClient config)) = MaxConnectionLifetime config
  /\ connectionLifetimeJitter (fst (NewClient config))
     = ConnectionLifetimeJitter config.
Proof. split; reflexivity. Qed.

(** C5, as stated, fails: with no global block and an override of 10
    seconds of lifetime and 20 seconds of jitter, the client is built with
    a jitter above its lifetime. *)
Lemma jitter_limit_not_enforced :
  Outbound.T.MaxConnectionLifetime
    (Outbound.mergeConfig None jitterOverLifetime) = 10 * Second
  /\ Outbound.T.ConnectionLifetimeJitter
       (Outbound.mergeConfig None jitterOverLifetime) = 20 * Second
  /\ maxConnectionLifetime (effectiveClient None jitterOverLifetime)
     = 10 * Second
  /\ connectionLifetimeJitter (effectiveClient None jitterOverLifetime)
     = 20 * Second
  /\ ~ (connectionLifetimeJitter (effectiveClient None jitterOverLifetime)
        <= maxConnectionLifetime (effectiveClient None jitterOverLifetime)).
Proof.
  repeat split; try reflexivity.
  vm_compute. intros H. apply H. reflexivity.
Qed.

(** C5, amended.  The client holds, for the lifetime and for the jitter,
    the value that wins the merge, unchanged: nothing on the way validates
    or clamps them, so the jitter is at most the lifetime exactly when the
    two winning values are in that order. *)
Theorem jitter_limit_passes_through (g : option Outbound.G.t)
    (o : Outbound.L.t) :
  let lifetime :=
    layered seconds (overrideField Outbound.O.MaxConnectionLifetime o) None
      (globalField Outbound.G.MaxConnectionLifetime g) in
  let jitter :=
    layered seconds (overrideField Outbound.O.ConnectionLifetimeJitter o) None
      (globalField Outbound.G.ConnectionLifetimeJitter g) in
  maxConnectionLifetime (effectiveClient g o) = lifetime
  /\ connectionLifetimeJitter (effectiveClient g o) = jitter
  /\ (connectionLifetimeJitter (effectiveClient g o)
      <= maxConnectionLifetime (effectiveClient g o)
      <-> jitter <= lifetime).
Proof.
  intros lifetime jitter.
  assert (Hl : maxConnectionLifetime (effectiveClient g o) = lifetime).
  { unfold effectiveClient.
    rewrite (proj1 (NewClient_rotation_fields _)).
    subst lifetime. unfold toSessionConfig; simpl.
    unfold Outbound.mergeConfig, Outbound.applyOverride, overrideField,
      layered, Outbound.orElse, globalField.
    destruct (Outbound.L.SessionOverride o) as [ov|]; simpl;
      [destruct (Outbound.O.MaxConnectionLifetime ov); [reflexivity|]|];
      unfold Outbound.applyLegacy;
      repeat match goal with |- context [if ?b then _ else _] =>
               destruct b end;
      simpl; destruct g; reflexivity. }
  assert (Hj : connectionLifetimeJitter (effectiveClient g o) = jitter).
  { unfold effectiveClient.
    rewrite (proj2 (NewClient_rotation_fields _)).
    subst jitter. unfold toSessionConfig; simpl.
    unfold Outbound.mergeConfig, Outbound.applyOverride, overrideField,
      layered, Outbound.orElse, globalField.
    destruct (Outbound.L.SessionOverride o) as [ov|]; simpl;
      [destruct (Outbound.O.ConnectionLifetimeJitter ov); [reflexivity|]|];
      unfold Outbound.applyLegacy;
      repeat match goal with |- context [if ?b then _ else _] =>
               destruct b end;
      simpl; destruct g; reflexivity. }
  rewrite Hl, Hj. tauto.
Qed.

(** ** The jittered lifetime *)

Section Lifetime.

Variable c : Client.

Let m := maxConnectionLifetime c.
Let j := connectionLifetimeJitter c.

(** The modulus of the jitter offset is never zero, so the remainder the
    source takes is always defined. *)
Lemma jitter_modulus_nonzero :
  0 < j -> j <= MaxInt64 -> i64 (i64 j * 2) <> 0.
Proof.
  subst j. intros Hpos Hmax.
  rewrite (i64_id (connectionLifetimeJitter c))
    by (unfold MinInt64, MaxInt64 in *; lia).
  unfold i64, MaxInt64 in *. intros H.
  destruct (Z_lt_le_dec (connectionLifetimeJitter c * 2) (2 ^ 63)) as [Hs|Hb].
  - rewrite Z.mod_small in H by lia. lia.
  - replace (connectionLifetimeJitter c * 2 + 2 ^ 63)
      with ((connectionLifetimeJitter c * 2 - 2 ^ 63) + 1 * 2 ^ 64) in H
      by lia.
    rewrite Z.mod_add in H by lia.
    rewrite Z.mod_small in H by lia. lia.
Qed.

(** Within the range of [int64] the source computes the offset as the
    mathematical remainder of the sequence number. *)
Lemma sessionLifetime_in_range (s : Session) :
  0 < j -> 2 * j <= MaxInt64 ->
  0 <= seq s <= MaxInt64 ->
  MinInt64 <= m - j -> m + j - 1 <= MaxInt64 ->
  sessionLifetime c s = m - j + seq s mod (2 * j).
Proof.
  subst m j. intros Hpos Hdbl Hseq Hlo Hhi.
  unfold sessionLifetime.
  destruct (Z.ltb_spec 0 (connectionLifetimeJitter c)) as [_|]; [|lia].
  assert (Hr : 0 <= seq s mod (2 * connectionLifetimeJitter c)
               < 2 * connectionLifetimeJitter c)
    by (apply Z.mod_pos_bound; lia).
  rewrite (i64_id (connectionLifetimeJitter c))
    by (unfold MinInt64, MaxInt64 in *; lia).
  rewrite (i64_id (connectionLifetimeJitter c * 2))
    by (unfold MinInt64, MaxInt64 in *; lia).
  rewrite (i64_id (seq s)) by (unfold MinInt64, MaxInt64 in *; lia).
  rewrite Z.rem_mod_nonneg by lia.
  rewrite (Z.mul_comm (connectionLifetimeJitter c) 2).
  rewrite (i64_id (seq s mod _))
    by (unfold MinInt64, MaxInt64 in *; lia).
  rewrite (i64_id (maxConnectionLifetime c - connectionLifetimeJitter c))
    by (unfold MinInt64, MaxInt64 in *; lia).
  apply i64_id. unfold MinInt64, MaxInt64 in *. lia.
Qed.

End Lifetime.

(** C4, as stated, fails outside the range of [int64]: with the largest
    duration as jitter (and as lifetime) the doubled jitter wraps to [-2],
    so the session of sequence number 3 gets the offset [3 % -2 = 1] where
    the formula of the claim gives [3 mod (2 * jitter) = 3]. *)
Lemma lifetime_formula_wraps :
  let s := mkSession 3 0 0 false in
  0 < connectionLifetimeJitter widestJitterClient
  /\ connectionLifetimeJitter widestJitterClient
     <= maxConnectionLifetime widestJitterClient
  /\ sessionLifetime widestJitterClient s = 1
  /\ maxConnectionLifetime widestJitterClient
     - connectionLifetimeJitter widestJitterClient
     + seq s mod (2 * connectionLifetimeJitter widestJitterClient) = 3
  /\ sessionLifetime widestJitterClient s <>
     maxConnectionLifetime widestJitterClient
     - connectionLifetimeJitter widestJitterClient
     + seq s mod (2 * connectionLifetimeJitter widestJitterClient).
Proof.
  cbv zeta. repeat split; try (vm_compute; congruence).
Qed.

(** C4, amended.  For a sequence number below [2^63] and a configuration
    whose doubled jitter and whose lifetime plus or minus the jitter fit
    [int64], the lifetime of the age check is the lifetime minus the
    jitter plus [seq mod (2 * jitter)], its offset from the lifetime lies
    in [[-jitter, jitter)], and it depends on the session through its
    sequence number alone: two sessions (or two evaluations) with the same
    sequence number and creation time, under clients with the same two
    settings, get the same expiry instant. *)
Theorem lifetime_formula (c : Client) (s : Session) :
  0 < connectionLifetimeJitter c ->
  2 * connectionLifetimeJitter c <= MaxInt64 ->
  0 <= seq s <= MaxInt64 ->
  MinInt64 <= maxConnectionLifetime c - connectionLifetimeJitter c ->
  maxConnectionLifetime c + connectionLifetimeJitter c - 1 <= MaxInt64 ->
  sessionLifetime c s
  = maxConnectionLifetime c - connectionLifetimeJitter c
    + seq s mod (2 * connectionLifetimeJitter c)
  /\ - connectionLifetimeJitter c
     <= sessionLifetime c s - maxConnectionLifetime c
     < connectionLifetimeJitter c
  /\ (forall (c' : Client) (s' : Session),
        maxConnectionLifetime c' = maxConnectionLifetime c ->
        connectionLifetimeJitter c' = connectionLifetimeJitter c ->
        seq s' = seq s ->
        createdAt s' = createdAt s ->
        sessionLifetime c' s' = sessionLifetime c s
        /\ ageExpTime c' s' = ageExpTime c s).
Proof.
  intros Hpos Hdbl Hseq Hlo Hhi.
  pose proof (sessionLifetime_in_range c s Hpos Hdbl Hseq Hlo Hhi) as Heq.
  pose proof (Z.mod_pos_bound (seq s) (2 * connectionLifetimeJitter c)
                ltac:(lia)) as Hr.
  split; [exact Heq|]. split; [lia|].
  intros c' s' Hm Hj Hs Hc.
  assert (sessionLifetime c' s' = sessionLifetime c s) as Hsame.
  { unfold sessionLifetime. rewrite Hm, Hj, Hs. reflexivity. }
  split; [exact Hsame|].
  unfold ageExpTime. rewrite Hsame, Hc. reflexivity.
Qed.

(** Scenario 3 of the specification: lifetime 100s, jitter 10s give the
    sessions of sequence numbers 1 and 2 the lifetimes 91s and 92s (plus
    one and two nanoseconds: the offset is taken in nanoseconds). *)
Lemma lifetime_formula_witness :
  sessionLifetime rotatingClient (mkSession 1 0 0 false)
  = 100 * Second - 10 * Second + 1 mod (2 * (10 * Second))
  /\ - (10 * Second)
     <= sessionLifetime rotatingClient (mkSession 1 0 0 false) - 100 * Second
     < 10 * Second.
Proof.
  pose proof (lifetime_formula rotatingClient (mkSession 1 0 0 false)) as H.
  assert (H1 : 0 < connectionLifetimeJitter rotatingClient)
    by (vm_compute; reflexivity).
  assert (H2 : 2 * connectionLifetimeJitter rotatingClient <= MaxInt64)
    by (vm_compute; congruence).
  assert (H3 : 0 <= seq (mkSession 1 0 0 false) <= MaxInt64)
    by (vm_compute; split; congruence).
  assert (H4 : MinInt64 <= maxConnectionLifetime rotatingClient
                           - connectionLifetimeJitter rotatingClient)
    by (vm_compute; congruence).
  assert (H5 : maxConnectionLifetime rotatingClient
               + connectionLifetimeJitter rotatingClient - 1 <= MaxInt64)
    by (vm_compute; congruence).
  destruct (H H1 H2 H3 H4 H5) as (Ha & Hb & _).
  split; [exact Ha | exact Hb].
Defined.

(** ** The scan of the maintenance cycle *)

Section ScanFacts.

Variable c : Client.
Variable now : Z.

Abbreviation step := (cleanupStep c now).

Lemma scanFrom_cons st e es :
  scanFrom c now st (e :: es) = scanFrom c now (step st e) es.
Proof. reflexivity. Qed.

Lemma scanFrom_app st es1 es2 :
  scanFrom c now st (es1 ++ es2) = scanFrom c now (scanFrom c now st es1) es2.
Proof. unfold scanFrom. apply foldl_app. Qed.

(** *** What one iteration can change *)

Lemma step_idle_list st k p :
  idleSessionsToClose (step st (k, p)) = idleSessionsToClose st
  \/ idleSessionsToClose (step st (k, p)) = idleSessionsToClose st ++ [p].
Proof.
  unfold cleanupStep. destruct (scHeap st !! p) as [s|] eqn:Hs; [|now left].
  unfold checkIdle, checkAge.
  repeat match goal with
         | |- context [Z.ltb ?a ?b] => destruct (Z.ltb a b)
         | |- context [Z.leb ?a ?b] => destruct (Z.leb a b)
         end; simpl; auto.
Qed.

Lemma step_age_list st k p :
  ageSessionsToClose (step st (k, p)) = ageSessionsToClose st
  \/ ageSessionsToClose (step st (k, p)) = ageSessionsToClose st ++ [p].
Proof.
  unfold cleanupStep. destruct (scHeap st !! p) as [s|] eqn:Hs; [|now left].
  unfold checkIdle, checkAge.
  repeat match goal with
         | |- context [Z.ltb ?a ?b] => destruct (Z.ltb a b)
         | |- context [Z.leb ?a ?b] => destruct (Z.leb a b)
         end; simpl; auto.
Qed.

Lemma step_heap_ne st k p (q : ptr) :
  q <> p -> scHeap (step st (k, p)) !! q = scHeap st !! q.
Proof.
  intros Hne. unfold cleanupStep.
  destruct (scHeap st !! p) as [s|] eqn:Hs; [|reflexivity].
  unfold checkIdle, checkAge.
  repeat match goal with
         | |- context [Z.ltb ?a ?b] => destruct (Z.ltb a b)
         | |- context [Z.leb ?a ?b] => destruct (Z.leb a b)
         end; simpl; apply list_lookup_insert_ne; congruence.
Qed.

(** An iteration writes [idleSince] only: sequence number, creation time
    and closed state of every session stay as they are. *)
Lemma step_heap_static st e (q : ptr) :
  static <$> scHeap (step st e) !! q = static <$> scHeap st !! q.
Proof.
  destruct e as [k p]. destruct (decide (q = p)) as [->|Hne].
  2: { now rewrite step_heap_ne. }
  unfold cleanupStep.
  destruct (scHeap st !! p) as [s|] eqn:Hs; [|now rewrite Hs].
  assert (Hlt : (p < length (scHeap st))%nat) by (eapply lookup_lt_Some; eauto).
  unfold checkIdle, checkAge.
  repeat match goal with
         | |- context [Z.ltb ?a ?b] => destruct (Z.ltb a b)
         | |- context [Z.leb ?a ?b] => destruct (Z.leb a b)
         end; simpl; rewrite list_lookup_insert_eq by assumption;
    rewrite ?Hs; reflexivity.
Qed.

(** *** What a run of iterations can change *)

Lemma scanFrom_idle_list_elem st es (q : ptr) :
  q ∈ idleSessionsToClose (scanFrom c now st es) ->
  q ∈ idleSessionsToClose st \/ q ∈ es.*2.
Proof.
  revert st. induction es as [|[k p] es IH]; intros st Hq; [now left|].
  rewrite scanFrom_cons in Hq. apply IH in Hq as [Hq|Hq].
  - destruct (step_idle_list st k p) as [E|E]; rewrite E in Hq.
    + now left.
    + apply elem_of_app in Hq as [Hq|Hq]; [now left|].
      apply list_elem_of_singleton in Hq. subst. right. simpl. left.
  - right. simpl. now right.
Qed.

Lemma scanFrom_age_list_elem st es (q : ptr) :
  q ∈ ageSessionsToClose (scanFrom c now st es) ->
  q ∈ ageSessionsToClose st \/ q ∈ es.*2.
Proof.
  revert st. induction es as [|[k p] es IH]; intros st Hq; [now left|].
  rewrite scanFrom_cons in Hq. apply IH in Hq as [Hq|Hq].
  - destruct (step_age_list st k p) as [E|E]; rewrite E in Hq.
    + now left.
    + apply elem_of_app in Hq as [Hq|Hq]; [now left|].
      apply list_elem_of_singleton in Hq. subst. right. simpl. left.
  - right. simpl. now right.
Qed.

Lemma scanFrom_idle_list_mono st es (q : ptr) :
  q ∈ idleSessionsToClose st ->
  q ∈ idleSessionsToClose (scanFrom c now st es).
Proof.
  revert st. induction es as [|[k p] es IH]; intros st Hq; [assumption|].
  rewrite scanFrom_cons. apply IH.
  destruct (step_idle_list st k p) as [E|E]; rewrite E; [assumption|].
  apply elem_of_app. now left.
Qed.

Lemma scanFrom_age_list_mono st es (q : ptr) :
  q ∈ ageSessionsToClose st ->
  q ∈ ageSessionsToClose (scanFrom c now st es).
Proof.
  revert st. induction es as [|[k p] es IH]; intros st Hq; [assumption|].
  rewrite scanFrom_cons. apply IH.
  destruct (step_age_list st k p) as [E|E]; rewrite E; [assumption|].
  apply elem_of_app. now left.
Qed.

Lemma scanFrom_heap_ne st es (q : ptr) :
  q ∉ es.*2 -> scHeap (scanFrom c now st es) !! q = scHeap st !! q.
Proof.
  revert st. induction es as [|[k p] es IH]; intros st Hq; [reflexivity|].
  rewrite scanFrom_cons. simpl in Hq.
  apply not_elem_of_cons in Hq as [Hne Hq].
  rewrite IH by assumption. now apply step_heap_ne.
Qed.

Lemma scanFrom_heap_static st es (q : ptr) :
  static <$> scHeap (scanFrom c now st es) !! q = static <$> scHeap st !! q.
Proof.
  revert st. induction es as [|e es IH]; intros st; [reflexivity|].
  rewrite scanFrom_cons, IH. apply step_heap_static.
Qed.

End ScanFacts.

(** *** The decisions of one iteration *)

Section StepDecisions.

Variable c : Client.
Variable now : Z.
Variable st : scan.
Variable k : Z.
Variable p : ptr.
Variable s : Session.
Hypothesis Hs : scHeap st !! p = Some s.

Abbreviation st' := (cleanupStep c now st (k, p)).

Lemma stepped_ptr_in_heap : (p < length (scHeap st))%nat.
Proof. eapply lookup_lt_Some; eauto. Qed.

Lemma ageExpTime_setIdleSince t : ageExpTime c (setIdleSince t s) = ageExpTime c s.
Proof. reflexivity. Qed.

(** Timed out with the floor reached: marked for the idle close, skipped by
    the age check. *)
Lemma step_idle_close :
  idleSince s < idleExpTime c now ->
  minIdleSession c <= idleActiveCount st ->
  st' = mkScan (<[p := s]> (scHeap st)) (SkipList.Remove k (scPool st))
          (idleSessionsToClose st ++ [p]) (ageSessionsToClose st)
          (idleActiveCount st) (ageActiveCount st).
Proof.
  intros H1 H2. unfold cleanupStep, checkIdle. rewrite Hs.
  destruct (Z.ltb_spec (idleSince s) (idleExpTime c now)); [|lia].
  destruct (Z.leb_spec (minIdleSession c) (idleActiveCount st)); [|lia].
  unfold checkAge. rewrite andb_false_r. reflexivity.
Qed.

(** Timed out below the floor: a fresh lease. *)
Lemma step_idle_protect :
  idleSince s < idleExpTime c now ->
  idleActiveCount st < minIdleSession c ->
  idleSessionsToClose st' = idleSessionsToClose st
  /\ scHeap st' !! p = Some (setIdleSince now s)
  /\ idleActiveCount st' = idleActiveCount st + 1.
Proof.
  intros H1 H2. pose proof stepped_ptr_in_heap as Hlt.
  unfold cleanupStep, checkIdle. rewrite Hs.
  destruct (Z.ltb_spec (idleSince s) (idleExpTime c now)); [|lia].
  destruct (Z.leb_spec (minIdleSession c) (idleActiveCount st)); [lia|].
  unfold checkAge.
  repeat match goal with
         | |- context [Z.ltb ?a ?b] => destruct (Z.ltb a b)
         | |- context [Z.leb ?a ?b] => destruct (Z.leb a b)
         end; simpl;
    rewrite list_lookup_insert_eq by assumption; auto.
Qed.

(** Within the timeout: retained, untouched. *)
Lemma step_idle_fresh :
  idleExpTime c now <= idleSince s ->
  idleSessionsToClose st' = idleSessionsToClose st
  /\ scHeap st' !! p = Some s
  /\ idleActiveCount st' = idleActiveCount st + 1.
Proof.
  intros H1. pose proof stepped_ptr_in_heap as Hlt.
  unfold cleanupStep, checkIdle. rewrite Hs.
  destruct (Z.ltb_spec (idleSince s) (idleExpTime c now)); [lia|].
  unfold checkAge.
  repeat match goal with
         | |- context [Z.ltb ?a ?b] => destruct (Z.ltb a b)
         | |- context [Z.leb ?a ?b] => destruct (Z.leb a b)
         end; simpl;
    rewrite list_lookup_insert_eq by assumption; auto.
Qed.

(** The idle close list grows by [p] exactly when [p] has timed out and the
    floor is reached. *)
Lemma step_idle_iff :
  idleSessionsToClose st' = idleSessionsToClose st ++ [p]
  <-> idleSince s < idleExpTime c now
      /\ minIdleSession c <= idleActiveCount st.
Proof.
  split.
  - intros E.
    destruct (Z_lt_le_dec (idleSince s) (idleExpTime c now)) as [H1|H1].
    + destruct (Z_lt_le_dec (idleActiveCount st) (minIdleSession c))
        as [H2|H2]; [|auto].
      destruct (step_idle_protect H1 H2) as (E' & _).
      rewrite E' in E. apply (f_equal length) in E.
      rewrite length_app in E. simpl in E. lia.
    + destruct (step_idle_fresh H1) as (E' & _).
      rewrite E' in E. apply (f_equal length) in E.
      rewrite length_app in E. simpl in E. lia.
  - intros [H1 H2]. now rewrite (step_idle_close H1 H2).
Qed.

(** The age check: when the session is not marked for the idle close. *)
Lemma step_age_close :
  idleSessionsToClose st' = idleSessionsToClose st ->
  0 < maxConnectionLifetime c ->
  ageExpTime c s < now ->
  minIdleSessionForAge c <= ageActiveCount st ->
  ageSessionsToClose st' = ageSessionsToClose st ++ [p]
  /\ ageActiveCount st' = ageActiveCount st
  /\ scPool st' = SkipList.Remove k (scPool st).
Proof.
  intros E H1 H2 H3.
  destruct (Z_lt_le_dec (idleSince s) (idleExpTime c now)) as [Hi|Hi].
  - destruct (Z_lt_le_dec (idleActiveCount st) (minIdleSession c))
      as [Hf|Hf].
    + unfold cleanupStep, checkIdle. rewrite Hs.
      destruct (Z.ltb_spec (idleSince s) (idleExpTime c now)); [|lia].
      destruct (Z.leb_spec (minIdleSession c) (idleActiveCount st)); [lia|].
      unfold checkAge. rewrite ageExpTime_setIdleSince.
      destruct (Z.ltb_spec 0 (maxConnectionLifetime c)); [|lia].
      destruct (Z.ltb_spec (ageExpTime c s) now); [|lia].
      destruct (Z.leb_spec (minIdleSessionForAge c) (ageActiveCount st));
        [|lia].
      simpl. auto.
    + exfalso. pose proof (proj2 step_idle_iff (conj Hi Hf)) as E'.
      rewrite E in E'. apply (f_equal length) in E'.
      rewrite length_app in E'. simpl in E'. lia.
  - unfold cleanupStep, checkIdle. rewrite Hs.
    destruct (Z.ltb_spec (idleSince s) (idleExpTime c now)); [lia|].
    unfold checkAge.
    destruct (Z.ltb_spec 0 (maxConnectionLifetime c)); [|lia].
    destruct (Z.ltb_spec (ageExpTime c s) now); [|lia].
    destruct (Z.leb_spec (minIdleSessionForAge c) (ageActiveCount st));
      [|lia].
    simpl. auto.
Qed.

Lemma step_age_protect :
  idleSessionsToClose st' = idleSessionsToClose st ->
  0 < maxConnectionLifetime c ->
  ageExpTime c s < now ->
  ageActiveCount st < minIdleSessionForAge c ->
  ageSessionsToClose st' = ageSessionsToClose st
  /\ ageActiveCount st' = ageActiveCount st + 1
  /\ scPool st' = scPool st.
Proof.
  intros E H1 H2 H3.
  destruct (Z_lt_le_dec (idleSince s) (idleExpTime c now)) as [Hi|Hi].
  - destruct (Z_lt_le_dec (idleActiveCount st) (minIdleSession c))
      as [Hf|Hf].
    + unfold cleanupStep, checkIdle. rewrite Hs.
      destruct (Z.ltb_spec (idleSince s) (idleExpTime c now)); [|lia].
      destruct (Z.leb_spec (minIdleSession c) (idleActiveCount st)); [lia|].
      unfold checkAge. rewrite ageExpTime_setIdleSince.
      destruct (Z.ltb_spec 0 (maxConnectionLifetime c)); [|lia].
      destruct (Z.ltb_spec (ageExpTime c s) now); [|lia].
      destruct (Z.leb_spec (minIdleSessionForAge c) (ageActiveCount st));
        [lia|].
      simpl. auto.
    + exfalso. pose proof (proj2 step_idle_iff (conj Hi Hf)) as E'.
      rewrite E in E'. apply (f_equal length) in E'.
      rewrite length_app in E'. simpl in E'. lia.
  - unfold cleanupStep, checkIdle. rewrite Hs.
    destruct (Z.ltb_spec (idleSince s) (idleExpTime c now)); [lia|].
    unfold checkAge.
    destruct (Z.ltb_spec 0 (maxConnectionLifetime c)); [|lia].
    destruct (Z.ltb_spec (ageExpTime c s) now); [|lia].
    destruct (Z.leb_spec (minIdleSessionForAge c) (ageActiveCount st));
      [lia|].
    simpl. auto.
Qed.

(** No age close, and no use of a protection slot, for a session that is
    marked for the idle close, or when rotation is off, or when the session
    has not outlived its lifetime. *)
Lemma step_age_skip :
  idleSessionsToClose st' = idleSessionsToClose st ++ [p]
  \/ maxConnectionLifetime c <= 0
  \/ now <= ageExpTime c s ->
  ageSessionsToClose st' = ageSessionsToClose st
  /\ ageActiveCount st' = ageActiveCount st.
Proof.
  intros H. unfold cleanupStep in *. rewrite Hs in *.
  unfold checkIdle in *.
  destruct (Z.ltb_spec (idleSince s) (idleExpTime c now)) as [Hi|Hi].
  - destruct (Z.leb_spec (minIdleSession c) (idleActiveCount st)) as [Hf|Hf].
    + unfold checkAge. rewrite andb_false_r. simpl. auto.
    + unfold checkAge in *. rewrite ageExpTime_setIdleSince in *.
      destruct (Z.ltb_spec 0 (maxConnectionLifetime c)); simpl in *; auto.
      destruct (Z.ltb_spec (ageExpTime c s) now); simpl in *; auto.
      destruct H as [H|[H|H]]; try lia.
      exfalso.
      destruct (minIdleSessionForAge c <=? ageActiveCount st); simpl in H;
        apply (f_equal length) in H; rewrite length_app in H;
        simpl in H; lia.
  - unfold checkAge in *.
    destruct (Z.ltb_spec 0 (maxConnectionLifetime c)); simpl in *; auto.
    destruct (Z.ltb_spec (ageExpTime c s) now); simpl in *; auto.
    destruct H as [H|[H|H]]; try lia.
    exfalso.
    destruct (minIdleSessionForAge c <=? ageActiveCount st); simpl in H;
      apply (f_equal length) in H; rewrite length_app in H;
      simpl in H; lia.
Qed.

End StepDecisions.

(** *** Counters and lists over a run of iterations *)

Section ScanCounts.

Variable c : Client.
Variable now : Z.

Lemma is_Some_static (h h' : list Session) (q : ptr) :
  static <$> h' !! q = static <$> h !! q ->
  is_Some (h !! q) -> is_Some (h' !! q).
Proof.
  intros E [x Hx]. rewrite Hx in E. destruct (h' !! q); [eauto|discriminate].
Qed.

Lemma step_idle_count st k p :
  is_Some (scHeap st !! p) ->
  idleActiveCount (cleanupStep c now st (k, p))
  + Z.of_nat (length (idleSessionsToClose (cleanupStep c now st (k, p))))
  = idleActiveCount st + Z.of_nat (length (idleSessionsToClose st)) + 1.
Proof.
  intros [s Hs].
  destruct (Z_lt_le_dec (idleSince s) (idleExpTime c now)) as [H1|H1].
  - destruct (Z_lt_le_dec (idleActiveCount st) (minIdleSession c)) as [H2|H2].
    + destruct (step_idle_protect c now st k p s Hs H1 H2) as (E1 & _ & E2).
      rewrite E1, E2. lia.
    + rewrite (step_idle_close c now st k p s Hs H1 H2). simpl.
      rewrite length_app. simpl. lia.
  - destruct (step_idle_fresh c now st k p s Hs H1) as (E1 & _ & E2).
    rewrite E1, E2. lia.
Qed.

(** The idle counter is the number of sessions visited and not marked for
    the idle close. *)
Lemma scanFrom_idle_count st es :
  (forall q : ptr, q ∈ es.*2 -> is_Some (scHeap st !! q)) ->
  idleActiveCount (scanFrom c now st es)
  + Z.of_nat (length (idleSessionsToClose (scanFrom c now st es)))
  = idleActiveCount st + Z.of_nat (length (idleSessionsToClose st))
    + Z.of_nat (length es).
Proof.
  revert st. induction es as [|[k p] es IH]; intros st Hv.
  - simpl. lia.
  - rewrite scanFrom_cons, IH.
    + rewrite step_idle_count by (apply Hv; simpl; left).
      simpl length. lia.
    + intros q Hq. eapply is_Some_static; [apply step_heap_static|].
      apply Hv. simpl. now right.
Qed.

(** The age counter and the age close list take, between them, exactly the
    sessions found eligible for the age close. *)
Lemma step_age_count st e :
  ageActiveCount (cleanupStep c now st e)
  + Z.of_nat (length (ageSessionsToClose (cleanupStep c now st e)))
  = ageActiveCount st + Z.of_nat (length (ageSessionsToClose st))
    + (if ageEligibleAt c now st e then 1 else 0).
Proof.
  destruct e as [k p]. unfold ageEligibleAt, cleanupStep. simpl.
  destruct (scHeap st !! p) as [s|]; [|lia].
  unfold checkIdle, checkAge.
  repeat match goal with
         | |- context [Z.ltb ?a ?b] => destruct (Z.ltb a b)
         | |- context [Z.leb ?a ?b] => destruct (Z.leb a b)
         end; simpl; rewrite ?length_app; simpl; lia.
Qed.

Lemma scanFrom_age_count st es :
  ageActiveCount (scanFrom c now st es)
  + Z.of_nat (length (ageSessionsToClose (scanFrom c now st es)))
  = ageActiveCount st + Z.of_nat (length (ageSessionsToClose st))
    + ageEligible c now st es.
Proof.
  revert st. induction es as [|e es IH]; intros st.
  - simpl. lia.
  - rewrite scanFrom_cons, IH, step_age_count. simpl. lia.
Qed.

(** A session joins the age close list only when the counter has reached
    the floor; the counter never passes a non-negative floor. *)
Lemma step_age_floor st e :
  (ageSessionsToClose (cleanupStep c now st e) = ageSessionsToClose st
   \/ minIdleSessionForAge c <= ageActiveCount st)
  /\ ageActiveCount st <= ageActiveCount (cleanupStep c now st e)
  /\ (ageActiveCount st <= Z.max 0 (minIdleSessionForAge c) ->
      ageActiveCount (cleanupStep c now st e)
      <= Z.max 0 (minIdleSessionForAge c)).
Proof.
  destruct e as [k p]. unfold cleanupStep.
  destruct (scHeap st !! p) as [s|]; [|split; [now left|lia]].
  unfold checkIdle, checkAge.
  repeat match goal with
         | |- context [Z.ltb ?a ?b] => destruct (Z.ltb_spec a b)
         | |- context [Z.leb ?a ?b] => destruct (Z.leb_spec a b)
         end; simpl; (split; [auto|lia]).
Qed.

Lemma scanFrom_age_none st es :
  ageActiveCount st + ageEligible c now st es < minIdleSessionForAge c ->
  0 <= ageActiveCount st ->
  ageSessionsToClose (scanFrom c now st es) = ageSessionsToClose st.
Proof.
  revert st. induction es as [|e es IH]; intros st Hlt Hge; [reflexivity|].
  rewrite scanFrom_cons.
  pose proof (step_age_count st e) as Hc.
  pose proof (step_age_floor st e) as (Hl & Hm & _).
  assert (Hel : 0 <= ageEligible c now (cleanupStep c now st e) es).
  { clear. generalize (cleanupStep c now st e).
    induction es as [|e' es' IH']; intros st0; simpl; [lia|].
    specialize (IH' (cleanupStep c now st0 e')).
    destruct (ageEligibleAt c now st0 e'); lia. }
  simpl in Hlt.
  destruct Hl as [Hl|Hl].
  - rewrite Hl in Hc. rewrite IH; [assumption| |lia].
    destruct (ageEligibleAt c now st e); lia.
  - destruct (ageEligibleAt c now st e); lia.
Qed.

(** A session counted as eligible is one that has outlived its lifetime. *)
Lemma ageExpiredCount_step st e es :
  ageExpiredCount c now (scHeap (cleanupStep c now st e)) es
  = ageExpiredCount c now (scHeap st) es.
Proof.
  induction es as [|[k' p'] es' IH']; [reflexivity|].
  cbn [ageExpiredCount snd]. rewrite IH'. f_equal.
  pose proof (step_heap_static c now st e p') as E.
  destruct (scHeap (cleanupStep c now st e) !! p') as [s1|],
           (scHeap st !! p') as [s2|]; try discriminate; [|reflexivity].
  simpl in E. injection E as E1 E2 E3.
  unfold ageExpTime, sessionLifetime. now rewrite E1, E2.
Qed.

Lemma ageEligible_le_expired st es :
  ageEligible c now st es <= ageExpiredCount c now (scHeap st) es.
Proof.
  revert st. induction es as [|[k p] es IH]; intros st; [simpl; lia|].
  cbn [ageEligible ageExpiredCount snd].
  specialize (IH (cleanupStep c now st (k, p))).
  rewrite ageExpiredCount_step in IH.
  enough ((if ageEligibleAt c now st (k, p) then 1 else 0)
          <= match scHeap st !! p with
             | Some session => if ageExpTime c session <? now then 1 else 0
             | None => 0
             end) by lia.
  unfold ageEligibleAt. cbn [snd].
  destruct (scHeap st !! p) as [s|]; [|lia].
  unfold checkIdle.
  destruct (idleSince s <? idleExpTime c now);
    [destruct (minIdleSession c <=? idleActiveCount st)|];
    rewrite ?ageExpTime_setIdleSince;
    destruct (0 <? maxConnectionLifetime c), (ageExpTime c s <? now);
    simpl; lia.
Qed.

End ScanCounts.

(** ** The idle floor *)

Lemma idleExpTime_minus (c : Client) (now : Z) :
  MinInt64 < idleSessionTimeout c <= MaxInt64 ->
  idleExpTime c now = now - idleSessionTimeout c.
Proof.
  intros H. unfold idleExpTime. rewrite i64_id; [lia|].
  unfold MinInt64, MaxInt64 in *. lia.
Qed.

(** [NewClient] leaves the client with a timeout above five seconds. *)
Lemma NewClient_timeout (config : ClientConfig) :
  IdleSessionTimeout config <= MaxInt64 ->
  5 * Second < idleSessionTimeout (fst (NewClient config)) <= MaxInt64.
Proof.
  intros H. unfold NewClient. simpl.
  destruct (Z.leb_spec (IdleSessionTimeout config) (Second * 5)).
  - unfold Second, MaxInt64. lia.
  - lia.
Qed.

(** The position of one entry in a scan: the scan up to the entry, the
    iteration on the entry, and the rest. *)
Section OneEntry.

Variable c : Client.
Variable now : Z.
Variables (pre post : list (Z * ptr)) (k : Z) (p : ptr) (s : Session).

Hypothesis Hpool : idleSession c = pre ++ (k, p) :: post.
Hypothesis Hnodup : NoDup (idleSession c).*2.
Hypothesis Hs : heap c !! p = Some s.

Abbreviation before := (scanFrom c now (scanInit c) pre).
Abbreviation after := (cleanupStep c now before (k, p)).
Abbreviation final := (cleanupScan c now).

Lemma entry_not_in_pre : p ∉ pre.*2.
Proof.
  rewrite Hpool, fmap_app, fmap_cons in Hnodup.
  apply NoDup_app in Hnodup as (_ & H & _).
  intros Hin. apply (H p Hin). simpl. left.
Qed.

Lemma entry_not_in_post : p ∉ post.*2.
Proof.
  rewrite Hpool, fmap_app, fmap_cons in Hnodup.
  apply NoDup_app in Hnodup as (_ & _ & H).
  now apply NoDup_cons in H as [H _].
Qed.

Lemma final_split : final = scanFrom c now after post.
Proof.
  unfold cleanupScan. rewrite Hpool.
  now rewrite scanFrom_app, scanFrom_cons.
Qed.

Lemma before_heap : scHeap before !! p = Some s.
Proof.
  rewrite scanFrom_heap_ne by apply entry_not_in_pre. exact Hs.
Qed.

Lemma before_idle_list : p ∉ idleSessionsToClose before.
Proof.
  intros H. apply scanFrom_idle_list_elem in H as [H|H].
  - simpl in H. now apply not_elem_of_nil in H.
  - now apply entry_not_in_pre.
Qed.

Lemma before_age_list : p ∉ ageSessionsToClose before.
Proof.
  intros H. apply scanFrom_age_list_elem in H as [H|H].
  - simpl in H. now apply not_elem_of_nil in H.
  - now apply entry_not_in_pre.
Qed.

Lemma final_heap : scHeap final !! p = scHeap after !! p.
Proof.
  rewrite final_split. apply scanFrom_heap_ne, entry_not_in_post.
Qed.

(** Membership in a close list at the end of the scan is decided by the
    iteration on the entry itself. *)
Lemma final_idle_list :
  p ∈ idleSessionsToClose final
  <-> idleSessionsToClose after = idleSessionsToClose before ++ [p].
Proof.
  rewrite final_split. split.
  - intros H. apply scanFrom_idle_list_elem in H as [H|H].
    + destruct (step_idle_list c now before k p) as [E|E]; [|exact E].
      rewrite E in H. now apply before_idle_list in H.
    + now apply entry_not_in_post in H.
  - intros E. apply scanFrom_idle_list_mono. rewrite E.
    apply elem_of_app. right. apply list_elem_of_singleton. reflexivity.
Qed.

Lemma final_age_list :
  p ∈ ageSessionsToClose final
  <-> ageSessionsToClose after = ageSessionsToClose before ++ [p].
Proof.
  rewrite final_split. split.
  - intros H. apply scanFrom_age_list_elem in H as [H|H].
    + destruct (step_age_list c now before k p) as [E|E]; [|exact E].
      rewrite E in H. now apply before_age_list in H.
    + now apply entry_not_in_post in H.
  - intros E. apply scanFrom_age_list_mono. rewrite E.
    apply elem_of_app. right. apply list_elem_of_singleton. reflexivity.
Qed.

Lemma final_not_idle_list :
  p ∉ idleSessionsToClose final
  <-> idleSessionsToClose after = idleSessionsToClose before.
Proof.
  rewrite final_idle_list.
  destruct (step_idle_list c now before k p) as [E|E]; rewrite E.
  - split; [reflexivity|]. intros _ H. apply (f_equal length) in H.
    rewrite length_app in H. simpl in H. lia.
  - split; [intros H; now destruct H|].
    intros H. apply (f_equal length) in H.
    rewrite length_app in H. simpl in H. lia.
Qed.

End OneEntry.

(** ** Closing sessions *)

Lemma SessionClose_heap (p : ptr) (c : Client) :
  heap (SessionClose p c)
  = match heap c !! p with
    | Some s => if closed s then heap c else <[p := setClosed s]> (heap c)
    | None => heap c
    end.
Proof.
  unfold SessionClose. destruct (heap c !! p) as [s|]; [|reflexivity].
  destruct (closed s); reflexivity.
Qed.

Lemma SessionClose_length (p : ptr) (c : Client) :
  length (heap (SessionClose p c)) = length (heap c).
Proof.
  rewrite SessionClose_heap. destruct (heap c !! p) as [s|]; [|reflexivity].
  destruct (closed s); [reflexivity|apply length_insert].
Qed.

Lemma SessionClose_closed (p : ptr) (c : Client) :
  is_Some (heap c !! p) ->
  closed <$> heap (SessionClose p c) !! p = Some true.
Proof.
  intros [s Hs]. rewrite SessionClose_heap, Hs.
  destruct (closed s) eqn:Hc.
  - rewrite Hs. simpl. now rewrite Hc.
  - rewrite list_lookup_insert_eq by (eapply lookup_lt_Some; eauto).
    reflexivity.
Qed.

Lemma SessionClose_closed_mono (p q : ptr) (c : Client) :
  closed <$> heap c !! q = Some true ->
  closed <$> heap (SessionClose p c) !! q = Some true.
Proof.
  intros Hq. rewrite SessionClose_heap.
  destruct (heap c !! p) as [s|] eqn:Hs; [|exact Hq].
  destruct (closed s) eqn:Hc; [exact Hq|].
  destruct (decide (p = q)) as [->|Hne].
  - rewrite Hs in Hq. simpl in Hq. congruence.
  - now rewrite list_lookup_insert_ne.
Qed.

Lemma closeAll_length (l : list ptr) (c : Client) :
  length (heap (closeAll l c)) = length (heap c).
Proof.
  revert c. induction l as [|p l IH]; intros c; [reflexivity|].
  unfold closeAll in *. simpl. rewrite IH. apply SessionClose_length.
Qed.

Lemma closeAll_closed_mono (l : list ptr) (q : ptr) (c : Client) :
  closed <$> heap c !! q = Some true ->
  closed <$> heap (closeAll l c) !! q = Some true.
Proof.
  revert c. induction l as [|p l IH]; intros c Hq; [exact Hq|].
  unfold closeAll in *. simpl. apply IH. now apply SessionClose_closed_mono.
Qed.

(** Every session of a close list is closed once the list is processed. *)
Lemma closeAll_closed (l : list ptr) (q : ptr) (c : Client) :
  q ∈ l -> is_Some (heap c !! q) ->
  closed <$> heap (closeAll l c) !! q = Some true.
Proof.
  revert c. induction l as [|p l IH]; intros c Hin Hv.
  - now apply not_elem_of_nil in Hin.
  - apply elem_of_cons in Hin as [->|Hin].
    + change (closeAll (p :: l) c) with (closeAll l (SessionClose p c)).
      apply closeAll_closed_mono. now apply SessionClose_closed.
    + change (closeAll (p :: l) c) with (closeAll l (SessionClose p c)).
      apply IH; [assumption|].
      apply lookup_lt_is_Some. rewrite SessionClose_length.
      now apply lookup_lt_is_Some.
Qed.

(** [cleanup] closes every session its scan marks. *)
Lemma cleanup_closes_marked (now : Z) (c : Client) (q : ptr) :
  q ∈ idleSessionsToClose (cleanupScan c now)
  \/ q ∈ ageSessionsToClose (cleanupScan c now) ->
  is_Some (heap c !! q) ->
  closed <$> heap (fst (cleanup now c)) !! q = Some true.
Proof.
  intros Hin Hv. unfold cleanup. cbn [fst].
  set (st := cleanupScan c now) in *.
  assert (Hv1 : is_Some (scHeap st !! q)).
  { eapply is_Some_static; [|exact Hv].
    subst st. unfold cleanupScan. apply scanFrom_heap_static. }
  destruct Hin as [Hin|Hin].
  - apply closeAll_closed_mono. apply closeAll_closed; assumption.
  - apply closeAll_closed; [assumption|].
    apply lookup_lt_is_Some. rewrite closeAll_length.
    now apply lookup_lt_is_Some.
Qed.

(** ** The ordered pool *)

Section PoolFacts.

Implicit Types (l : SkipList.t) (e : Z * ptr) (k : Z) (v : ptr).

Lemma Insert_elem l k v e :
  e ∈ SkipList.Insert k v l -> e = (k, v) \/ e ∈ l.
Proof.
  induction l as [|[k' v'] l IH]; simpl.
  - intros H. apply list_elem_of_singleton in H. now left.
  - destruct (k <? k'); [|destruct (k =? k')]; intros H.
    + apply elem_of_cons in H as [H|H]; [now left|now right].
    + apply elem_of_cons in H as [H|H]; [now left|].
      right. apply elem_of_cons. now right.
    + apply elem_of_cons in H as [H|H].
      * right. subst. left.
      * destruct (IH H) as [?|?]; [now left|].
        right. apply elem_of_cons. now right.
Qed.

Lemma Insert_here l k v : (k, v) ∈ SkipList.Insert k v l.
Proof.
  induction l as [|[k' v'] l IH]; simpl.
  - left.
  - destruct (k <? k'); [left|destruct (k =? k'); [left|now right]].
Qed.

Lemma Insert_keep l k v e :
  e ∈ l -> e.1 <> k -> e ∈ SkipList.Insert k v l.
Proof.
  induction l as [|[k' v'] l IH]; simpl; intros He Hne.
  - now apply not_elem_of_nil in He.
  - destruct (k <? k'); [now right|].
    destruct (Z.eqb_spec k k') as [->|Hkk].
    + apply elem_of_cons in He as [->|He]; [now simpl in Hne|now right].
    + apply elem_of_cons in He as [->|He]; [left|right; auto].
Qed.

Lemma Insert_sorted l k v :
  sortedPool l -> sortedPool (SkipList.Insert k v l).
Proof.
  unfold sortedPool. induction l as [|[k' v'] l IH]; simpl; intros Hs.
  - repeat constructor.
  - apply StronglySorted_cons in Hs as [Hall Hs].
    destruct (Z.ltb_spec k k') as [Hlt|Hge].
    + apply StronglySorted_cons. split.
      * constructor; [exact Hlt|].
        eapply Forall_impl; [exact Hall|].
        intros [k2 v2]. unfold keyLt. simpl. lia.
      * apply StronglySorted_cons. now split.
    + destruct (Z.eqb_spec k k') as [->|Hne].
      * apply StronglySorted_cons. now split.
      * apply StronglySorted_cons. split; [|now apply IH].
        apply Forall_forall. intros e He.
        apply Insert_elem in He as [->|He].
        -- unfold keyLt. simpl. lia.
        -- rewrite Forall_forall in Hall. now apply Hall.
Qed.

Lemma Remove_elem l k e : e ∈ SkipList.Remove k l -> e ∈ l.
Proof.
  induction l as [|[k' v'] l IH]; simpl; [auto|].
  destruct (k =? k'); intros H.
  - now right.
  - apply elem_of_cons in H as [->|H]; [left|right; auto].
Qed.

Lemma Remove_keep l k e :
  e ∈ l -> e.1 <> k -> e ∈ SkipList.Remove k l.
Proof.
  induction l as [|[k' v'] l IH]; simpl; intros He Hne.
  - now apply not_elem_of_nil in He.
  - destruct (Z.eqb_spec k k') as [->|Hkk].
    + apply elem_of_cons in He as [->|He]; [now simpl in Hne|assumption].
    + apply elem_of_cons in He as [->|He]; [left|right; auto].
Qed.

Lemma Remove_sorted l k : sortedPool l -> sortedPool (SkipList.Remove k l).
Proof.
  unfold sortedPool. induction l as [|[k' v'] l IH]; simpl; intros Hs.
  - constructor.
  - apply StronglySorted_cons in Hs as [Hall Hs].
    destruct (k =? k'); [assumption|].
    apply StronglySorted_cons. split; [|now apply IH].
    apply Forall_forall. intros e He. apply Remove_elem in He.
    rewrite Forall_forall in Hall. now apply Hall.
Qed.

(** In a sorted pool a removed key is gone. *)
Lemma Remove_gone l k e :
  sortedPool l -> e ∈ SkipList.Remove k l -> e.1 <> k.
Proof.
  unfold sortedPool. induction l as [|[k' v'] l IH]; simpl; intros Hs He.
  - now apply not_elem_of_nil in He.
  - apply StronglySorted_cons in Hs as [Hall Hs].
    rewrite Forall_forall in Hall.
    destruct (Z.eqb_spec k k') as [->|Hkk].
    + specialize (Hall e He). unfold keyLt in Hall. simpl in Hall. lia.
    + apply elem_of_cons in He as [->|He]; [simpl; congruence|auto].
Qed.

(** In a sorted pool a key names one entry. *)
Lemma sorted_key_unique l e1 e2 :
  sortedPool l -> e1 ∈ l -> e2 ∈ l -> e1.1 = e2.1 -> e1 = e2.
Proof.
  unfold sortedPool. induction l as [|e l IH]; intros Hs H1 H2 Hk.
  - now apply not_elem_of_nil in H1.
  - apply StronglySorted_cons in Hs as [Hall Hs].
    rewrite Forall_forall in Hall.
    apply elem_of_cons in H1 as [->|H1]; apply elem_of_cons in H2 as [->|H2].
    + reflexivity.
    + specialize (Hall _ H2). unfold keyLt in Hall. lia.
    + specialize (Hall _ H1). unfold keyLt in Hall. lia.
    + now apply IH.
Qed.

(** The first entry of a sorted pool has the least key. *)
Lemma sorted_head_least l e e' :
  sortedPool (e :: l) -> e' ∈ e :: l -> e.1 <= e'.1.
Proof.
  unfold sortedPool. intros Hs He.
  apply StronglySorted_cons in Hs as [Hall _].
  rewrite Forall_forall in Hall.
  apply elem_of_cons in He as [->|He]; [lia|].
  specialize (Hall _ He). unfold keyLt in Hall. lia.
Qed.

End PoolFacts.

(** ** Preservation of the invariants *)

Lemma NewClient_Inv (config : ClientConfig) : Inv (fst (NewClient config)).
Proof.
  split; [split|]; simpl.
  - constructor.
  - intros k p H. now apply not_elem_of_nil in H.
  - unfold MaxUint64. lia.
  - intros p s H. discriminate.
  - intros p q s s' H. discriminate.
  - intros n p H. now rewrite lookup_empty in H.
  - intros p s H. discriminate.
Qed.

Lemma Inv_containment (c : Client) : Inv c -> containment c.
Proof.
  intros [Hb Hl] k p Hin.
  destruct (inv_idle c Hb k p Hin) as (s & Hs & _ & Hc).
  exists s. split; [assumption|]. now apply Hl.
Qed.

(** *** Rewriting fields that the invariants do not read *)

Lemma static_lookup (h h' : list Session) (q : ptr) (s' : Session) :
  (forall q, static <$> h' !! q = static <$> h !! q) ->
  h' !! q = Some s' ->
  exists s, h !! q = Some s /\ seq s = seq s' /\ closed s = closed s'
            /\ poolKey s = poolKey s'.
Proof.
  intros Hst Hq. specialize (Hst q). rewrite Hq in Hst.
  destruct (h !! q) as [s|]; [|discriminate].
  simpl in Hst. injection Hst as E1 E2 E3.
  exists s. unfold poolKey. rewrite E1. auto.
Qed.

Lemma static_sym (h h' : list Session) :
  (forall q, static <$> h' !! q = static <$> h !! q) ->
  (forall q, static <$> h !! q = static <$> h' !! q).
Proof. intros H q. symmetry. apply H. Qed.

Lemma InvBase_setHeap (c : Client) (h : list Session) :
  (forall q, static <$> h !! q = static <$> heap c !! q) ->
  InvBase c -> InvBase (setHeap h c).
Proof.
  intros Hst [H1 H2 H3 H4 H5 H6]. pose proof (static_sym _ _ Hst) as Hst'.
  split; simpl.
  - exact H1.
  - intros k p Hin. destruct (H2 k p Hin) as (s & Hs & Hk & Hc).
    destruct (static_lookup _ _ p s Hst' Hs) as (s' & Hs' & E1 & E2 & E3).
    exists s'. repeat split; congruence.
  - exact H3.
  - intros p s Hs.
    destruct (static_lookup _ _ p s Hst Hs) as (s0 & Hs0 & E1 & _).
    rewrite <- E1. eauto.
  - intros p q s s' Hp Hq E.
    destruct (static_lookup _ _ p s Hst Hp) as (s0 & Hs0 & E1 & _).
    destruct (static_lookup _ _ q s' Hst Hq) as (s1 & Hs1 & E1' & _).
    apply (H5 p q s0 s1); congruence.
  - intros n p Hn. destruct (H6 n p Hn) as (s & Hs & E & Hc).
    destruct (static_lookup _ _ p s Hst' Hs) as (s' & Hs' & E1 & E2 & _).
    exists s'. repeat split; congruence.
Qed.

Lemma liveRegistered_setHeap (c : Client) (h : list Session) :
  (forall q, static <$> h !! q = static <$> heap c !! q) ->
  liveRegistered c -> liveRegistered (setHeap h c).
Proof.
  intros Hst Hl p s Hs Hc. simpl in *.
  destruct (static_lookup _ _ p s Hst Hs) as (s0 & Hs0 & E1 & E2 & _).
  rewrite <- E1. apply Hl; congruence.
Qed.

Lemma static_insert (h : list Session) (p : ptr) (s s' : Session) :
  h !! p = Some s -> static s' = static s ->
  forall q, static <$> <[p := s']> h !! q = static <$> h !! q.
Proof.
  intros Hs E q. destruct (decide (p = q)) as [->|Hne].
  - rewrite list_lookup_insert_eq by (eapply lookup_lt_Some; eauto).
    rewrite Hs. simpl. now rewrite E.
  - now rewrite list_lookup_insert_ne.
Qed.

(** *** The pool operations *)

Lemma InvBase_Remove (c : Client) (k : Z) :
  InvBase c -> InvBase (setIdleSession (SkipList.Remove k (idleSession c)) c).
Proof.
  intros [H1 H2 H3 H4 H5 H6]. split; simpl; auto.
  - now apply Remove_sorted.
  - intros k' p Hin. apply H2. eapply Remove_elem; eauto.
Qed.

Lemma InvBase_Insert (c : Client) (p : ptr) (s : Session) :
  heap c !! p = Some s -> closed s = false ->
  InvBase c ->
  InvBase (setIdleSession (SkipList.Insert (poolKey s) p (idleSession c)) c).
Proof.
  intros Hs Hc [H1 H2 H3 H4 H5 H6]. split; simpl; auto.
  - now apply Insert_sorted.
  - intros k' q Hin. apply Insert_elem in Hin as [Hin|Hin].
    + injection Hin as -> ->. eauto.
    + now apply H2.
Qed.

(** "Put this session to pool": the write of [idleSince] followed by the
    insertion, for a live session. *)
Lemma Inv_pool_insert (c : Client) (now : Z) (p : ptr) (s : Session) :
  heap c !! p = Some s -> closed s = false ->
  Inv c ->
  Inv (setIdleSession
         (SkipList.Insert (poolKey (setIdleSince now s)) p (idleSession c))
         (setHeap (<[p := setIdleSince now s]> (heap c)) c)).
Proof.
  intros Hs Hc [Hb Hl].
  pose proof (static_insert (heap c) p s (setIdleSince now s) Hs eq_refl)
    as Hst.
  split.
  - apply (InvBase_Insert (setHeap _ c) p (setIdleSince now s)).
    + simpl. apply list_lookup_insert_eq. eapply lookup_lt_Some; eauto.
    + exact Hc.
    + now apply InvBase_setHeap.
  - intros q s' Hq Hc'. simpl in *.
    now apply (liveRegistered_setHeap c _ Hst Hl q s').
Qed.

(** *** Closing a session *)

Lemma InvBase_SessionClose (p : ptr) (c : Client) :
  InvBase c -> InvBase (SessionClose p c).
Proof.
  intros Hb. unfold SessionClose.
  destruct (heap c !! p) as [s|] eqn:Hs; [|exact Hb].
  destruct (closed s) eqn:Hc; [exact Hb|].
  destruct Hb as [H1 H2 H3 H4 H5 H6].
  assert (Hlt : (p < length (heap c))%nat) by (eapply lookup_lt_Some; eauto).
  assert (Hkey : forall k q, (k, q) ∈ idleSession c -> k <> poolKey s ->
                             q <> p).
  { intros k q Hin Hne ->. destruct (H2 k p Hin) as (s0 & Hs0 & Hk & _).
    congruence. }
  split; simpl.
  - now apply Remove_sorted.
  - intros k q Hin.
    pose proof (Remove_gone _ _ _ H1 Hin) as Hne. simpl in Hne.
    apply Remove_elem in Hin.
    rewrite list_lookup_insert_ne by (intros ->; eapply Hkey; eauto).
    now apply H2.
  - exact H3.
  - intros q s' Hq. destruct (decide (p = q)) as [->|Hne].
    + rewrite list_lookup_insert_eq in Hq by assumption.
      injection Hq as <-. simpl. eauto.
    + rewrite list_lookup_insert_ne in Hq by assumption. eauto.
  - intros q1 q2 s1 s2 Hq1 Hq2 E.
    assert (Hold : forall q s', <[p := setClosed s]> (heap c) !! q = Some s' ->
                                exists s0, heap c !! q = Some s0
                                           /\ seq s0 = seq s').
    { intros q s' Hq. destruct (decide (p = q)) as [->|Hne].
      - rewrite list_lookup_insert_eq in Hq by assumption.
        injection Hq as <-. eauto.
      - rewrite list_lookup_insert_ne in Hq by assumption. eauto. }
    destruct (Hold _ _ Hq1) as (t1 & Ht1 & E1).
    destruct (Hold _ _ Hq2) as (t2 & Ht2 & E2).
    apply (H5 q1 q2 t1 t2); congruence.
  - intros n q Hn.
    destruct (decide (seq s = n)) as [<-|Hne].
    + now rewrite lookup_delete_eq in Hn.
    + rewrite lookup_delete_ne in Hn by assumption.
      destruct (H6 n q Hn) as (s0 & Hs0 & E & Hc0).
      rewrite list_lookup_insert_ne by congruence. eauto.
Qed.

Lemma liveRegistered_SessionClose (p : ptr) (c : Client) :
  InvBase c -> liveRegistered c -> liveRegistered (SessionClose p c).
Proof.
  intros Hb Hl. unfold SessionClose.
  destruct (heap c !! p) as [s|] eqn:Hs; [|exact Hl].
  destruct (closed s) eqn:Hc; [exact Hl|].
  assert (Hlt : (p < length (heap c))%nat) by (eapply lookup_lt_Some; eauto).
  intros q s' Hq Hc'. simpl in *.
  destruct (decide (p = q)) as [->|Hne].
  - rewrite list_lookup_insert_eq in Hq by assumption.
    injection Hq as <-. discriminate.
  - rewrite list_lookup_insert_ne in Hq by assumption.
    rewrite lookup_delete_ne.
    + now apply Hl.
    + intros E. apply Hne. eapply (inv_inj c Hb); eauto.
Qed.

Lemma Inv_SessionClose (p : ptr) (c : Client) :
  Inv c -> Inv (SessionClose p c).
Proof.
  intros [Hb Hl]. split.
  - now apply InvBase_SessionClose.
  - now apply liveRegistered_SessionClose.
Qed.

Lemma InvBase_closeAll (l : list ptr) (c : Client) :
  InvBase c -> InvBase (closeAll l c).
Proof.
  revert c. induction l as [|p l IH]; intros c Hb; [exact Hb|].
  change (closeAll (p :: l) c) with (closeAll l (SessionClose p c)).
  now apply IH, InvBase_SessionClose.
Qed.

Lemma Inv_closeAll (l : list ptr) (c : Client) :
  Inv c -> Inv (closeAll l c).
Proof.
  revert c. induction l as [|p l IH]; intros c Hb; [exact Hb|].
  change (closeAll (p :: l) c) with (closeAll l (SessionClose p c)).
  now apply IH, Inv_SessionClose.
Qed.

(** *** Creating a session *)

Lemma Inv_createSession (now : Z) (dialOk : bool) (c : Client) :
  (dialOk = true -> sessionCounter c < MaxUint64) ->
  Inv c -> Inv (snd (createSession now dialOk c)).
Proof.
  intros Hok [[H1 H2 H3 H4 H5 H6] Hl]. unfold createSession.
  destruct dialOk; [|split; [split|]; assumption].
  specialize (Hok eq_refl). simpl.
  rewrite (u64_id (sessionCounter c + 1)) by lia.
  set (n := sessionCounter c + 1).
  set (new := mkSession n now 0 false).
  assert (Hlook : forall q s', (heap c ++ [new]) !! q = Some s' ->
                   heap c !! q = Some s'
                   \/ (q = length (heap c) /\ s' = new)).
  { intros q s' Hq. apply lookup_app_Some in Hq as [Hq|[Hge Hq]]; [now left|].
    right. destruct (q - length (heap c))%nat eqn:E; simpl in Hq.
    - injection Hq as <-. split; [lia|reflexivity].
    - discriminate. }
  assert (Hfresh : forall q s', heap c !! q = Some s' -> seq s' <> n).
  { intros q s' Hq. specialize (H4 q s' Hq). subst n. lia. }
  split; [split|]; simpl.
  - exact H1.
  - intros k p Hin. destruct (H2 k p Hin) as (s & Hs & Hk & Hc).
    exists s. split; [now apply lookup_app_l_Some|auto].
  - subst n. lia.
  - intros q s' Hq. destruct (Hlook q s' Hq) as [Hq'|[-> ->]].
    + specialize (H4 q s' Hq'). subst n. lia.
    + simpl. subst n. lia.
  - intros q1 q2 s1 s2 Hq1 Hq2 E.
    destruct (Hlook q1 s1 Hq1) as [Hq1'|[-> ->]],
             (Hlook q2 s2 Hq2) as [Hq2'|[-> ->]].
    + eapply H5; eauto.
    + exfalso. eapply Hfresh; eauto.
    + exfalso. eapply Hfresh; eauto.
    + reflexivity.
  - intros m q Hm. destruct (decide (n = m)) as [<-|Hne].
    + rewrite lookup_insert_eq in Hm. injection Hm as <-.
      exists new. split; [|auto].
      rewrite lookup_app_r by lia. now rewrite Nat.sub_diag.
    + rewrite lookup_insert_ne in Hm by assumption.
      destruct (H6 m q Hm) as (s & Hs & E & Hc).
      exists s. split; [now apply lookup_app_l_Some|auto].
  - intros q s' Hq Hc. simpl in *.
    destruct (Hlook q s' Hq) as [Hq'|[-> ->]].
    + rewrite lookup_insert_ne by (apply not_eq_sym; eapply Hfresh; eauto).
      now apply Hl.
    + simpl. apply lookup_insert_eq.
Qed.

(** *** Taking a session from the pool *)

Lemma getIdleSession_idle (c : Client) :
  snd (getIdleSession c) = setIdleSession (tail (idleSession c)) c.
Proof.
  unfold getIdleSession. destruct c as [d n l m h a1 a2 a3 a4 a5 a6 a7].
  simpl. destruct l as [|[k p] l]; simpl; [reflexivity|].
  now rewrite Z.eqb_refl.
Qed.

Lemma getIdleSession_head (c : Client) :
  fst (getIdleSession c) = snd <$> head (idleSession c).
Proof.
  unfold getIdleSession. destruct (idleSession c) as [|[k p] l]; reflexivity.
Qed.

Lemma Inv_getIdleSession (c : Client) : Inv c -> Inv (snd (getIdleSession c)).
Proof.
  intros [Hb Hl]. rewrite getIdleSession_idle.
  split; [|exact Hl].
  destruct (idleSession c) as [|[k p] l] eqn:E.
  - pose proof (InvBase_Remove c 0 Hb) as H. now rewrite E in H.
  - pose proof (InvBase_Remove c k Hb) as H. rewrite E in H.
    simpl in H. now rewrite Z.eqb_refl in H.
Qed.

(** *** The maintenance cycle *)

Lemma step_pool (c : Client) (now : Z) (st : scan) (e : Z * ptr) :
  scPool (cleanupStep c now st e) = scPool st
  \/ scPool (cleanupStep c now st e) = SkipList.Remove e.1 (scPool st).
Proof.
  destruct e as [k p]. unfold cleanupStep.
  destruct (scHeap st !! p) as [s|]; [|now left].
  unfold checkIdle, checkAge.
  repeat match goal with
         | |- context [Z.ltb ?a ?b] => destruct (Z.ltb a b)
         | |- context [Z.leb ?a ?b] => destruct (Z.leb a b)
         end; simpl; auto.
Qed.

Lemma scanFrom_pool (c : Client) (now : Z) (st : scan) (es : list (Z * ptr)) :
  sortedPool (scPool st) ->
  sortedPool (scPool (scanFrom c now st es))
  /\ (forall e, e ∈ scPool (scanFrom c now st es) -> e ∈ scPool st).
Proof.
  revert st. induction es as [|e es IH]; intros st Hs; [auto|].
  rewrite scanFrom_cons.
  destruct (step_pool c now st e) as [E|E].
  - destruct (IH (cleanupStep c now st e)) as [IH1 IH2]; [now rewrite E|].
    split; [assumption|]. intros e' He'. rewrite <- E. auto.
  - destruct (IH (cleanupStep c now st e)) as [IH1 IH2].
    { rewrite E. now apply Remove_sorted. }
    split; [assumption|]. intros e' He'. apply IH2 in He'.
    rewrite E in He'. eapply Remove_elem; eauto.
Qed.

Lemma Inv_after_scan (now : Z) (c : Client) :
  Inv c ->
  Inv (setIdleSession (scPool (cleanupScan c now))
         (setHeap (scHeap (cleanupScan c now)) c)).
Proof.
  intros [Hb Hl].
  assert (Hst : forall q, static <$> scHeap (cleanupScan c now) !! q
                          = static <$> heap c !! q).
  { intros q. unfold cleanupScan. apply scanFrom_heap_static. }
  destruct (scanFrom_pool c now (scanInit c) (idleSession c)
              (inv_sorted c Hb)) as [Hs Hsub].
  pose proof (InvBase_setHeap c _ Hst Hb) as [H1 H2 H3 H4 H5 H6].
  split; [split|]; simpl in *; auto.
  intros q s Hq Hc. now apply (liveRegistered_setHeap c _ Hst Hl q s).
Qed.

Lemma Inv_cleanup (now : Z) (c : Client) : Inv c -> Inv (fst (cleanup now c)).
Proof.
  intros Hi. unfold cleanup. cbn [fst].
  now apply Inv_closeAll, Inv_closeAll, Inv_after_scan.
Qed.

(** *** Shutdown *)

Lemma SessionClose_open_unchanged (p q : ptr) (c : Client) (s' : Session) :
  heap (SessionClose p c) !! q = Some s' -> closed s' = false ->
  heap c !! q = Some s'.
Proof.
  rewrite SessionClose_heap. intros Hq Hc.
  destruct (heap c !! p) as [s|] eqn:Hs; [|exact Hq].
  destruct (closed s) eqn:Hcs; [exact Hq|].
  destruct (decide (p = q)) as [->|Hne].
  - rewrite list_lookup_insert_eq in Hq by (eapply lookup_lt_Some; eauto).
    injection Hq as <-. discriminate.
  - now rewrite list_lookup_insert_ne in Hq.
Qed.

Lemma closeAll_open_unchanged (l : list ptr) (q : ptr) (c : Client)
    (s' : Session) :
  heap (closeAll l c) !! q = Some s' -> closed s' = false ->
  heap c !! q = Some s'.
Proof.
  revert c. induction l as [|p l IH]; intros c Hq Hc; [exact Hq|].
  change (closeAll (p :: l) c) with (closeAll l (SessionClose p c)) in Hq.
  eapply SessionClose_open_unchanged; eauto.
Qed.

Lemma InvBase_closeReset (c : Client) :
  InvBase c -> InvBase (snd (closeReset c)).
Proof.
  intros [H1 H2 H3 H4 H5 H6]. split; simpl; auto.
  intros n p H. now rewrite lookup_empty in H.
Qed.

(** After [Close] no session is live, and the pool and the registry are
    empty. *)
Lemma Close_all_closed (c : Client) (q : ptr) (s' : Session) :
  Inv c -> heap (Close c) !! q = Some s' -> closed s' = true.
Proof.
  intros [Hb Hl] Hq. destruct (closed s') eqn:Hc; [reflexivity|exfalso].
  change (Close c)
    with (closeAll (fst (closeReset c)) (snd (closeReset c))) in Hq.
  pose proof (closeAll_open_unchanged _ _ _ _ Hq Hc) as Hq0.
  change (heap (snd (closeReset c))) with (heap c) in Hq0.
  pose proof (Hl q s' Hq0 Hc) as Hreg.
  assert (Hin : q ∈ fst (closeReset c)).
  { unfold closeReset. cbn [fst]. apply list_elem_of_fmap.
    exists (seq s', q). split; [reflexivity|].
    now apply elem_of_map_to_list. }
  assert (Hv : is_Some (heap (snd (closeReset c)) !! q))
    by (change (heap (snd (closeReset c))) with (heap c); eauto).
  pose proof (closeAll_closed _ q _ Hin Hv) as Hcl.
  rewrite Hq in Hcl. simpl in Hcl. congruence.
Qed.

Lemma Inv_Close (c : Client) : Inv c -> Inv (Close c).
Proof.
  intros Hi. split.
  - unfold Close.
    change (InvBase (closeAll (fst (closeReset c)) (snd (closeReset c)))).
    apply InvBase_closeAll, InvBase_closeReset, Hi.
  - intros q s' Hq Hc.
    rewrite (Close_all_closed c q s' Hi Hq) in Hc. discriminate.
Qed.


(** *** Returning a session, and the proactive insertion *)

Lemma Inv_streamDieHook (now : Z) (p : ptr) (c : Client) :
  Inv c -> Inv (streamDieHook now p c).
Proof.
  intros Hi. unfold streamDieHook.
  destruct (heap c !! p) as [s|] eqn:Hs; [|exact Hi].
  destruct (closed s) eqn:Hc; simpl; [exact Hi|].
  destruct (die c).
  - now apply Inv_SessionClose.
  - now apply Inv_pool_insert.
Qed.

Lemma Inv_proactiveInsert (now : Z) (p : ptr) (c : Client) :
  (forall s, heap c !! p = Some s -> closed s = false) ->
  Inv c -> Inv (proactiveInsert now p c).
Proof.
  intros Hlive Hi. unfold proactiveInsert.
  destruct (heap c !! p) as [s|] eqn:Hs; [|exact Hi].
  apply Inv_pool_insert; auto.
Qed.

(** *** Acquiring a stream *)

Lemma Inv_CreateStream (now : Z) (dialOk openOk : bool) (c : Client) :
  (dialOk = true -> sessionCounter c < MaxUint64) ->
  Inv c -> Inv (snd (CreateStream now dialOk openOk c)).
Proof.
  intros Hok Hi. unfold CreateStream.
  destruct (die c); [exact Hi|].
  pose proof (Inv_getIdleSession c Hi) as Hi1.
  destruct (getIdleSession c) as [idle c1] eqn:Eg. simpl in Hi1.
  assert (Hcnt : sessionCounter c1 = sessionCounter c).
  { change c1 with (snd (idle, c1)). rewrite <- Eg.
    now rewrite getIdleSession_idle. }
  assert (Hi2 : Inv (snd match idle with
                         | Some p => (Some p, c1)
                         | None => createSession now dialOk c1
                         end)).
  { destruct idle; [exact Hi1|].
    apply Inv_createSession; [|exact Hi1]. now rewrite Hcnt. }
  destruct (match idle with
            | Some p => (Some p, c1)
            | None => createSession now dialOk c1
            end) as [session c2]. simpl in Hi2.
  destruct session as [p|]; [|exact Hi2].
  destruct (heap c2 !! p) as [s|]; [|exact Hi2].
  destruct (openOk && negb (closed s)); simpl; [exact Hi2|].
  now apply Inv_SessionClose.
Qed.

(** *** Every operation *)

Lemma exec_preserves_Inv (o : op) (c : Client) :
  Inv c -> opOk o c -> Inv (exec o c).
Proof.
  intros Hi Hok. destruct o; simpl in *.
  - now apply Inv_CreateStream.
  - now apply Inv_streamDieHook.
  - now apply Inv_SessionClose.
  - now apply Inv_cleanup.
  - now apply Inv_createSession.
  - now apply Inv_proactiveInsert.
  - now apply Inv_Close.
Qed.

Lemma reachable_Inv (c c' : Client) : Inv c -> reachable c c' -> Inv c'.
Proof.
  intros Hi Hr. induction Hr as [|c' o Hr IH Hok]; [exact Hi|].
  now apply exec_preserves_Inv.
Qed.

Lemma runOk_reachable (os : list op) (c : Client) :
  runOk os c -> reachable c (run os c).
Proof.
  enough (forall c0, reachable c0 c -> runOk os c -> reachable c0 (run os c))
    by (apply H; constructor).
  revert c. induction os as [|o os IH]; intros c c0 Hr Hok; [exact Hr|].
  destruct Hok as [Ho Hok]. simpl.
  change (reachable c0 (run os (exec o c))).
  apply IH; [|exact Hok]. now constructor.
Qed.

(** ** Containment *)

(** C7, as stated, fails inside [Close]: once the registry has been
    replaced by an empty map, and before the sessions of the snapshot are
    closed, the pooled session is in the idle pool and not in the
    registry. *)
Lemma containment_broken_inside_Close :
  let c := run onePooled plainClient in
  containment c
  /\ idleSession (snd (closeReset c)) = [(MaxUint64 - 1, 0%nat)]
  /\ sessions (snd (closeReset c)) = ∅
  /\ ~ containment (snd (closeReset c)).
Proof.
  cbv zeta. split; [|split; [|split]].
  - apply Inv_containment.
    apply (reachable_Inv plainClient); [apply NewClient_Inv|].
    apply runOk_reachable. simpl. split; [|split; [|exact I]].
    + intros _. vm_compute. reflexivity.
    + intros s Hs. vm_compute in Hs. injection Hs as Hs. subst s. reflexivity.
  - vm_compute. reflexivity.
  - reflexivity.
  - intros H. destruct (H (MaxUint64 - 1) 0%nat) as (s & _ & Hs).
    + vm_compute. left.
    + simpl in Hs. now rewrite lookup_empty in Hs.
Qed.

(** Containment also fails, and stays broken, when a session dies between
    its creation by a proactive creator and its insertion: the creator
    pools the session after the death hook has unregistered it. *)
Lemma containment_broken_by_late_insert :
  let c := run lateInsert plainClient in
  idleSession c = [(MaxUint64 - 1, 0%nat)]
  /\ closed <$> heap c !! 0%nat = Some true
  /\ ~ containment c.
Proof.
  cbv zeta. split; [|split].
  - vm_compute. reflexivity.
  - vm_compute. reflexivity.
  - intros H. destruct (H (MaxUint64 - 1) 0%nat) as (s & Hs & Hr).
    + vm_compute. left.
    + vm_compute in Hs. injection Hs as Hs. subst s.
      vm_compute in Hr. discriminate.
Qed.

(** C7, amended.  Between operations the idle pool is contained in the
    registry: containment holds in every state reached from a new client
    by operations run to completion (acquiring a stream, returning a
    session, the death of a session, a maintenance tick, the dial and the
    insertion of a proactive creator, [Close]), and each further operation
    keeps it, provided the counter has not reached its maximum when a dial
    succeeds and a proactive creator inserts a session that is still
    live. *)
Theorem containment_between_operations (config : ClientConfig)
    (c : Client) :
  reachable (fst (NewClient config)) c ->
  containment c
  /\ (forall o : op, opOk o c -> containment (exec o c)).
Proof.
  intros Hr.
  pose proof (reachable_Inv _ _ (NewClient_Inv config) Hr) as Hi.
  split; [now apply Inv_containment|].
  intros o Hok. now apply Inv_containment, exec_preserves_Inv.
Qed.

(** Two pooled sessions, then a complete [Close]. *)
Lemma containment_between_operations_witness :
  containment (run twoPooled plainClient)
  /\ containment (exec OpClose (run twoPooled plainClient)).
Proof.
  assert (Hr : reachable (fst (NewClient (mkClientConfig 0 0 0 0 0 0 0 0)))
                 (run twoPooled plainClient)).
  { apply runOk_reachable. simpl. split; [|split; [|split; [|split]]].
    - intros _. vm_compute. reflexivity.
    - intros s Hs. vm_compute in Hs. injection Hs as Hs. subst s. reflexivity.
    - intros _. vm_compute. reflexivity.
    - intros s Hs. vm_compute in Hs. injection Hs as Hs. subst s. reflexivity.
    - exact I. }
  destruct (containment_between_operations _ _ Hr) as [H1 H2].
  split; [exact H1|]. apply H2. exact I.
Defined.

(** ** The order of the pool, in every state *)

(** A change of state keeps [PoolInv] when the new pool is sorted, the old
    sessions keep their sequence numbers, new sessions have 64-bit sequence
    numbers, and each new entry of the pool is keyed by its session. *)
Lemma PoolInv_update (c c' : Client) :
  sortedPool (idleSession c') ->
  (forall q s, heap c !! q = Some s ->
               exists s', heap c' !! q = Some s' /\ seq s' = seq s) ->
  (forall q s', heap c' !! q = Some s' ->
                (exists s, heap c !! q = Some s /\ seq s = seq s')
                \/ 0 <= seq s' <= MaxUint64) ->
  (forall k p, (k, p) ∈ idleSession c' ->
               (k, p) ∈ idleSession c
               \/ exists s', heap c' !! p = Some s' /\ k = poolKey s') ->
  PoolInv c -> PoolInv c'.
Proof.
  intros Hs Hold Hnew Hent [H1 H2 H3]. split.
  - exact Hs.
  - intros k p Hin. destruct (Hent k p Hin) as [Hin'|Hin']; [|exact Hin'].
    destruct (H2 k p Hin') as (s & Hp & Hk).
    destruct (Hold p s Hp) as (s' & Hp' & E).
    exists s'. split; [assumption|]. unfold poolKey in *. congruence.
  - intros p s' Hp. destruct (Hnew p s' Hp) as [(s & Hs0 & E)|Hr];
      [|exact Hr].
    rewrite <- E. eauto.
Qed.

Lemma NewClient_PoolInv (config : ClientConfig) :
  PoolInv (fst (NewClient config)).
Proof.
  split; simpl.
  - constructor.
  - intros k p H. now apply not_elem_of_nil in H.
  - intros p s H. discriminate.
Qed.

Lemma insert_seq_old (h : list Session) (p : ptr) (s s' : Session) :
  h !! p = Some s -> seq s' = seq s ->
  forall q t, h !! q = Some t ->
              exists t', <[p := s']> h !! q = Some t' /\ seq t' = seq t.
Proof.
  intros Hp E q t Hq. destruct (decide (p = q)) as [->|Hne].
  - rewrite list_lookup_insert_eq by (eapply lookup_lt_Some; eauto).
    exists s'. split; congruence.
  - rewrite list_lookup_insert_ne by assumption. eauto.
Qed.

Lemma insert_seq_new (h : list Session) (p : ptr) (s s' : Session) :
  h !! p = Some s -> seq s' = seq s ->
  forall q t', <[p := s']> h !! q = Some t' ->
               exists t, h !! q = Some t /\ seq t = seq t'.
Proof.
  intros Hp E q t' Hq. destruct (decide (p = q)) as [->|Hne].
  - rewrite list_lookup_insert_eq in Hq by (eapply lookup_lt_Some; eauto).
    exists s. split; congruence.
  - rewrite list_lookup_insert_ne in Hq by assumption. eauto.
Qed.

Lemma PoolInv_SessionClose (p : ptr) (c : Client) :
  PoolInv c -> PoolInv (SessionClose p c).
Proof.
  intros Hi. unfold SessionClose.
  destruct (heap c !! p) as [s|] eqn:Hp; [|exact Hi].
  destruct (closed s); [exact Hi|].
  apply (PoolInv_update c); [| | | |exact Hi]; simpl.
  - apply Remove_sorted, Hi.
  - now apply (insert_seq_old (heap c) p s).
  - intros q s' Hq. left. now apply (insert_seq_new (heap c) p s (setClosed s)).
  - intros k q Hin. left. eapply Remove_elem; eauto.
Qed.

Lemma PoolInv_closeAll (l : list ptr) (c : Client) :
  PoolInv c -> PoolInv (closeAll l c).
Proof.
  revert c. induction l as [|p l IH]; intros c Hi; [exact Hi|].
  change (closeAll (p :: l) c) with (closeAll l (SessionClose p c)).
  now apply IH, PoolInv_SessionClose.
Qed.

Lemma PoolInv_createSession (now : Z) (dialOk : bool) (c : Client) :
  PoolInv c -> PoolInv (snd (createSession now dialOk c)).
Proof.
  intros Hi. unfold createSession. destruct dialOk; [|exact Hi]. simpl.
  apply (PoolInv_update c); [| | | |exact Hi]; simpl.
  - apply Hi.
  - intros q s Hq. exists s. split; [now apply lookup_app_l_Some|reflexivity].
  - intros q s' Hq. apply lookup_app_Some in Hq as [Hq|[Hge Hq]]; [eauto|].
    right. destruct (q - length (heap c))%nat; simpl in Hq; [|discriminate].
    injection Hq as <-. simpl. apply u64_range.
  - intros k p Hin. now left.
Qed.

Lemma PoolInv_pool_insert (c : Client) (now : Z) (p : ptr) (s : Session) :
  heap c !! p = Some s ->
  PoolInv c ->
  PoolInv (setIdleSession
             (SkipList.Insert (poolKey (setIdleSince now s)) p
                (idleSession c))
             (setHeap (<[p := setIdleSince now s]> (heap c)) c)).
Proof.
  intros Hp Hi.
  apply (PoolInv_update c); [| | | |exact Hi]; simpl.
  - apply Insert_sorted, Hi.
  - now apply (insert_seq_old (heap c) p s).
  - intros q s' Hq. left.
    now apply (insert_seq_new (heap c) p s (setIdleSince now s)).
  - intros k q Hin. apply Insert_elem in Hin as [Hin|Hin]; [|now left].
    injection Hin as -> ->. right. exists (setIdleSince now s).
    split; [|reflexivity].
    apply list_lookup_insert_eq. eapply lookup_lt_Some; eauto.
Qed.

Lemma PoolInv_getIdleSession (c : Client) :
  PoolInv c -> PoolInv (snd (getIdleSession c)).
Proof.
  intros Hi. rewrite getIdleSession_idle.
  apply (PoolInv_update c); [| | | |exact Hi]; simpl; eauto.
  - pose proof (pool_sorted c Hi) as Hs. unfold sortedPool in *.
    destruct (idleSession c); [constructor|].
    now apply StronglySorted_cons in Hs as [_ Hs].
  - intros k p Hin. left.
    destruct (idleSession c); [assumption|]. now right.
Qed.

Lemma PoolInv_cleanup (now : Z) (c : Client) :
  PoolInv c -> PoolInv (fst (cleanup now c)).
Proof.
  intros Hi. unfold cleanup. cbn [fst].
  apply PoolInv_closeAll, PoolInv_closeAll.
  assert (Hst : forall q, static <$> scHeap (cleanupScan c now) !! q
                          = static <$> heap c !! q).
  { intros q. unfold cleanupScan. apply scanFrom_heap_static. }
  destruct (scanFrom_pool c now (scanInit c) (idleSession c)
              (pool_sorted c Hi)) as [Hs Hsub].
  apply (PoolInv_update c); [| | | |exact Hi]; simpl.
  - exact Hs.
  - intros q s Hq.
    destruct (static_lookup _ _ q s (static_sym _ _ Hst) Hq)
      as (s' & Hq' & E & _).
    eauto.
  - intros q s' Hq. left.
    destruct (static_lookup _ _ q s' Hst Hq) as (s & Hq' & E & _). eauto.
  - intros k p Hin. left. now apply Hsub.
Qed.

Lemma PoolInv_Close (c : Client) : PoolInv c -> PoolInv (Close c).
Proof.
  intros Hi.
  change (Close c) with (closeAll (fst (closeReset c)) (snd (closeReset c))).
  apply PoolInv_closeAll. destruct Hi as [H1 H2 H3]. now split.
Qed.

Lemma PoolInv_exec (o : op) (c : Client) : PoolInv c -> PoolInv (exec o c).
Proof.
  intros Hi. destruct o; simpl.
  - unfold CreateStream. destruct (die c); [exact Hi|].
    pose proof (PoolInv_getIdleSession c Hi) as Hi1.
    destruct (getIdleSession c) as [idle c1]. simpl in Hi1.
    assert (Hi2 : PoolInv (snd match idle with
                               | Some p => (Some p, c1)
                               | None => createSession now dialOk c1
                               end)).
    { destruct idle; [exact Hi1|]. now apply PoolInv_createSession. }
    destruct (match idle with
              | Some p => (Some p, c1)
              | None => createSession now dialOk c1
              end) as [session c2]. simpl in Hi2.
    destruct session as [p|]; [|exact Hi2].
    destruct (heap c2 !! p) as [s|]; [|exact Hi2].
    destruct (openOk && negb (closed s)); simpl; [exact Hi2|].
    now apply PoolInv_SessionClose.
  - unfold streamDieHook. destruct (heap c !! p) as [s|] eqn:Hp; [|exact Hi].
    destruct (closed s); simpl; [exact Hi|].
    destruct (die c); [now apply PoolInv_SessionClose|].
    now apply PoolInv_pool_insert.
  - now apply PoolInv_SessionClose.
  - now apply PoolInv_cleanup.
  - now apply PoolInv_createSession.
  - unfold proactiveInsert. destruct (heap c !! p) as [s|] eqn:Hp; [|exact Hi].
    now apply PoolInv_pool_insert.
  - now apply PoolInv_Close.
Qed.

Lemma PoolInv_run (os : list op) (c : Client) :
  PoolInv c -> PoolInv (run os c).
Proof.
  revert c. induction os as [|o os IH]; intros c Hi; [exact Hi|].
  change (run (o :: os) c) with (run os (exec o c)).
  now apply IH, PoolInv_exec.
Qed.

Lemma poolKey_exact (s : Session) :
  0 <= seq s <= MaxUint64 -> poolKey s = MaxUint64 - seq s.
Proof. intros H. unfold poolKey. apply u64_id. lia. Qed.

(** In every state the sessions of the pool are distinct objects of the
    store. *)
Lemma keyed_NoDup (h : list Session) (l : SkipList.t) :
  sortedPool l ->
  (forall k p, (k, p) ∈ l -> exists s, h !! p = Some s /\ k = poolKey s) ->
  NoDup l.*2.
Proof.
  unfold sortedPool. induction l as [|[k p] l IH]; intros Hs Hk.
  - constructor.
  - apply StronglySorted_cons in Hs as [Hall Hs].
    rewrite Forall_forall in Hall. simpl. apply NoDup_cons. split.
    + intros Hin. apply list_elem_of_fmap in Hin as ([k' p'] & E & Hin).
      simpl in E. subst p'.
      destruct (Hk k p) as (s & Hp & E1); [left|].
      destruct (Hk k' p) as (s' & Hp' & E2); [now right|].
      specialize (Hall _ Hin). unfold keyLt in Hall. simpl in Hall.
      assert (s = s') by congruence. subst s'. lia.
    + apply IH; [exact Hs|]. intros k' p' Hin. apply Hk. now right.
Qed.

Lemma PoolInv_NoDup (c : Client) : PoolInv c -> NoDup (idleSession c).*2.
Proof.
  intros Hi. apply (keyed_NoDup (heap c)); [apply Hi|].
  intros k p Hin. now apply (pool_keyed c Hi).
Qed.

Lemma PoolInv_valid (c : Client) (q : ptr) :
  PoolInv c -> q ∈ (idleSession c).*2 -> is_Some (heap c !! q).
Proof.
  intros Hi Hin. apply list_elem_of_fmap in Hin as ([k p] & -> & Hin).
  destruct (pool_keyed c Hi k p Hin) as (s & Hp & _). simpl. eauto.
Qed.

(** *** The settings of a client never change *)

Lemma settings_SessionClose (p : ptr) (c : Client) :
  settings (SessionClose p c) = settings c.
Proof.
  unfold SessionClose. destruct (heap c !! p) as [s|]; [|reflexivity].
  destruct (closed s); reflexivity.
Qed.

Lemma settings_closeAll (l : list ptr) (c : Client) :
  settings (closeAll l c) = settings c.
Proof.
  revert c. induction l as [|p l IH]; intros c; [reflexivity|].
  change (closeAll (p :: l) c) with (closeAll l (SessionClose p c)).
  rewrite IH. apply settings_SessionClose.
Qed.

Lemma settings_exec (o : op) (c : Client) : settings (exec o c) = settings c.
Proof.
  destruct o; simpl.
  - unfold CreateStream. destruct (die c); [reflexivity|].
    pose proof (getIdleSession_idle c) as Hg.
    destruct (getIdleSession c) as [idle c1]. simpl in Hg. subst c1.
    destruct idle as [p|]; simpl.
    + destruct (heap c !! p) as [s|]; [|reflexivity].
      destruct (openOk && negb (closed s)); simpl; [reflexivity|].
      now rewrite settings_SessionClose.
    + unfold createSession. destruct dialOk; simpl; [|reflexivity].
      rewrite lookup_app_r by lia. rewrite Nat.sub_diag. simpl.
      destruct openOk; simpl; [reflexivity|].
      now rewrite settings_SessionClose.
  - unfold streamDieHook. destruct (heap c !! p) as [s|]; [|reflexivity].
    destruct (closed s); simpl; [reflexivity|].
    destruct (die c); [apply settings_SessionClose|reflexivity].
  - apply settings_SessionClose.
  - unfold cleanup. cbn [fst]. now rewrite !settings_closeAll.
  - unfold createSession. destruct dialOk; reflexivity.
  - unfold proactiveInsert. destruct (heap c !! p) as [s|]; reflexivity.
  - change (Close c)
      with (closeAll (fst (closeReset c)) (snd (closeReset c))).
    now rewrite settings_closeAll.
Qed.

Lemma settings_run (os : list op) (c : Client) :
  settings (run os c) = settings c.
Proof.
  revert c. induction os as [|o os IH]; intros c; [reflexivity|].
  change (run (o :: os) c) with (run os (exec o c)).
  rewrite IH. apply settings_exec.
Qed.

(** The timeout of a client in any state is the one [NewClient] gave it:
    above five seconds. *)
Lemma run_timeout (config : ClientConfig) (os : list op) :
  IdleSessionTimeout config <= MaxInt64 ->
  MinInt64 < idleSessionTimeout (run os (fst (NewClient config)))
  <= MaxInt64.
Proof.
  intros H. pose proof (NewClient_timeout config H) as Ht.
  assert (E : idleSessionTimeout (run os (fst (NewClient config)))
              = idleSessionTimeout (fst (NewClient config)))
    by exact (f_equal idleSessionTimeout
                (settings_run os (fst (NewClient config)))).
  rewrite E. unfold MinInt64, Second in *. lia.
Qed.

(** ** The idle floor, in every state *)

(** C2.  A tick scans the pool newest first (every entry visited before a
    session has a larger sequence number), and a session that has
    been idle for longer than the timeout is marked for the idle close
    exactly when the sessions retained so far (those visited and not marked
    for the idle close) are at least [minIdleSession]; below the floor its
    [idleSince] becomes the time of the tick and it counts as retained; a
    session within the timeout always counts as retained.  In scenario 2
    (five sessions idle for 60s, timeout 30s, floor 2) the tick closes the
    three oldest sessions and keeps the two newest, with [idleSince] set to
    the time of the tick. *)
Theorem idle_floor :
  (forall (config : ClientConfig) (os : list op) (now : Z)
          (pre post : list (Z * ptr)) (k : Z) (p : ptr) (s : Session),
      IdleSessionTimeout config <= MaxInt64 ->
      let c := run os (fst (NewClient config)) in
      idleSession c = pre ++ (k, p) :: post ->
      heap c !! p = Some s ->
      let before := scanFrom c now (scanInit c) pre in
      let after := cleanupStep c now before (k, p) in
      let final := cleanupScan c now in
      (forall (k' : Z) (p' : ptr) (s' : Session),
          (k', p') ∈ pre -> heap c !! p' = Some s' -> seq s < seq s')
      /\ idleActiveCount before
         = Z.of_nat (length pre)
           - Z.of_nat (length (idleSessionsToClose before))
      /\ (p ∈ idleSessionsToClose final
          <-> idleSince s < now - idleSessionTimeout c
              /\ minIdleSession c <= idleActiveCount before)
      /\ (idleSince s < now - idleSessionTimeout c ->
          idleActiveCount before < minIdleSession c ->
          scHeap final !! p = Some (setIdleSince now s)
          /\ idleActiveCount after = idleActiveCount before + 1)
      /\ (now - idleSessionTimeout c <= idleSince s ->
          scHeap final !! p = Some s
          /\ idleActiveCount after = idleActiveCount before + 1))
  /\ (let final := cleanupScan fiveIdleClient fiveIdleTick in
      let c' := fst (cleanup fiveIdleTick fiveIdleClient) in
      (idleSession fiveIdleClient).*2 = [4; 3; 2; 1; 0]%nat
      /\ seq <$> heap fiveIdleClient = [1; 2; 3; 4; 5]
      /\ idleSessionsToClose final = [2; 1; 0]%nat
      /\ ageSessionsToClose final = []
      /\ (idleSession c').*2 = [4; 3]%nat
      /\ idleSince <$> heap c' !! 4%nat = Some fiveIdleTick
      /\ idleSince <$> heap c' !! 3%nat = Some fiveIdleTick
      /\ closed <$> heap c' = [true; true; true; false; false]).
Proof.
  split.
  - intros config os now pre post k p s Hcfg. cbv zeta.
    set (c := run os (fst (NewClient config))). intros Hpool Hs.
    assert (Hi : PoolInv c) by apply PoolInv_run, NewClient_PoolInv.
    pose proof (PoolInv_NoDup c Hi) as Hnodup.
    pose proof (fun q => PoolInv_valid c q Hi) as Hvalid.
    pose proof (run_timeout config os Hcfg) as Hto. fold c in Hto.
    pose proof (idleExpTime_minus c now Hto) as Hexp.
    pose proof (before_heap c now pre post k p s Hpool Hnodup Hs) as Hb.
    split; [|split; [|split; [|split]]].
    + intros k' p' s' Hin Hp'.
      pose proof (pool_sorted c Hi) as Hsort. rewrite Hpool in Hsort.
      assert (Hlt : keyLt (k', p') (k, p)).
      { eapply (StronglySorted_app_1_elem_of keyLt); [exact Hsort|exact Hin|].
        left. }
      unfold keyLt in Hlt. simpl in Hlt.
      destruct (pool_keyed c Hi k' p') as (t' & Ht' & Hk').
      { rewrite Hpool. apply elem_of_app. now left. }
      destruct (pool_keyed c Hi k p) as (t & Ht & Hk).
      { rewrite Hpool. apply elem_of_app. right. left. }
      assert (t' = s') by congruence. assert (t = s) by congruence.
      subst t' t.
      rewrite (poolKey_exact s') in Hk' by (eapply pool_seq; eauto).
      rewrite (poolKey_exact s) in Hk by (eapply pool_seq; eauto).
      lia.
    + pose proof (scanFrom_idle_count c now (scanInit c) pre) as Hc.
      simpl in Hc.
      enough (forall q : ptr, q ∈ pre.*2 -> is_Some (heap c !! q))
        as Hv by (specialize (Hc Hv); lia).
      intros q Hq. apply Hvalid. rewrite Hpool, fmap_app.
      apply elem_of_app. now left.
    + rewrite (final_idle_list c now pre post k p Hpool Hnodup).
      rewrite <- Hexp. apply step_idle_iff. exact Hb.
    + intros H1 H2. rewrite <- Hexp in H1.
      destruct (step_idle_protect c now _ k p s Hb H1 H2) as (_ & E1 & E2).
      split; [|exact E2].
      rewrite (final_heap c now pre post k p Hpool Hnodup). exact E1.
    + intros H1. rewrite <- Hexp in H1.
      destruct (step_idle_fresh c now _ k p s Hb H1) as (_ & E1 & E2).
      split; [|exact E2].
      rewrite (final_heap c now pre post k p Hpool Hnodup). exact E1.
  - cbv zeta. repeat split; vm_compute; reflexivity.
Qed.

(** The newest of the five sessions of scenario 2: no session has been
    retained before it, so it gets a fresh lease. *)
Lemma idle_floor_witness :
  ~ (4%nat ∈ idleSessionsToClose (cleanupScan fiveIdleClient fiveIdleTick))
  /\ idleSince <$> scHeap (cleanupScan fiveIdleClient fiveIdleTick) !! 4%nat
     = Some fiveIdleTick.
Proof.
  unfold fiveIdleClient.
  set (c := run fiveIdleOps (fst (NewClient fiveIdleConfig))).
  pose (k := 18446744073709551610).
  pose (post := [(k + 1, 3%nat); (k + 2, 2%nat); (k + 3, 1%nat);
                 (k + 4, 0%nat)]).
  pose (s := mkSession 5 (940 * Second) (940 * Second) false).
  assert (Hcfg : IdleSessionTimeout fiveIdleConfig <= MaxInt64)
    by (vm_compute; congruence).
  assert (Hpool : idleSession c = [] ++ (k, 4%nat) :: post)
    by (vm_compute; reflexivity).
  assert (Hs : heap c !! 4%nat = Some s)
    by (vm_compute; reflexivity).
  destruct (proj1 idle_floor fiveIdleConfig fiveIdleOps fiveIdleTick
              [] post k 4%nat s Hcfg Hpool Hs)
    as (_ & _ & Hiff & Hlease & _).
  fold c in Hiff, Hlease.
  assert (H1 : idleSince s < fiveIdleTick - idleSessionTimeout c)
    by (vm_compute; reflexivity).
  assert (H2 : idleActiveCount (scanFrom c fiveIdleTick (scanInit c) [])
               < minIdleSession c)
    by (vm_compute; reflexivity).
  split.
  - intros Hin. apply Hiff in Hin as [_ Hin]. lia.
  - destruct (Hlease H1 H2) as [E _].
    exact (f_equal (fmap idleSince) E).
Defined.

(** ** The age floor *)

Lemma app_singleton_neq {A} (l : list A) (x : A) : l ++ [x] <> l.
Proof.
  intros H. apply (f_equal length) in H.
  rewrite length_app in H. simpl in H. lia.
Qed.

(** C3.  In a tick, a session that is not marked for the idle close and
    has outlived its lifetime is marked for the age close exactly when the
    age counter has reached [minIdleSessionForAge] (and rotation is on);
    below the floor it is kept and takes one protection slot; a session
    that has not outlived its lifetime leaves the counter as it is.  Hence
    a tick with fewer eligible sessions than the floor closes none for
    age, whether eligible means reaching the age check with the lifetime
    exceeded or merely having the lifetime exceeded. *)
Theorem age_floor (config : ClientConfig) (os : list op) (now : Z)
    (pre post : list (Z * ptr)) (k : Z) (p : ptr) (s : Session) :
  let c := run os (fst (NewClient config)) in
  idleSession c = pre ++ (k, p) :: post ->
  heap c !! p = Some s ->
  let before := scanFrom c now (scanInit c) pre in
  let after := cleanupStep c now before (k, p) in
  let final := cleanupScan c now in
  (p ∈ ageSessionsToClose final
   <-> 0 < maxConnectionLifetime c
       /\ (p ∉ idleSessionsToClose final)
       /\ ageExpTime c s < now
       /\ minIdleSessionForAge c <= ageActiveCount before)
  /\ (0 < maxConnectionLifetime c ->
      p ∉ idleSessionsToClose final ->
      ageExpTime c s < now ->
      ageActiveCount before < minIdleSessionForAge c ->
      (p ∉ ageSessionsToClose final)
      /\ ageActiveCount after = ageActiveCount before + 1)
  /\ (now <= ageExpTime c s ->
      ageActiveCount after = ageActiveCount before)
  /\ (ageEligible c now (scanInit c) (idleSession c)
      < minIdleSessionForAge c ->
      ageSessionsToClose final = [])
  /\ (ageExpiredCount c now (heap c) (idleSession c)
      < minIdleSessionForAge c ->
      ageSessionsToClose final = []).
Proof.
  cbv zeta. set (c := run os (fst (NewClient config))). intros Hpool Hs.
  assert (Hnodup : NoDup (idleSession c).*2)
    by apply PoolInv_NoDup, PoolInv_run, NewClient_PoolInv.
  pose proof (before_heap c now pre post k p s Hpool Hnodup Hs) as Hb.
  pose proof (final_age_list c now pre post k p Hpool Hnodup) as Hage.
  pose proof (final_not_idle_list c now pre post k p Hpool Hnodup) as Hidle.
  set (before := scanFrom c now (scanInit c) pre) in *.
  assert (Hnone : ageEligible c now (scanInit c) (idleSession c)
                  < minIdleSessionForAge c ->
                  ageSessionsToClose (cleanupScan c now) = []).
  { intros Hlt. unfold cleanupScan.
    rewrite scanFrom_age_none; [reflexivity| |]; simpl; lia. }
  split; [|split; [|split; [|split]]].
  - rewrite Hage, Hidle. split.
    + intros E.
      destruct (step_idle_list c now before k p) as [Ei|Ei].
      2:{ destruct (step_age_skip c now before k p s Hb (or_introl Ei))
            as [E' _].
          rewrite E' in E. symmetry in E. now apply app_singleton_neq in E. }
      destruct (Z_lt_le_dec 0 (maxConnectionLifetime c)) as [Hm|Hm].
      2:{ destruct (step_age_skip c now before k p s Hb
                      (or_intror (or_introl Hm))) as [E' _].
          rewrite E' in E. symmetry in E. now apply app_singleton_neq in E. }
      destruct (Z_lt_le_dec (ageExpTime c s) now) as [He|He].
      2:{ destruct (step_age_skip c now before k p s Hb
                      (or_intror (or_intror He))) as [E' _].
          rewrite E' in E. symmetry in E. now apply app_singleton_neq in E. }
      destruct (Z_lt_le_dec (ageActiveCount before) (minIdleSessionForAge c))
        as [Hf|Hf]; [|auto].
      destruct (step_age_protect c now before k p s Hb Ei Hm He Hf)
        as [E' _].
      rewrite E' in E. symmetry in E. now apply app_singleton_neq in E.
    + intros (Hm & Ei & He & Hf).
      now destruct (step_age_close c now before k p s Hb Ei Hm He Hf).
  - intros Hm Hni He Hf. apply Hidle in Hni.
    destruct (step_age_protect c now before k p s Hb Hni Hm He Hf)
      as (E1 & E2 & _).
    split; [|exact E2].
    intros Hin. apply Hage in Hin. rewrite E1 in Hin.
    symmetry in Hin. now apply app_singleton_neq in Hin.
  - intros He.
    now destruct (step_age_skip c now before k p s Hb
                    (or_intror (or_intror He))).
  - exact Hnone.
  - intros Hlt. apply Hnone.
    pose proof (ageEligible_le_expired c now (scanInit c) (idleSession c)).
    simpl in *. lia.
Qed.

(** The older of two aged sessions under an age floor of 1: the newer one
    has taken the protection slot, so the older one is closed for age. *)
Lemma age_floor_witness :
  0%nat ∈ ageSessionsToClose (cleanupScan twoAgedClient (1000 * Second)).
Proof.
  unfold twoAgedClient.
  set (c := run twoAgedOps (fst (NewClient twoAgedConfig))).
  pose (k := 18446744073709551613).
  pose (s := mkSession 1 (800 * Second) (990 * Second) false).
  assert (Hpool : idleSession c = [(k, 1%nat)] ++ (k + 1, 0%nat) :: [])
    by (vm_compute; reflexivity).
  assert (Hs : heap c !! 0%nat = Some s)
    by (vm_compute; reflexivity).
  destruct (age_floor twoAgedConfig twoAgedOps (1000 * Second)
              [(k, 1%nat)] [] (k + 1) 0%nat s Hpool Hs) as (Hiff & _).
  fold c in Hiff.
  apply Hiff. split; [|split; [|split]].
  - vm_compute. reflexivity.
  - replace (idleSessionsToClose (cleanupScan c (1000 * Second)))
      with (@nil ptr) by (vm_compute; reflexivity).
    apply not_elem_of_nil.
  - vm_compute. reflexivity.
  - vm_compute. congruence.
Defined.

(** ** The idle floor gives no protection against rotation *)

(** C10.  A session that the idle check protects in a tick (timed out,
    below the idle floor, [idleSince] set to the time of the tick and
    counted as retained) still goes through the age check of the same
    tick: when it has outlived its lifetime and the age counter has
    reached [minIdleSessionForAge], it is marked for the age close, and
    [cleanup] closes it. *)
Theorem idle_lease_no_age_protection (config : ClientConfig)
    (os : list op) (now : Z) (pre post : list (Z * ptr)) (k : Z) (p : ptr)
    (s : Session) :
  let c := run os (fst (NewClient config)) in
  idleSession c = pre ++ (k, p) :: post ->
  heap c !! p = Some s ->
  let before := scanFrom c now (scanInit c) pre in
  let after := cleanupStep c now before (k, p) in
  let final := cleanupScan c now in
  idleSince s < idleExpTime c now ->
  idleActiveCount before < minIdleSession c ->
  0 < maxConnectionLifetime c ->
  ageExpTime c s < now ->
  minIdleSessionForAge c <= ageActiveCount before ->
  (p ∉ idleSessionsToClose final)
  /\ scHeap final !! p = Some (setIdleSince now s)
  /\ idleActiveCount after = idleActiveCount before + 1
  /\ p ∈ ageSessionsToClose final
  /\ closed <$> heap (fst (cleanup now c)) !! p = Some true.
Proof.
  cbv zeta. set (c := run os (fst (NewClient config))).
  intros Hpool Hs Hi Hf Hm He Ha.
  assert (Hnodup : NoDup (idleSession c).*2)
    by apply PoolInv_NoDup, PoolInv_run, NewClient_PoolInv.
  pose proof (before_heap c now pre post k p s Hpool Hnodup Hs) as Hb.
  destruct (step_idle_protect c now _ k p s Hb Hi Hf) as (E1 & E2 & E3).
  destruct (step_age_close c now _ k p s Hb E1 Hm He Ha) as (E4 & _).
  assert (Hin : p ∈ ageSessionsToClose (cleanupScan c now))
    by now apply (final_age_list c now pre post k p Hpool Hnodup).
  repeat split.
  - now apply (final_not_idle_list c now pre post k p Hpool Hnodup).
  - rewrite (final_heap c now pre post k p Hpool Hnodup). exact E2.
  - exact E3.
  - exact Hin.
  - apply cleanup_closes_marked; [now right|]. rewrite Hs. eauto.
Qed.

(** The single session of [agedIdleClient] at second 1000: the idle floor
    of 1 grants it a lease, and the tick closes it for age all the same. *)
Lemma idle_lease_no_age_protection_witness :
  (0%nat ∉ idleSessionsToClose (cleanupScan agedIdleClient (1000 * Second)))
  /\ 0%nat ∈ ageSessionsToClose (cleanupScan agedIdleClient (1000 * Second))
  /\ closed <$> heap (fst (cleanup (1000 * Second) agedIdleClient)) !! 0%nat
     = Some true.
Proof.
  unfold agedIdleClient.
  set (c := run agedIdleOps (fst (NewClient agedIdleConfig))).
  pose (k := 18446744073709551614).
  pose (s := mkSession 1 (800 * Second) (940 * Second) false).
  assert (Hpool : idleSession c = [] ++ (k, 0%nat) :: [])
    by (vm_compute; reflexivity).
  assert (Hs : heap c !! 0%nat = Some s)
    by (vm_compute; reflexivity).
  destruct (idle_lease_no_age_protection agedIdleConfig agedIdleOps
              (1000 * Second) [] [] k 0%nat s Hpool Hs)
    as (H1 & _ & _ & H4 & H5).
  - vm_compute. reflexivity.
  - vm_compute. reflexivity.
  - vm_compute. reflexivity.
  - vm_compute. reflexivity.
  - vm_compute. congruence.
  - auto.
Defined.

(** ** Reuse of the newest session *)

(** C6.  In every state of a client, whatever operations it has gone
    through since [NewClient]: each entry of the idle pool is a session
    stored under the key [MaxUint64 - seq]; the two insertion paths (the
    stream hook on a live client and session, and the proactive creator)
    store the session under that key; and a pop on a non-empty pool
    removes and returns the session whose sequence number is the largest
    among the sessions idle at that moment. *)
Theorem reuse_newest (config : ClientConfig) (os : list op) :
  let c := run os (fst (NewClient config)) in
  (forall (k : Z) (p : ptr),
      (k, p) ∈ idleSession c ->
      exists s, heap c !! p = Some s /\ k = MaxUint64 - seq s)
  /\ (forall (now : Z) (p : ptr) (s : Session),
         heap c !! p = Some s ->
         (MaxUint64 - seq s, p) ∈ idleSession (proactiveInsert now p c)
         /\ (closed s = false -> die c = false ->
             (MaxUint64 - seq s, p) ∈ idleSession (streamDieHook now p c)))
  /\ (idleSession c <> [] ->
      exists (p : ptr) (s : Session),
        fst (getIdleSession c) = Some p
        /\ heap c !! p = Some s
        /\ idleSession c
           = (MaxUint64 - seq s, p) :: idleSession (snd (getIdleSession c))
        /\ (forall (k' : Z) (p' : ptr) (s' : Session),
               (k', p') ∈ idleSession c -> heap c !! p' = Some s' ->
               seq s' <= seq s)).
Proof.
  cbv zeta. set (c := run os (fst (NewClient config))).
  assert (Hi : PoolInv c) by apply PoolInv_run, NewClient_PoolInv.
  assert (Hkey : forall p s, heap c !! p = Some s ->
                             poolKey s = MaxUint64 - seq s).
  { intros p s Hp. apply poolKey_exact. eapply pool_seq; eauto. }
  split; [|split].
  - intros k p Hin. destruct (pool_keyed c Hi k p Hin) as (s & Hp & Hk).
    exists s. split; [assumption|]. rewrite Hk. now apply (Hkey p).
  - intros now p s Hp. pose proof (Hkey p s Hp) as Hk. split.
    + unfold proactiveInsert. rewrite Hp. simpl.
      rewrite <- Hk. apply Insert_here.
    + intros Hc Hd. unfold streamDieHook. rewrite Hp, Hc, Hd. simpl.
      rewrite <- Hk. apply Insert_here.
  - intros Hne. destruct (idleSession c) as [|[k p] l] eqn:E; [congruence|].
    destruct (pool_keyed c Hi k p) as (s & Hp & Hk); [rewrite E; left|].
    pose proof (Hkey p s Hp) as Hks.
    exists p, s. split; [|split; [|split]].
    + rewrite getIdleSession_head, E. reflexivity.
    + exact Hp.
    + rewrite getIdleSession_idle. simpl. rewrite E. simpl. congruence.
    + intros k' p' s' Hin Hp'.
      destruct (pool_keyed c Hi k' p') as (s0 & Hp0 & Hk0);
        [now rewrite E|].
      assert (s0 = s') by congruence. subst s0.
      pose proof (Hkey p' s' Hp') as Hks'.
      pose proof (pool_sorted c Hi) as Hsort. rewrite E in Hsort.
      pose proof (sorted_head_least l (k, p) (k', p') Hsort Hin) as Hle.
      simpl in Hle. lia.
Qed.

(** Two pooled sessions: the pop returns the second one (sequence number
    2), stored under [MaxUint64 - 2]. *)
Lemma reuse_newest_witness :
  exists (p : ptr) (s : Session),
    fst (getIdleSession (run twoPooled plainClient)) = Some p
    /\ heap (run twoPooled plainClient) !! p = Some s
    /\ (forall (k' : Z) (p' : ptr) (s' : Session),
           (k', p') ∈ idleSession (run twoPooled plainClient) ->
           heap (run twoPooled plainClient) !! p' = Some s' ->
           seq s' <= seq s).
Proof.
  destruct (reuse_newest (mkClientConfig 0 0 0 0 0 0 0 0) twoPooled)
    as (_ & _ & Hpop).
  destruct Hpop as (p & s & H1 & H2 & _ & H4).
  - vm_compute. discriminate.
  - exists p, s. auto.
Defined.

(** The pop of the two pooled sessions, evaluated. *)
Example reuse_newest_two_pooled :
  fst (getIdleSession (run twoPooled plainClient)) = Some 1%nat
  /\ seq <$> heap (run twoPooled plainClient) !! 1%nat = Some 2
  /\ idleSession (run twoPooled plainClient)
     = [(MaxUint64 - 2, 1%nat); (MaxUint64 - 1, 0%nat)].
Proof. repeat split; vm_compute; reflexivity. Qed.

(** ** After shutdown *)

Lemma die_SessionClose (p : ptr) (c : Client) :
  die (SessionClose p c) = die c.
Proof.
  unfold SessionClose. destruct (heap c !! p) as [s|]; [|reflexivity].
  destruct (closed s); reflexivity.
Qed.

Lemma die_closeAll (l : list ptr) (c : Client) : die (closeAll l c) = die c.
Proof.
  revert c. induction l as [|p l IH]; intros c; [reflexivity|].
  change (closeAll (p :: l) c) with (closeAll l (SessionClose p c)).
  rewrite IH. apply die_SessionClose.
Qed.

Lemma die_Close (c : Client) : die (Close c) = true.
Proof.
  change (Close c) with (closeAll (fst (closeReset c)) (snd (closeReset c))).
  rewrite die_closeAll. reflexivity.
Qed.

(** A client that refuses a stream is returned as it is. *)
Lemma CreateStream_closed (now : Z) (dialOk openOk : bool) (c : Client) :
  die c = true ->
  CreateStream now dialOk openOk c = (inr ErrClosedPipe, c).
Proof. intros H. unfold CreateStream. now rewrite H. Qed.

(** No operation revives a cancelled client. *)
Lemma die_exec (o : op) (c : Client) : die c = true -> die (exec o c) = true.
Proof.
  intros H. destruct o; simpl.
  - now rewrite CreateStream_closed.
  - unfold streamDieHook. destruct (heap c !! p) as [s|]; [|exact H].
    destruct (closed s); simpl; [exact H|].
    rewrite H. now rewrite die_SessionClose.
  - now rewrite die_SessionClose.
  - unfold cleanup. cbn [fst]. now rewrite !die_closeAll.
  - unfold createSession. destruct dialOk; simpl; exact H.
  - unfold proactiveInsert. destruct (heap c !! p) as [s|]; exact H.
  - apply die_Close.
Qed.

Lemma die_run (os : list op) (c : Client) :
  die c = true -> die (run os c) = true.
Proof.
  revert c. induction os as [|o os IH]; intros c H; [exact H|].
  change (run (o :: os) c) with (run os (exec o c)).
  now apply IH, die_exec.
Qed.

(** C8.  Once [Close] has been called, whatever happens next, every
    [CreateStream] fails with the closed-pipe error and leaves the client
    as it is: nothing is taken from the idle pool and no session is
    dialed. *)
Theorem closed_client_refuses (c : Client) (os : list op) (now : Z)
    (dialOk openOk : bool) :
  CreateStream now dialOk openOk (run os (Close c))
  = (inr ErrClosedPipe, run os (Close c)).
Proof.
  apply CreateStream_closed, die_run, die_Close.
Qed.

(** ** A proactive creator that finishes after shutdown *)

(** C1 at a failing input.  A client that keeps one idle session starts one
    creator in its first tick; [Close] is called; the dial of the creator
    then succeeds.  The creator registers the session and pools it: the
    client is cancelled, and the session is live, in the registry and in
    the idle pool. *)
Theorem late_creator_pools_session :
  let tick := cleanup (30 * Second) ensureOneClient in
  let c := proactiveCreator (31 * Second) (31 * Second) true
             (Close (fst tick)) in
  snd tick = 1
  /\ die c = true
  /\ idleSession c = [(MaxUint64 - 1, 0%nat)]
  /\ heap c = [mkSession 1 (31 * Second) (31 * Second) false]
  /\ sessions c !! 1 = Some 0%nat.
Proof.
  cbv zeta. repeat split; vm_compute; reflexivity.
Qed.

(** The same for every cancelled client: the insertion path of the creator
    does not look at [die]. *)
Lemma creator_ignores_cancellation (now1 now2 : Z) (c : Client) :
  die c = true ->
  let p := length (heap c) in
  let c' := proactiveCreator now1 now2 true c in
  die c' = true
  /\ closed <$> heap c' !! p = Some false
  /\ (poolKey (mkSession (u64 (sessionCounter c + 1)) now1 now2 false), p)
     ∈ idleSession c'.
Proof.
  intros Hd. cbv zeta. unfold proactiveCreator, createSession. simpl.
  unfold proactiveInsert. simpl.
  rewrite lookup_app_r by lia. rewrite Nat.sub_diag. simpl.
  split; [exact Hd|]. split.
  - rewrite list_lookup_insert_eq by (rewrite length_app; simpl; lia).
    reflexivity.
  - apply Insert_here.
Qed.

(** * Further properties of the client *)

(** ** Construction *)

(** X1.  [NewClient] never leaves a check interval or an idle timeout of
    five seconds or less: such a value becomes 30 seconds and a larger one
    is kept.  The floor on the timeout holds for the client [NewAnyTLS]
    builds from any layers, and in every later state of the client. *)
Theorem NewClient_floors (config : ClientConfig) :
  let c := fst (NewClient config) in
  let interval := snd (NewClient config) in
  5 * Second < idleSessionTimeout c
  /\ 5 * Second < interval
  /\ (IdleSessionTimeout config <= 5 * Second ->
      idleSessionTimeout c = 30 * Second)
  /\ (5 * Second < IdleSessionTimeout config ->
      idleSessionTimeout c = IdleSessionTimeout config)
  /\ (IdleSessionCheckInterval config <= 5 * Second ->
      interval = 30 * Second)
  /\ (5 * Second < IdleSessionCheckInterval config ->
      interval = IdleSessionCheckInterval config)
  /\ (forall os : list op, 5 * Second < idleSessionTimeout (run os c))
  /\ (forall (g : option Outbound.G.t) (o : Outbound.L.t) (os : list op),
         5 * Second < idleSessionTimeout (run os (effectiveClient g o))).
Proof.
  cbv zeta.
  assert (Hfloor : forall cfg, 5 * Second
                               < idleSessionTimeout (fst (NewClient cfg))).
  { intros cfg. unfold NewClient. simpl.
    destruct (Z.leb_spec (IdleSessionTimeout cfg) (Second * 5));
      unfold Second in *; lia. }
  assert (Hrun : forall cfg os,
             idleSessionTimeout (run os (fst (NewClient cfg)))
             = idleSessionTimeout (fst (NewClient cfg))).
  { intros cfg os.
    exact (f_equal idleSessionTimeout
             (settings_run os (fst (NewClient cfg)))). }
  split; [apply Hfloor|].
  split; [|split; [|split; [|split; [|split; [|split]]]]].
  - unfold NewClient. simpl.
    destruct (Z.leb_spec (IdleSessionCheckInterval config) (Second * 5));
      unfold Second in *; lia.
  - unfold NewClient. simpl. intros H.
    destruct (Z.leb_spec (IdleSessionTimeout config) (Second * 5));
      unfold Second in *; lia.
  - unfold NewClient. simpl. intros H.
    destruct (Z.leb_spec (IdleSessionTimeout config) (Second * 5));
      unfold Second in *; lia.
  - unfold NewClient. simpl. intros H.
    destruct (Z.leb_spec (IdleSessionCheckInterval config) (Second * 5));
      unfold Second in *; lia.
  - unfold NewClient. simpl. intros H.
    destruct (Z.leb_spec (IdleSessionCheckInterval config) (Second * 5));
      unfold Second in *; lia.
  - intros os. rewrite (Hrun config os). apply Hfloor.
  - intros g o os. unfold effectiveClient. rewrite Hrun. apply Hfloor.
Qed.

(** ** The jitter offset *)

(** X2.  For a positive jitter of type [time.Duration] the divisor of the
    remainder that [cleanup] takes, [jitterRange * 2] in [int64], is never
    zero: the age check cannot stop on a division by zero, even where the
    doubling wraps. *)
Theorem jitter_remainder_defined (c : Client) :
  0 < connectionLifetimeJitter c ->
  connectionLifetimeJitter c <= MaxInt64 ->
  i64 (i64 (connectionLifetimeJitter c) * 2) <> 0.
Proof.
  intros Hpos Hmax.
  rewrite (i64_id (connectionLifetimeJitter c))
    by (unfold MinInt64, MaxInt64 in *; lia).
  unfold i64, MaxInt64 in *. intros H.
  destruct (Z_lt_le_dec (connectionLifetimeJitter c * 2) (2 ^ 63)) as [Hs|Hb].
  - rewrite Z.mod_small in H by lia. lia.
  - replace (connectionLifetimeJitter c * 2 + 2 ^ 63)
      with ((connectionLifetimeJitter c * 2 - 2 ^ 63) + 1 * 2 ^ 64) in H
      by lia.
    rewrite Z.mod_add in H by lia.
    rewrite Z.mod_small in H by lia. lia.
Qed.

(** The largest jitter: the doubling wraps to [-2]. *)
Lemma jitter_remainder_defined_witness :
  i64 (i64 (connectionLifetimeJitter widestJitterClient) * 2) <> 0.
Proof.
  apply (jitter_remainder_defined widestJitterClient).
  - vm_compute. reflexivity.
  - vm_compute. congruence.
Defined.

(** ** Sessions, the pool and the registry *)

Lemma Inv_PoolInv (c : Client) : Inv c -> PoolInv c.
Proof.
  intros [Hb _]. split.
  - apply Hb.
  - intros k p Hin. destruct (inv_idle c Hb k p Hin) as (s & Hs & Hk & _).
    eauto.
  - intros p s Hs. pose proof (inv_seq c Hb p s Hs).
    pose proof (inv_counter c Hb). lia.
Qed.

(** Between operations a closed session is neither pooled nor registered. *)
Lemma closed_absent (c : Client) (p : ptr) (s : Session) :
  Inv c -> heap c !! p = Some s -> closed s = true ->
  (p ∉ (idleSession c).*2) /\ sessions c !! seq s = None.
Proof.
  intros [Hb Hl] Hs Hc. split.
  - intros Hin. apply list_elem_of_fmap in Hin as ([k q] & E & Hin).
    simpl in E. subst q.
    destruct (inv_idle c Hb k p Hin) as (s0 & Hs0 & _ & Hc0). congruence.
  - destruct (sessions c !! seq s) as [q|] eqn:Hq; [|reflexivity].
    destruct (inv_reg c Hb _ q Hq) as (s0 & Hs0 & E & Hc0).
    assert (q = p) by (eapply (inv_inj c Hb); eauto). subst q. congruence.
Qed.

Lemma SessionClose_seq (p : ptr) (c : Client) (s : Session) :
  heap c !! p = Some s ->
  exists s', heap (SessionClose p c) !! p = Some s'
             /\ seq s' = seq s /\ closed s' = true.
Proof.
  intros Hs. rewrite SessionClose_heap, Hs.
  destruct (closed s) eqn:Hc.
  - exists s. auto.
  - exists (setClosed s).
    rewrite list_lookup_insert_eq by (eapply lookup_lt_Some; eauto). auto.
Qed.

(** X3.  In every state of a client, whatever operations it has gone
    through, a session is in the idle pool at most once and each key of the
    pool names one entry. *)
Theorem pool_no_duplicates (config : ClientConfig) (os : list op) :
  let c := run os (fst (NewClient config)) in
  NoDup (idleSession c).*2 /\ NoDup (idleSession c).*1.
Proof.
  cbv zeta. set (c := run os (fst (NewClient config))).
  assert (Hi : PoolInv c) by apply PoolInv_run, NewClient_PoolInv.
  split; [now apply PoolInv_NoDup|].
  pose proof (pool_sorted c Hi) as Hs. unfold sortedPool in Hs.
  induction Hs as [|e l Hs IH Hall]; [constructor|].
  simpl. apply NoDup_cons. split; [|exact IH].
  intros Hin. apply list_elem_of_fmap in Hin as (e' & E & Hin).
  rewrite Forall_forall in Hall. specialize (Hall e' Hin).
  unfold keyLt in Hall. lia.
Qed.

(** X4.  Sequence numbers are unique and increasing: in every state reached
    from a new client two distinct sessions have distinct sequence numbers,
    every sequence number lies between 1 and the counter, and a session
    created next gets the counter plus one, above every earlier one. *)
Theorem seq_unique_increasing (config : ClientConfig) (c : Client) :
  reachable (fst (NewClient config)) c ->
  (forall (p q : ptr) (s s' : Session),
      heap c !! p = Some s -> heap c !! q = Some s' ->
      p <> q -> seq s <> seq s')
  /\ (forall (p : ptr) (s : Session),
         heap c !! p = Some s -> 1 <= seq s <= sessionCounter c)
  /\ (forall now : Z,
         sessionCounter c < MaxUint64 ->
         let c' := snd (createSession now true c) in
         exists p s',
           fst (createSession now true c) = Some p
           /\ heap c' !! p = Some s'
           /\ seq s' = sessionCounter c + 1
           /\ sessionCounter c' = sessionCounter c + 1
           /\ (forall q s, heap c !! q = Some s ->
                           heap c' !! q = Some s /\ seq s < seq s')).
Proof.
  intros Hr.
  pose proof (reachable_Inv _ _ (NewClient_Inv config) Hr) as [Hb Hl].
  split; [|split].
  - intros p q s s' Hp Hq Hne E. apply Hne. eapply (inv_inj c Hb); eauto.
  - apply (inv_seq c Hb).
  - intros now Hlt. cbv zeta. unfold createSession. simpl.
    pose proof (inv_counter c Hb) as Hcnt.
    rewrite (u64_id (sessionCounter c + 1)) by lia.
    exists (length (heap c)),
      (mkSession (sessionCounter c + 1) now 0 false).
    split; [reflexivity|]. split.
    { rewrite lookup_app_r by lia. now rewrite Nat.sub_diag. }
    split; [reflexivity|]. split; [reflexivity|].
    intros q s Hq. split; [now apply lookup_app_l_Some|].
    simpl. pose proof (inv_seq c Hb q s Hq). lia.
Qed.

(** Two sessions created one after the other: sequence numbers 1 and 2. *)
Lemma seq_unique_increasing_witness :
  seq (mkSession 1 Second Second false)
  <> seq (mkSession 2 (2 * Second) (2 * Second) false).
Proof.
  assert (Hr : reachable (fst (NewClient (mkClientConfig 0 0 0 0 0 0 0 0)))
                 (run twoPooled plainClient)).
  { apply runOk_reachable. simpl. split; [|split; [|split; [|split]]].
    - intros _. vm_compute. reflexivity.
    - intros s Hs. vm_compute in Hs. injection Hs as Hs. subst s. reflexivity.
    - intros _. vm_compute. reflexivity.
    - intros s Hs. vm_compute in Hs. injection Hs as Hs. subst s. reflexivity.
    - exact I. }
  apply (proj1 (seq_unique_increasing _ _ Hr) 0%nat 1%nat).
  - vm_compute. reflexivity.
  - vm_compute. reflexivity.
  - discriminate.
Defined.





(** ** Shutdown *)

Lemma sessions_SessionClose_empty (p : ptr) (c : Client) :
  sessions c = ∅ -> sessions (SessionClose p c) = ∅.
Proof.
  intros H. unfold SessionClose.
  destruct (heap c !! p) as [s|]; [|exact H].
  destruct (closed s); [exact H|]. simpl. rewrite H. apply delete_empty.
Qed.

Lemma sessions_closeAll_empty (l : list ptr) (c : Client) :
  sessions c = ∅ -> sessions (closeAll l c) = ∅.
Proof.
  revert c. induction l as [|p l IH]; intros c H; [exact H|].
  change (closeAll (p :: l) c) with (closeAll l (SessionClose p c)).
  now apply IH, sessions_SessionClose_empty.
Qed.

Lemma sessions_Close (c : Client) : sessions (Close c) = ∅.
Proof.
  change (Close c) with (closeAll (fst (closeReset c)) (snd (closeReset c))).
  now apply sessions_closeAll_empty.
Qed.

(** X7.  [Close] is idempotent: whatever the state of the client, [Close]
    leaves it cancelled with an empty registry, and a second [Close]
    changes nothing. *)
Theorem Close_idempotent (c : Client) :
  die (Close c) = true
  /\ sessions (Close c) = ∅
  /\ Close (Close c) = Close c.
Proof.
  split; [apply die_Close|]. split; [apply sessions_Close|].
  pose proof (die_Close c) as Hd. pose proof (sessions_Close c) as Hs.
  destruct (Close c) as [d n l m h a1 a2 a3 a4 a5 a6 a7]. simpl in *.
  subst d m. unfold Close, closeReset. simpl.
  rewrite map_to_list_empty. reflexivity.
Qed.



(** ** Acquiring a stream *)

Lemma CreateStream_pooled (now : Z) (dialOk openOk : bool) (c : Client)
    (k : Z) (p : ptr) (l : SkipList.t) (s : Session) :
  die c = false -> idleSession c = (k, p) :: l ->
  heap c !! p = Some s -> closed s = false ->
  CreateStream now dialOk openOk c
  = if openOk then (inl p, setIdleSession l c)
    else (inr ErrCreateStream, SessionClose p (setIdleSession l c)).
Proof.
  intros Hd Hpool Hs Hc. unfold CreateStream, getIdleSession.
  rewrite Hd, Hpool. simpl. rewrite Z.eqb_refl. simpl.
  rewrite Hs, Hc. destruct openOk; reflexivity.
Qed.

Lemma CreateStream_dial_fail (now : Z) (openOk : bool) (c : Client) :
  die c = false -> idleSession c = [] ->
  CreateStream now false openOk c = (inr ErrCreateSession, c).
Proof.
  intros Hd Hpool. unfold CreateStream, getIdleSession.
  rewrite Hd, Hpool. reflexivity.
Qed.

Lemma CreateStream_dial_ok (now : Z) (openOk : bool) (c : Client) :
  die c = false -> idleSession c = [] ->
  CreateStream now true openOk c
  = if openOk
    then (inl (length (heap c)), snd (createSession now true c))
    else (inr ErrCreateStream,
          SessionClose (length (heap c)) (snd (createSession now true c))).
Proof.
  intros Hd Hpool. unfold CreateStream, getIdleSession.
  rewrite Hd, Hpool. simpl.
  rewrite lookup_app_r by lia. rewrite Nat.sub_diag. simpl.
  destruct openOk; reflexivity.
Qed.

(** X9.  A stream is carried by a live session that the caller holds alone:
    in every state reached from a new client, when [CreateStream] succeeds
    the session of the stream is open, registered under its sequence number
    and absent from the idle pool; when the pool was not empty the session
    is the first entry of the pool and nothing is dialed. *)
Theorem acquired_session_exclusive (config : ClientConfig) (c c' : Client)
    (now : Z) (dialOk openOk : bool) (p : ptr) :
  reachable (fst (NewClient config)) c ->
  (dialOk = true -> sessionCounter c < MaxUint64) ->
  CreateStream now dialOk openOk c = (inl p, c') ->
  (exists s, heap c' !! p = Some s /\ closed s = false
             /\ sessions c' !! seq s = Some p)
  /\ (p ∉ (idleSession c').*2)
  /\ (idleSession c <> [] ->
      sessionCounter c' = sessionCounter c
      /\ heap c' = heap c
      /\ exists k, idleSession c = (k, p) :: idleSession c').
Proof.
  intros Hr Hok Hcs.
  pose proof (reachable_Inv _ _ (NewClient_Inv config) Hr) as Hi.
  pose proof Hi as [Hb Hl].
  destruct (die c) eqn:Hd.
  { rewrite CreateStream_closed in Hcs by assumption. discriminate. }
  destruct (idleSession c) as [|[k p0] l] eqn:Hpool.
  - destruct dialOk.
    + rewrite CreateStream_dial_ok in Hcs by assumption.
      destruct openOk; [|discriminate]. injection Hcs as <- <-.
      pose proof (Inv_createSession now true c Hok Hi) as [Hb' Hl'].
      assert (Hnew : heap (snd (createSession now true c))
                       !! length (heap c)
                     = Some (mkSession (u64 (sessionCounter c + 1))
                               now 0 false)).
      { unfold createSession. simpl.
        rewrite lookup_app_r by lia. now rewrite Nat.sub_diag. }
      split; [|split].
      * eexists. split; [exact Hnew|]. split; [reflexivity|].
        now apply Hl'.
      * unfold createSession. simpl. rewrite Hpool. simpl.
        apply not_elem_of_nil.
      * congruence.
    + rewrite CreateStream_dial_fail in Hcs by assumption. discriminate.
  - destruct (inv_idle c Hb k p0) as (s & Hs & Hk & Hc); [rewrite Hpool; left|].
    rewrite (CreateStream_pooled now dialOk openOk c k p0 l s) in Hcs
      by assumption.
    destruct openOk; [|discriminate]. injection Hcs as <- <-.
    split; [|split].
    + exists s. simpl. auto.
    + simpl. pose proof (PoolInv_NoDup c (Inv_PoolInv c Hi)) as Hnd.
      rewrite Hpool in Hnd. simpl in Hnd.
      now apply NoDup_cons in Hnd as [Hnd _].
    + intros _. simpl. eauto.
Qed.

(** Reuse of the newer of two pooled sessions. *)
Lemma acquired_session_exclusive_witness :
  fst (CreateStream (3 * Second) true true (run twoPooled plainClient))
  = inl 1%nat
  /\ (1%nat ∉ (idleSession
                 (snd (CreateStream (3 * Second) true true
                         (run twoPooled plainClient)))).*2)
  /\ sessionCounter (snd (CreateStream (3 * Second) true true
                            (run twoPooled plainClient)))
     = sessionCounter (run twoPooled plainClient).
Proof.
  set (c := run twoPooled plainClient).
  assert (Hr : reachable (fst (NewClient (mkClientConfig 0 0 0 0 0 0 0 0))) c).
  { apply runOk_reachable. simpl. split; [|split; [|split; [|split]]].
    - intros _. vm_compute. reflexivity.
    - intros s Hs. vm_compute in Hs. injection Hs as Hs. subst s. reflexivity.
    - intros _. vm_compute. reflexivity.
    - intros s Hs. vm_compute in Hs. injection Hs as Hs. subst s. reflexivity.
    - exact I. }
  assert (Hok : true = true -> sessionCounter c < MaxUint64)
    by (intros _; vm_compute; reflexivity).
  assert (Hcs : CreateStream (3 * Second) true true c
                = (inl 1%nat, snd (CreateStream (3 * Second) true true c)))
    by (vm_compute; reflexivity).
  destruct (acquired_session_exclusive _ c _ _ _ _ 1%nat Hr Hok Hcs)
    as (_ & H2 & H3).
  split; [vm_compute; reflexivity|]. split; [exact H2|].
  apply H3. vm_compute. discriminate.
Defined.

(** X10.  The failures of [CreateStream] on a client that is not cancelled,
    in every state reached from a new client.  A failed dial (the pool is
    empty then) gives the create-session error and leaves the client as it
    is.  A failed [OpenStream] gives the create-stream error and closes the
    session it was tried on: that session ends closed, out of the idle pool
    and out of the registry. *)
Theorem CreateStream_failures (config : ClientConfig) (c c' : Client)
    (now : Z) (dialOk openOk : bool) (e : error) :
  reachable (fst (NewClient config)) c ->
  (dialOk = true -> sessionCounter c < MaxUint64) ->
  die c = false ->
  CreateStream now dialOk openOk c = (inr e, c') ->
  (e = ErrCreateSession /\ c' = c /\ idleSession c = [] /\ dialOk = false)
  \/ (e = ErrCreateStream /\ openOk = false
      /\ exists (p : ptr) (s : Session),
           heap c' !! p = Some s /\ closed s = true
           /\ (p ∉ (idleSession c').*2)
           /\ sessions c' !! seq s = None
           /\ (idleSession c = [] -> dialOk = true /\ p = length (heap c))
           /\ (idleSession c <> [] ->
               exists k, head (idleSession c) = Some (k, p))).
Proof.
  intros Hr Hok Hd Hcs.
  pose proof (reachable_Inv _ _ (NewClient_Inv config) Hr) as Hi.
  pose proof Hi as [Hb Hl].
  destruct (idleSession c) as [|[k p0] l] eqn:Hpool.
  - destruct dialOk.
    + rewrite CreateStream_dial_ok in Hcs by assumption.
      destruct openOk; [discriminate|]. injection Hcs as <- <-.
      right. split; [reflexivity|]. split; [reflexivity|].
      pose proof (Inv_createSession now true c Hok Hi) as Hi2.
      pose proof (Inv_SessionClose (length (heap c)) _ Hi2) as Hi3.
      assert (Hnew : heap (snd (createSession now true c))
                       !! length (heap c)
                     = Some (mkSession (u64 (sessionCounter c + 1))
                               now 0 false)).
      { unfold createSession. simpl.
        rewrite lookup_app_r by lia. now rewrite Nat.sub_diag. }
      destruct (SessionClose_seq _ _ _ Hnew) as (s' & Hs' & Eseq & Hc').
      destruct (closed_absent _ _ s' Hi3 Hs' Hc') as [H1 H2].
      exists (length (heap c)), s'.
      repeat match goal with |- _ /\ _ => split end; auto.
      intros Hne. congruence.
    + rewrite CreateStream_dial_fail in Hcs by assumption.
      injection Hcs as <- <-. left. auto.
  - destruct (inv_idle c Hb k p0) as (s & Hs & Hk & Hc); [rewrite Hpool; left|].
    rewrite (CreateStream_pooled now dialOk openOk c k p0 l s) in Hcs
      by assumption.
    destruct openOk; [discriminate|]. injection Hcs as <- <-.
    right. split; [reflexivity|]. split; [reflexivity|].
    assert (Hi1 : Inv (setIdleSession l c)).
    { pose proof (Inv_getIdleSession c Hi) as H.
      rewrite getIdleSession_idle, Hpool in H. exact H. }
    pose proof (Inv_SessionClose p0 _ Hi1) as Hi2.
    assert (Hs1 : heap (setIdleSession l c) !! p0 = Some s) by exact Hs.
    destruct (SessionClose_seq _ _ _ Hs1) as (s' & Hs' & Eseq & Hc').
    destruct (closed_absent _ _ s' Hi2 Hs' Hc') as [H1 H2].
    exists p0, s'.
    repeat match goal with |- _ /\ _ => split end; auto.
    + intros Hnil. discriminate.
    + intros _. simpl. eauto.
Qed.

(** A failed dial on a new client. *)
Lemma CreateStream_failures_witness :
  CreateStream Second false true plainClient
  = (inr ErrCreateSession, plainClient).
Proof.
  assert (Hr : reachable (fst (NewClient (mkClientConfig 0 0 0 0 0 0 0 0)))
                 plainClient) by constructor.
  assert (Hok : false = true -> sessionCounter plainClient < MaxUint64)
    by discriminate.
  assert (Hd : die plainClient = false) by reflexivity.
  assert (Hcs : CreateStream Second false true plainClient
                = (inr ErrCreateSession,
                   snd (CreateStream Second false true plainClient)))
    by reflexivity.
  destruct (CreateStream_failures _ _ _ _ _ _ _ Hr Hok Hd Hcs)
    as [(_ & E & _)|(E & _)]; [|discriminate].
  rewrite Hcs. now rewrite E.
Defined.

(** ** Returning a session and taking it again *)

Lemma Insert_least (k : Z) (v : ptr) (l : SkipList.t) :
  (forall e, e ∈ l -> k < e.1) ->
  SkipList.Insert k v l = (k, v) :: l.
Proof.
  intros H. destruct l as [|[k' v'] l]; [reflexivity|]. simpl.
  specialize (H (k', v') ltac:(left)). simpl in H.
  destruct (Z.ltb_spec k k'); [reflexivity|lia].
Qed.

(** X11.  The warm path.  In every state reached from a new client that is
    not cancelled, when the stream of a live session [p] ends and [p] is
    newer than every session of the idle pool (in particular when the pool
    is empty), the next [CreateStream] is served by [p] itself whatever the
    dial would answer: nothing is dialed, and the client is as before the
    return except for [idleSince] of [p]. *)
Theorem warm_reuse (config : ClientConfig) (c : Client) (now1 now2 : Z)
    (dialOk : bool) (p : ptr) (s : Session) :
  reachable (fst (NewClient config)) c ->
  die c = false ->
  heap c !! p = Some s ->
  closed s = false ->
  (forall (k' : Z) (p' : ptr) (s' : Session),
      (k', p') ∈ idleSession c -> heap c !! p' = Some s' ->
      seq s' < seq s) ->
  CreateStream now2 dialOk true (streamDieHook now1 p c)
  = (inl p, setHeap (<[p := setIdleSince now1 s]> (heap c)) c).
Proof.
  intros Hr Hd Hs Hc Hnew.
  pose proof (reachable_Inv _ _ (NewClient_Inv config) Hr) as Hi.
  pose proof Hi as [Hb Hl].
  assert (Hrange : forall q t, heap c !! q = Some t ->
                               0 <= seq t <= MaxUint64).
  { intros q t Hq. pose proof (inv_seq c Hb q t Hq).
    pose proof (inv_counter c Hb). lia. }
  assert (Hins : SkipList.Insert (poolKey (setIdleSince now1 s)) p
                   (idleSession c)
                 = (poolKey s, p) :: idleSession c).
  { apply Insert_least. intros [k' p'] Hin. simpl.
    destruct (inv_idle c Hb k' p' Hin) as (s' & Hs' & Hk' & _).
    specialize (Hnew k' p' s' Hin Hs').
    change (poolKey (setIdleSince now1 s)) with (poolKey s).
    rewrite Hk', (poolKey_exact s), (poolKey_exact s') by eauto. lia. }
  unfold streamDieHook. rewrite Hs, Hc, Hd. simpl. rewrite Hins.
  set (c1 := setIdleSession ((poolKey s, p) :: idleSession c)
               (setHeap (<[p := setIdleSince now1 s]> (heap c)) c)).
  rewrite (CreateStream_pooled now2 dialOk true c1 (poolKey s) p
             (idleSession c) (setIdleSince now1 s)); try reflexivity.
  - exact Hd.
  - subst c1. simpl. apply list_lookup_insert_eq.
    eapply lookup_lt_Some; eauto.
  - exact Hc.
Qed.

(** Scenario 1 of the specification: a stream is opened on a new client
    (one dial), closed, and a second stream is asked for while the dial
    would fail: the same session serves it. *)
Lemma warm_reuse_witness :
  fst (CreateStream (3 * Second) false true
         (streamDieHook (2 * Second) 0 (run oneStream plainClient)))
  = inl 0%nat.
Proof.
  set (c := run oneStream plainClient).
  assert (Hr : reachable (fst (NewClient (mkClientConfig 0 0 0 0 0 0 0 0))) c).
  { apply runOk_reachable. simpl. split; [|exact I].
    intros _. vm_compute. reflexivity. }
  assert (Hd : die c = false) by (vm_compute; reflexivity).
  assert (Hs : heap c !! 0%nat = Some (mkSession 1 Second 0 false))
    by (vm_compute; reflexivity).
  assert (Hnew : forall (k' : Z) (p' : ptr) (s' : Session),
             (k', p') ∈ idleSession c -> heap c !! p' = Some s' ->
             seq s' < seq (mkSession 1 Second 0 false)).
  { intros k' p' s' Hin. exfalso.
    replace (idleSession c) with (@nil (Z * ptr)) in Hin
      by (vm_compute; reflexivity).
    now apply not_elem_of_nil in Hin. }
  rewrite (warm_reuse _ c (2 * Second) (3 * Second) false 0%nat _
             Hr Hd Hs eq_refl Hnew).
  reflexivity.
Defined.

(** ** Proactive creation *)

(** X12.  A proactive creator whose dial succeeds puts its session at the
    head of the idle pool: in every state reached from a new client with
    the counter below its maximum, the pool gains exactly one entry, the
    new session under the key [MaxUint64 - (counter + 1)], in front of all
    others, and the session is registered.  A creator whose dial fails
    leaves the client as it is. *)
Theorem creator_grows_pool (config : ClientConfig) (c : Client)
    (t1 t2 : Z) :
  reachable (fst (NewClient config)) c ->
  sessionCounter c < MaxUint64 ->
  let c' := proactiveCreator t1 t2 true c in
  idleSession c'
  = (MaxUint64 - (sessionCounter c + 1), length (heap c)) :: idleSession c
  /\ heap c'
     = heap c ++ [mkSession (sessionCounter c + 1) t1 t2 false]
  /\ sessions c' !! (sessionCounter c + 1) = Some (length (heap c))
  /\ proactiveCreator t1 t2 false c = c.
Proof.
  intros Hr Hlt. cbv zeta.
  pose proof (reachable_Inv _ _ (NewClient_Inv config) Hr) as [Hb Hl].
  pose proof (inv_counter c Hb) as Hcnt.
  unfold proactiveCreator, createSession. simpl.
  unfold proactiveInsert. simpl.
  rewrite lookup_app_r by lia. rewrite Nat.sub_diag. simpl.
  rewrite (u64_id (sessionCounter c + 1)) by lia.
  split; [|split; [|split]].
  - rewrite Insert_least.
    + f_equal. f_equal. unfold poolKey. simpl. apply u64_id. lia.
    + intros [k' p'] Hin. simpl.
      destruct (inv_idle c Hb k' p' Hin) as (s' & Hs' & Hk' & _).
      pose proof (inv_seq c Hb p' s' Hs').
      unfold poolKey in *. simpl.
      rewrite Hk', !u64_id by lia. lia.
  - replace (length (heap c)) with (length (heap c) + 0)%nat at 1 by lia.
    rewrite insert_app_r. reflexivity.
  - apply lookup_insert_eq.
  - reflexivity.
Qed.

(** The second of two creators. *)
Lemma creator_grows_pool_witness :
  idleSession (proactiveCreator Second Second true (run onePooled plainClient))
  = (MaxUint64 - 2, 1%nat) :: idleSession (run onePooled plainClient).
Proof.
  set (c := run onePooled plainClient).
  assert (Hr : reachable (fst (NewClient (mkClientConfig 0 0 0 0 0 0 0 0))) c).
  { apply runOk_reachable. simpl. split; [|split; [|exact I]].
    - intros _. vm_compute. reflexivity.
    - intros s Hs. vm_compute in Hs. injection Hs as Hs. subst s.
      reflexivity. }
  assert (Hlt : sessionCounter c < MaxUint64) by (vm_compute; reflexivity).
  exact (proj1 (creator_grows_pool _ c Second Second Hr Hlt)).
Defined.

(** X13.  The number of creators a tick starts never overshoots the target:
    it is never negative, it is zero when [ensureIdleSession] is not
    positive or the pool already holds that many sessions, it is at most
    the rate when the rate is positive, and the pool size after the scan
    plus the creators is at most the larger of that size and the target,
    and exactly the target when there is a deficit and no rate. *)
Theorem creators_per_tick (c : Client) (now : Z) :
  let size := SkipList.Len (scPool (cleanupScan c now)) in
  let n := snd (cleanup now c) in
  0 <= n
  /\ (ensureIdleSession c <= 0 \/ ensureIdleSession c <= size -> n = 0)
  /\ (0 < ensureIdleSessionCreateRate c -> n <= ensureIdleSessionCreateRate c)
  /\ size + n <= Z.max size (ensureIdleSession c)
  /\ (0 < ensureIdleSession c -> size < ensureIdleSession c ->
      (ensureIdleSessionCreateRate c <= 0 -> size + n = ensureIdleSession c)
      /\ (0 < ensureIdleSessionCreateRate c ->
          n = Z.min (ensureIdleSession c - size)
                (ensureIdleSessionCreateRate c))
      /\ 0 < n).
Proof.
  cbv zeta. unfold cleanup. cbn [snd]. unfold toCreate.
  set (size := SkipList.Len (scPool (cleanupScan c now))).
  destruct (Z.ltb_spec 0 (ensureIdleSession c));
    destruct (Z.ltb_spec 0 (ensureIdleSession c - size));
    destruct (Z.ltb_spec 0 (ensureIdleSessionCreateRate c));
    destruct (Z.ltb_spec (ensureIdleSessionCreateRate c)
                (ensureIdleSession c - size));
    simpl; repeat match goal with |- _ /\ _ => split end; intros; lia.
Qed.

(** ** What a tick removes *)

Lemma sorted_keys_NoDup (l : SkipList.t) : sortedPool l -> NoDup l.*1.
Proof.
  unfold sortedPool. induction 1 as [|e l Hs IH Hall]; [constructor|].
  simpl. apply NoDup_cons. split; [|exact IH].
  intros Hin. apply list_elem_of_fmap in Hin as (e' & E & Hin).
  rewrite Forall_forall in Hall. specialize (Hall e' Hin).
  unfold keyLt in Hall. lia.
Qed.

Lemma Remove_length (l : SkipList.t) (k : Z) :
  k ∈ l.*1 -> (length (SkipList.Remove k l) + 1 = length l)%nat.
Proof.
  induction l as [|[k' v'] l IH]; simpl; intros Hin.
  - now apply not_elem_of_nil in Hin.
  - destruct (Z.eqb_spec k k') as [->|Hne]; [lia|].
    apply elem_of_cons in Hin as [Hin|Hin]; [congruence|].
    simpl. rewrite <- (IH Hin). lia.
Qed.


(** An iteration removes the entry exactly when it marks the session, and
    it marks it for one of the two closes. *)
Lemma step_marks (c : Client) (now : Z) (st : scan) (k : Z) (p : ptr) :
  is_Some (scHeap st !! p) ->
  let st' := cleanupStep c now st (k, p) in
  (scPool st' = SkipList.Remove k (scPool st)
   /\ ((idleSessionsToClose st' = idleSessionsToClose st ++ [p]
        /\ ageSessionsToClose st' = ageSessionsToClose st)
       \/ (idleSessionsToClose st' = idleSessionsToClose st
           /\ ageSessionsToClose st' = ageSessionsToClose st ++ [p])))
  \/ (scPool st' = scPool st
      /\ idleSessionsToClose st' = idleSessionsToClose st
      /\ ageSessionsToClose st' = ageSessionsToClose st).
Proof.
  intros [s Hs]. cbv zeta. unfold cleanupStep. rewrite Hs.
  unfold checkIdle, checkAge.
  repeat match goal with
         | |- context [Z.ltb ?a ?b] => destruct (Z.ltb a b)
         | |- context [Z.leb ?a ?b] => destruct (Z.leb a b)
         end; simpl; auto.
Qed.

Lemma scan_survive (c : Client) (now : Z) (st : scan)
    (es : list (Z * ptr)) (e : Z * ptr) :
  e ∈ scPool st -> e.1 ∉ es.*1 -> e ∈ scPool (scanFrom c now st es).
Proof.
  revert st. induction es as [|e' es IH]; intros st Hin Hk; [exact Hin|].
  rewrite scanFrom_cons. simpl in Hk.
  apply not_elem_of_cons in Hk as [Hne Hk].
  apply IH; [|exact Hk].
  destruct (step_pool c now st e') as [E|E]; rewrite E; [exact Hin|].
  now apply Remove_keep.
Qed.

Lemma scan_length (c : Client) (now : Z) (st : scan) (es : list (Z * ptr)) :
  NoDup es.*1 ->
  (forall e, e ∈ es -> e ∈ scPool st) ->
  (forall e, e ∈ es -> is_Some (scHeap st !! e.2)) ->
  (length (scPool (scanFrom c now st es))
   + length (idleSessionsToClose (scanFrom c now st es))
   + length (ageSessionsToClose (scanFrom c now st es))
   = length (scPool st) + length (idleSessionsToClose st)
     + length (ageSessionsToClose st))%nat.
Proof.
  revert st. induction es as [|[k p] es IH]; intros st Hnd Hin Hv;
    [reflexivity|].
  rewrite scanFrom_cons. simpl in Hnd. apply NoDup_cons in Hnd as [Hk Hnd].
  assert (Hv' : forall e, e ∈ es ->
                          is_Some (scHeap (cleanupStep c now st (k, p)) !! e.2)).
  { intros e He. eapply is_Some_static; [apply step_heap_static|].
    apply Hv. now right. }
  assert (Hkp : k ∈ (scPool st).*1).
  { apply list_elem_of_fmap. exists (k, p). split; [reflexivity|].
    apply Hin. left. }
  destruct (step_marks c now st k p) as [(Ep & Em)|(Ep & Ei & Ea)].
  - apply (Hv (k, p)). left.
  - rewrite IH; [| exact Hnd | | exact Hv'].
    + pose proof (Remove_length _ _ Hkp) as Hl. rewrite Ep.
      destruct Em as [[Ei Ea]|[Ei Ea]]; rewrite Ei, Ea, length_app;
        simpl; lia.
    + intros e He. rewrite Ep. apply Remove_keep; [apply Hin; now right|].
      intros E. apply Hk. apply list_elem_of_fmap. exists e. auto.
  - rewrite IH; [| exact Hnd | | exact Hv'].
    + now rewrite Ep, Ei, Ea.
    + intros e He. rewrite Ep. apply Hin. now right.
Qed.

Section Accounting.

Variable c : Client.
Variable now : Z.
Hypothesis Hpi : PoolInv c.

Abbreviation fin := (cleanupScan c now).

Lemma acc_marked_pooled (q : ptr) :
  q ∈ idleSessionsToClose fin \/ q ∈ ageSessionsToClose fin ->
  q ∈ (idleSession c).*2.
Proof.
  intros [H|H].
  - apply scanFrom_idle_list_elem in H as [H|H]; [|exact H].
    simpl in H. now apply not_elem_of_nil in H.
  - apply scanFrom_age_list_elem in H as [H|H]; [|exact H].
    simpl in H. now apply not_elem_of_nil in H.
Qed.

(** The fate of one entry of the pool. *)
Lemma acc_entry (k : Z) (p : ptr) :
  (k, p) ∈ idleSession c ->
  ((k, p) ∈ scPool fin
   /\ (p ∉ idleSessionsToClose fin) /\ (p ∉ ageSessionsToClose fin))
  \/ (((k, p) ∉ scPool fin)
      /\ p ∈ idleSessionsToClose fin /\ (p ∉ ageSessionsToClose fin))
  \/ (((k, p) ∉ scPool fin)
      /\ (p ∉ idleSessionsToClose fin) /\ p ∈ ageSessionsToClose fin).
Proof.
  intros Hin.
  apply list_elem_of_split in Hin as (pre & post & Hpool).
  pose proof (PoolInv_NoDup c Hpi) as Hnd.
  pose proof (sorted_keys_NoDup _ (pool_sorted c Hpi)) as Hkeys.
  rewrite Hpool, fmap_app, fmap_cons in Hkeys.
  apply NoDup_app in Hkeys as (_ & Hk1 & Hk2).
  apply NoDup_cons in Hk2 as [Hk2 _]. simpl in Hk1, Hk2.
  assert (Hkpre : k ∉ pre.*1) by (intros H; apply (Hk1 k H); left).
  destruct (pool_keyed c Hpi k p) as (s & Hs & _).
  { rewrite Hpool. apply elem_of_app. right. left. }
  pose proof (before_heap c now pre post k p s Hpool Hnd Hs) as Hb.
  pose proof (final_idle_list c now pre post k p Hpool Hnd) as Hfi.
  pose proof (final_age_list c now pre post k p Hpool Hnd) as Hfa.
  pose proof (final_split c now pre post k p Hpool) as Hsplit.
  set (before := scanFrom c now (scanInit c) pre) in *.
  destruct (scanFrom_pool c now (scanInit c) pre (pool_sorted c Hpi))
    as [Hsb _]. fold before in Hsb.
  assert (Hinb : (k, p) ∈ scPool before).
  { apply scan_survive; [|exact Hkpre]. simpl. rewrite Hpool.
    apply elem_of_app. right. left. }
  destruct (step_marks c now before k p) as [(Ep & Em)|(Ep & Ei & Ea)];
    [rewrite Hb; eauto| |].
  - assert (Hgone : (k, p) ∉ scPool fin).
    { intros H. rewrite Hsplit in H.
      destruct (scanFrom_pool c now (cleanupStep c now before (k, p)) post)
        as [_ Hsub].
      { rewrite Ep. now apply Remove_sorted. }
      apply Hsub in H. rewrite Ep in H.
      apply (Remove_gone _ _ _ Hsb) in H. now simpl in H. }
    destruct Em as [[Ei Ea]|[Ei Ea]].
    + right. left. split; [exact Hgone|]. split; [now apply Hfi|].
      intros H. apply Hfa in H. rewrite Ea in H. symmetry in H.
      now apply app_singleton_neq in H.
    + right. right. split; [exact Hgone|]. split; [|now apply Hfa].
      intros H. apply Hfi in H. rewrite Ei in H. symmetry in H.
      now apply app_singleton_neq in H.
  - left. split; [|split].
    + rewrite Hsplit. apply scan_survive; [now rewrite Ep|exact Hk2].
    + intros H. apply Hfi in H. rewrite Ei in H. symmetry in H.
      now apply app_singleton_neq in H.
    + intros H. apply Hfa in H. rewrite Ea in H. symmetry in H.
      now apply app_singleton_neq in H.
Qed.

Lemma acc_length :
  (length (scPool fin) + length (idleSessionsToClose fin)
   + length (ageSessionsToClose fin) = length (idleSession c))%nat.
Proof.
  unfold cleanupScan. rewrite scan_length.
  - simpl. lia.
  - apply sorted_keys_NoDup, Hpi.
  - auto.
  - intros [k p] He. simpl. apply (PoolInv_valid c p Hpi).
    apply list_elem_of_fmap. exists (k, p). auto.
Qed.

Lemma acc_survivor (k : Z) (p : ptr) :
  (k, p) ∈ scPool fin
  <-> (k, p) ∈ idleSession c
      /\ (p ∉ idleSessionsToClose fin) /\ (p ∉ ageSessionsToClose fin).
Proof.
  split.
  - intros H.
    assert (Hin : (k, p) ∈ idleSession c).
    { destruct (scanFrom_pool c now (scanInit c) (idleSession c)
                  (pool_sorted c Hpi)) as [_ Hsub]. now apply Hsub. }
    split; [exact Hin|].
    destruct (acc_entry k p Hin) as [(_ & H1 & H2)|[(H0 & _)|(H0 & _)]];
      [auto|contradiction|contradiction].
  - intros (Hin & H1 & H2).
    destruct (acc_entry k p Hin) as [(H0 & _)|[(_ & H3 & _)|(_ & _ & H3)]];
      [exact H0|contradiction|contradiction].
Qed.

Lemma acc_disjoint (q : ptr) :
  q ∈ idleSessionsToClose fin -> q ∉ ageSessionsToClose fin.
Proof.
  intros Hq. pose proof (acc_marked_pooled q (or_introl Hq)) as Hin.
  apply list_elem_of_fmap in Hin as ([k p] & E & Hin). simpl in E. subst q.
  destruct (acc_entry k p Hin) as [(_ & H1 & _)|[(_ & _ & H2)|(_ & H1 & _)]];
    [contradiction|exact H2|contradiction].
Qed.

End Accounting.

(** X14.  The accounts of a scan, for the pool of every client state.  The
    scan marks pooled sessions only, no session for both closes, and the
    entries left in the pool are exactly the entries of the pool whose
    session is marked for neither; the sizes add up: pool after the scan
    plus the two close lists is the pool before. *)
Theorem scan_accounts (config : ClientConfig) (os : list op) (now : Z) :
  let c := run os (fst (NewClient config)) in
  let final := cleanupScan c now in
  (forall q : ptr,
      q ∈ idleSessionsToClose final \/ q ∈ ageSessionsToClose final ->
      q ∈ (idleSession c).*2)
  /\ (forall q : ptr,
         q ∈ idleSessionsToClose final -> q ∉ ageSessionsToClose final)
  /\ (forall (k : Z) (p : ptr),
         (k, p) ∈ scPool final
         <-> (k, p) ∈ idleSession c
             /\ (p ∉ idleSessionsToClose final)
             /\ (p ∉ ageSessionsToClose final))
  /\ SkipList.Len (scPool final)
     + Z.of_nat (length (idleSessionsToClose final))
     + Z.of_nat (length (ageSessionsToClose final))
     = SkipList.Len (idleSession c).
Proof.
  cbv zeta. set (c := run os (fst (NewClient config))).
  assert (Hi : PoolInv c) by apply PoolInv_run, NewClient_PoolInv.
  split; [apply acc_marked_pooled|].
  split; [now apply acc_disjoint|].
  split; [now apply acc_survivor|].
  unfold SkipList.Len. pose proof (acc_length c now Hi). lia.
Qed.

(** ** What a tick leaves alone *)

(** Closing other sessions leaves a session, and its entry in the
    registry, as they are. *)
Lemma closeAll_other (l : list ptr) (c : Client) (q : ptr) (s : Session) :
  Inv c -> q ∉ l -> heap c !! q = Some s ->
  heap (closeAll l c) !! q = Some s
  /\ sessions (closeAll l c) !! seq s = sessions c !! seq s.
Proof.
  revert c. induction l as [|p l IH]; intros c Hi Hq Hs; [auto|].
  apply not_elem_of_cons in Hq as [Hne Hq].
  change (closeAll (p :: l) c) with (closeAll l (SessionClose p c)).
  assert (H1 : heap (SessionClose p c) !! q = Some s
               /\ sessions (SessionClose p c) !! seq s
                  = sessions c !! seq s).
  { unfold SessionClose. destruct (heap c !! p) as [sp|] eqn:Hp; [|auto].
    destruct (closed sp); [auto|]. simpl.
    rewrite list_lookup_insert_ne by congruence. split; [exact Hs|].
    apply lookup_delete_ne. intros E. apply Hne.
    destruct Hi as [Hb _]. symmetry. eapply (inv_inj c Hb); eauto. }
  destruct H1 as [H1 H2].
  destruct (IH (SessionClose p c) (Inv_SessionClose p c Hi) Hq H1)
    as [H3 H4].
  split; [exact H3|]. now rewrite H4.
Qed.


(** X15.  A tick leaves the sessions that are not idle alone: in every
    state reached from a new client, a session that is not in the idle
    pool when [cleanup] starts (one that carries a stream) comes out of it
    unchanged, neither closed nor rewritten, and registered exactly as
    before. *)
Theorem tick_spares_active (config : ClientConfig) (c : Client) (now : Z)
    (q : ptr) (s : Session) :
  reachable (fst (NewClient config)) c ->
  q ∉ (idleSession c).*2 ->
  heap c !! q = Some s ->
  heap (fst (cleanup now c)) !! q = Some s
  /\ sessions (fst (cleanup now c)) !! seq s = sessions c !! seq s.
Proof.
  intros Hr Hq Hs.
  pose proof (reachable_Inv _ _ (NewClient_Inv config) Hr) as Hi.
  pose proof (Inv_PoolInv c Hi) as Hpi.
  unfold cleanup. cbn [fst].
  set (st := cleanupScan c now).
  set (c1 := setIdleSession (scPool st) (setHeap (scHeap st) c)).
  assert (Hi1 : Inv c1) by apply Inv_after_scan, Hi.
  assert (Hs1 : heap c1 !! q = Some s).
  { subst c1 st. simpl. unfold cleanupScan.
    rewrite scanFrom_heap_ne by exact Hq. exact Hs. }
  assert (Hq1 : q ∉ idleSessionsToClose st).
  { intros H. apply Hq. apply (acc_marked_pooled c now). now left. }
  assert (Hq2 : q ∉ ageSessionsToClose st).
  { intros H. apply Hq. apply (acc_marked_pooled c now). now right. }
  destruct (closeAll_other _ c1 q s Hi1 Hq1 Hs1) as [H1 H2].
  destruct (closeAll_other (ageSessionsToClose st) _ q s
              (Inv_closeAll _ c1 Hi1) Hq2 H1) as [H3 H4].
  split; [exact H3|]. rewrite H4, H2. reflexivity.
Qed.

(** A session that carries a stream while an older one, pooled, times
    out. *)
Lemma tick_spares_active_witness :
  heap (fst (cleanup (100 * Second) (run idleAndBusy plainClient))) !! 1%nat
  = heap (run idleAndBusy plainClient) !! 1%nat
  /\ closed <$> heap (fst (cleanup (100 * Second)
                             (run idleAndBusy plainClient))) !! 0%nat
     = Some true.
Proof.
  set (c := run idleAndBusy plainClient).
  assert (Hr : reachable (fst (NewClient (mkClientConfig 0 0 0 0 0 0 0 0))) c).
  { apply runOk_reachable. simpl.
    split; [|split; [|split; [|split; [|split; [exact I|exact I]]]]].
    - intros _. vm_compute. reflexivity.
    - intros s Hs. vm_compute in Hs. injection Hs as Hs. subst s.
      reflexivity.
    - intros _. vm_compute. reflexivity.
    - intros _. vm_compute. reflexivity. }
  assert (Hq : 1%nat ∉ (idleSession c).*2).
  { replace (idleSession c) with [(MaxUint64 - 1, 0%nat)]
      by (vm_compute; reflexivity).
    simpl. intros H. apply list_elem_of_singleton in H. discriminate. }
  assert (Hs : heap c !! 1%nat = Some (mkSession 2 (3 * Second) 0 false))
    by (vm_compute; reflexivity).
  destruct (tick_spares_active _ c (100 * Second) 1%nat _ Hr Hq Hs)
    as [H1 _].
  split; [now rewrite H1, Hs|]. vm_compute. reflexivity.
Defined.



(** ** How many sessions a tick closes *)

Lemma step_idle_cases (c : Client) (now : Z) (st : scan) (e : Z * ptr) :
  is_Some (scHeap st !! e.2) ->
  idleActiveCount (cleanupStep c now st e) = idleActiveCount st + 1
  \/ (idleActiveCount (cleanupStep c now st e) = idleActiveCount st
      /\ minIdleSession c <= idleActiveCount st).
Proof.
  destruct e as [k p]. intros [s Hs]. simpl in Hs.
  destruct (Z_lt_le_dec (idleSince s) (idleExpTime c now)) as [H1|H1].
  - destruct (Z_lt_le_dec (idleActiveCount st) (minIdleSession c)) as [H2|H2].
    + left. now destruct (step_idle_protect c now st k p s Hs H1 H2)
        as (_ & _ & E).
    + right. rewrite (step_idle_close c now st k p s Hs H1 H2). auto.
  - left. now destruct (step_idle_fresh c now st k p s Hs H1) as (_ & _ & E).
Qed.

Lemma scan_idle_floor (c : Client) (now : Z) (st : scan)
    (es : list (Z * ptr)) :
  (forall e, e ∈ es -> is_Some (scHeap st !! e.2)) ->
  Z.min (minIdleSession c) (idleActiveCount st + Z.of_nat (length es))
  <= idleActiveCount (scanFrom c now st es).
Proof.
  revert st. induction es as [|e es IH]; intros st Hv.
  - simpl. lia.
  - rewrite scanFrom_cons.
    assert (Hv' : forall e', e' ∈ es ->
                    is_Some (scHeap (cleanupStep c now st e) !! e'.2)).
    { intros e' He'. eapply is_Some_static; [apply step_heap_static|].
      apply Hv. now right. }
    specialize (IH _ Hv').
    destruct (step_idle_cases c now st e) as [E|[E Hm]];
      [apply Hv; left| |]; rewrite E in IH; simpl length; lia.
Qed.

Lemma scan_no_rotation (c : Client) (now : Z) (st : scan)
    (es : list (Z * ptr)) :
  maxConnectionLifetime c <= 0 ->
  ageSessionsToClose (scanFrom c now st es) = ageSessionsToClose st.
Proof.
  intros Hm. revert st. induction es as [|[k p] es IH]; intros st;
    [reflexivity|].
  rewrite scanFrom_cons, IH. unfold cleanupStep.
  destruct (scHeap st !! p) as [s|]; [|reflexivity].
  unfold checkIdle, checkAge.
  destruct (Z.ltb_spec 0 (maxConnectionLifetime c)); [lia|]. simpl.
  repeat match goal with
         | |- context [Z.ltb ?a ?b] => destruct (Z.ltb a b)
         | |- context [Z.leb ?a ?b] => destruct (Z.leb a b)
         end; reflexivity.
Qed.

(** X17.  The idle floor, counted, for the pool of every client state.
    After the scan of a tick the idle counter is the number of pooled
    sessions not marked for the idle close, and it is at least the smaller
    of [minIdleSession] and the size of the pool: a tick marks at most
    [size - minIdleSession] sessions for the idle close.  With rotation off
    the pool keeps that many sessions. *)
Theorem idle_floor_count (config : ClientConfig) (os : list op) (now : Z) :
  let c := run os (fst (NewClient config)) in
  let final := cleanupScan c now in
  let size := SkipList.Len (idleSession c) in
  idleActiveCount final
  = size - Z.of_nat (length (idleSessionsToClose final))
  /\ Z.min (minIdleSession c) size <= idleActiveCount final
  /\ Z.of_nat (length (idleSessionsToClose final))
     <= Z.max 0 (size - minIdleSession c)
  /\ (maxConnectionLifetime c <= 0 ->
      SkipList.Len (scPool final) = idleActiveCount final
      /\ Z.min (minIdleSession c) size <= SkipList.Len (scPool final)).
Proof.
  cbv zeta. set (c := run os (fst (NewClient config))).
  assert (Hi : PoolInv c) by apply PoolInv_run, NewClient_PoolInv.
  assert (Hv : forall e, e ∈ idleSession c -> is_Some (heap c !! e.2)).
  { intros [k p] He. apply (PoolInv_valid c p Hi).
    apply list_elem_of_fmap. exists (k, p). auto. }
  assert (Hv2 : forall q : ptr, q ∈ (idleSession c).*2 ->
                                is_Some (heap c !! q))
    by (intros q; apply (PoolInv_valid c q Hi)).
  pose proof (scanFrom_idle_count c now (scanInit c) (idleSession c) Hv2)
    as Hcount.
  pose proof (scan_idle_floor c now (scanInit c) (idleSession c) Hv)
    as Hfloor.
  pose proof (acc_length c now Hi) as Hlen.
  unfold cleanupScan in *. unfold SkipList.Len. simpl in Hcount, Hfloor.
  split; [lia|]. split; [lia|]. split; [lia|].
  intros Hm.
  pose proof (scan_no_rotation c now (scanInit c) (idleSession c) Hm) as Ha.
  simpl in Ha. rewrite Ha in Hlen. simpl in Hlen. lia.
Qed.

Lemma step_age_cases (c : Client) (now : Z) (st : scan) (e : Z * ptr) :
  ageActiveCount (cleanupStep c now st e)
  = if ageEligibleAt c now st e
    then if minIdleSessionForAge c <=? ageActiveCount st
         then ageActiveCount st else ageActiveCount st + 1
    else ageActiveCount st.
Proof.
  destruct e as [k p]. unfold ageEligibleAt, cleanupStep. simpl.
  destruct (scHeap st !! p) as [s|]; [|reflexivity].
  unfold checkIdle, checkAge.
  repeat match goal with
         | |- context [Z.ltb ?a ?b] => destruct (Z.ltb a b)
         | |- context [Z.leb ?a ?b] => destruct (Z.leb a b)
         end; reflexivity.
Qed.

Lemma ageEligible_nonneg (c : Client) (now : Z) (st : scan)
    (es : list (Z * ptr)) : 0 <= ageEligible c now st es.
Proof.
  revert st. induction es as [|e es IH]; intros st; simpl; [lia|].
  specialize (IH (cleanupStep c now st e)).
  destruct (ageEligibleAt c now st e); lia.
Qed.

Lemma scan_age_exact (c : Client) (now : Z) (st : scan)
    (es : list (Z * ptr)) (E0 : Z) :
  0 <= E0 ->
  ageActiveCount st = Z.min E0 (Z.max 0 (minIdleSessionForAge c)) ->
  ageActiveCount (scanFrom c now st es)
  = Z.min (E0 + ageEligible c now st es)
      (Z.max 0 (minIdleSessionForAge c)).
Proof.
  revert st E0. induction es as [|e es IH]; intros st E0 H0 Hac.
  - simpl. rewrite Z.add_0_r. exact Hac.
  - rewrite scanFrom_cons. cbn [ageEligible].
    pose proof (step_age_cases c now st e) as Hstep.
    destruct (ageEligibleAt c now st e).
    + rewrite (IH _ (E0 + 1)); [f_equal; lia|lia|].
      rewrite Hstep.
      destruct (Z.leb_spec (minIdleSessionForAge c) (ageActiveCount st)); lia.
    + rewrite (IH _ E0); [f_equal; lia|lia|]. now rewrite Hstep.
Qed.

(** X18.  The age floor, counted, for any client.  Of the sessions a tick
    finds eligible for the age close (reaching the age check with their
    lifetime exceeded) the first [minIdleSessionForAge] are kept and every
    other one is closed: the scan marks exactly [eligible - floor] sessions
    for the age close, none when that is negative, and ends with the age
    counter at the smaller of the two. *)
Theorem age_floor_count (c : Client) (now : Z) :
  let final := cleanupScan c now in
  let eligible := ageEligible c now (scanInit c) (idleSession c) in
  let floor := Z.max 0 (minIdleSessionForAge c) in
  0 <= eligible <= ageExpiredCount c now (heap c) (idleSession c)
  /\ ageActiveCount final = Z.min eligible floor
  /\ Z.of_nat (length (ageSessionsToClose final))
     = Z.max 0 (eligible - floor).
Proof.
  cbv zeta.
  pose proof (ageEligible_nonneg c now (scanInit c) (idleSession c)) as H0.
  pose proof (ageEligible_le_expired c now (scanInit c) (idleSession c))
    as H1.
  pose proof (scan_age_exact c now (scanInit c) (idleSession c) 0
                ltac:(lia)) as H2.
  pose proof (scanFrom_age_count c now (scanInit c) (idleSession c)) as H3.
  simpl in H1, H2, H3. unfold cleanupScan.
  rewrite H2 in * by lia. rewrite Z.add_0_l in *.
  split; [lia|]. split; [reflexivity|]. lia.
Qed.

(** ** Settings *)

(** X19.  No operation writes the settings of a client: after any
    operations the timeout, the two floors, the target, the rate, the
    lifetime and the jitter are the ones [NewClient] stored. *)
Theorem settings_are_fixed (os : list op) (c : Client) :
  idleSessionTimeout (run os c) = idleSessionTimeout c
  /\ minIdleSession (run os c) = minIdleSession c
  /\ ensureIdleSession (run os c) = ensureIdleSession c
  /\ ensureIdleSessionCreateRate (run os c) = ensureIdleSessionCreateRate c
  /\ minIdleSessionForAge (run os c) = minIdleSessionForAge c
  /\ maxConnectionLifetime (run os c) = maxConnectionLifetime c
  /\ connectionLifetimeJitter (run os c) = connectionLifetimeJitter c.
Proof.
  pose proof (settings_run os c) as E.
  repeat split.
  - exact (f_equal idleSessionTimeout E).
  - exact (f_equal minIdleSession E).
  - exact (f_equal ensureIdleSession E).
  - exact (f_equal ensureIdleSessionCreateRate E).
  - exact (f_equal minIdleSessionForAge E).
  - exact (f_equal maxConnectionLifetime E).
  - exact (f_equal connectionLifetimeJitter E).
Qed.

(** X20.  An override of the target wins over the global block and stays
    for the life of the client; an override of zero (or less) turns
    proactive creation off for the proxy: no tick of the client starts a
    creator, whatever the global block asks for. *)
Theorem override_sets_target (g : option Outbound.G.t) (o : Outbound.L.t)
    (ov : Outbound.O.t) (n : Z) (os : list op) (now : Z) :
  Outbound.L.SessionOverride o = Some ov ->
  Outbound.O.EnsureIdleSession ov = Some n ->
  ensureIdleSession (run os (effectiveClient g o)) = n
  /\ (n <= 0 -> snd (cleanup now (run os (effectiveClient g o))) = 0).
Proof.
  intros Hov Hn.
  assert (E : ensureIdleSession (run os (effectiveClient g o)) = n).
  { transitivity (ensureIdleSession (effectiveClient g o));
      [exact (f_equal ensureIdleSession
                (settings_run os (effectiveClient g o)))|].
    unfold effectiveClient, NewClient, toSessionConfig. simpl.
    unfold Outbound.mergeConfig, Outbound.applyOverride.
    rewrite Hov. simpl. now rewrite Hn. }
  split; [exact E|].
  intros Hle. unfold cleanup. cbn [snd]. unfold toCreate. rewrite E.
  destruct (Z.ltb_spec 0 n); [lia|reflexivity].
Qed.

(** A global target of 8 and an override of 0. *)
Lemma override_sets_target_witness :
  snd (cleanup (30 * Second)
         (effectiveClient
            (Some (Outbound.G.mk 8 0 0 0 0 0 0 0))
            (Outbound.L.mk 0 0 0
               (Some (Outbound.O.mk (Some 0) None None None None None
                        None None))))) = 0.
Proof.
  refine (proj2 (override_sets_target
                   (Some (Outbound.G.mk 8 0 0 0 0 0 0 0))
                   (Outbound.L.mk 0 0 0
                      (Some (Outbound.O.mk (Some 0) None None None None None
                               None None)))
                   _ 0 [] (30 * Second) eq_refl eq_refl) _).
  lia.
Defined.

(** X21.  A legacy timeout reaches the client in seconds: with no override
    block, a legacy [idle-session-timeout] of [n] seconds, positive and
    within the range of a duration, wins over the global block, and the
    client runs with [n] seconds when [n] is above five and with 30 seconds
    otherwise. *)
Theorem legacy_timeout_effective (g : option Outbound.G.t)
    (o : Outbound.L.t) :
  Outbound.L.SessionOverride o = None ->
  0 < Outbound.L.IdleSessionTimeout o ->
  Outbound.L.IdleSessionTimeout o * Second <= MaxInt64 ->
  idleSessionTimeout (effectiveClient g o)
  = if Outbound.L.IdleSessionTimeout o <=? 5
    then 30 * Second
    else Outbound.L.IdleSessionTimeout o * Second.
Proof.
  intros Hov Hpos Hmax.
  unfold effectiveClient, NewClient, toSessionConfig. simpl.
  unfold Outbound.mergeConfig, Outbound.applyOverride. rewrite Hov.
  unfold Outbound.applyLegacy.
  destruct (Z.ltb_spec 0 (Outbound.L.IdleSessionTimeout o)); [|lia].
  assert (E : seconds (Outbound.L.IdleSessionTimeout o)
              = Outbound.L.IdleSessionTimeout o * Second).
  { apply seconds_exact. unfold MinInt64, Second in *. lia. }
  destruct (0 <? Outbound.L.IdleSessionCheckInterval o),
           (0 <? Outbound.L.MinIdleSession o); simpl; rewrite E;
    destruct (Z.leb_spec (Outbound.L.IdleSessionTimeout o * Second)
                (Second * 5));
    destruct (Z.leb_spec (Outbound.L.IdleSessionTimeout o) 5);
    unfold Second in *; lia.
Qed.

(** The legacy example of the documentation: 600 seconds. *)
Lemma legacy_timeout_effective_witness :
  idleSessionTimeout
    (effectiveClient (Some (Outbound.G.mk 0 0 0 0 0 0 (60 * Second) 0))
       (Outbound.L.mk 30 600 5 None))
  = 600 * Second.
Proof.
  rewrite (legacy_timeout_effective
             (Some (Outbound.G.mk 0 0 0 0 0 0 (60 * Second) 0))
             (Outbound.L.mk 30 600 5 None) eq_refl).
  - reflexivity.
  - simpl. lia.
  - vm_compute. congruence.
Defined.

(** ** Which sessions the idle close takes *)

Lemma step_idle_mono (c : Client) (now : Z) (st : scan) (e : Z * ptr) :
  idleActiveCount st <= idleActiveCount (cleanupStep c now st e).
Proof.
  destruct e as [k p]. unfold cleanupStep.
  destruct (scHeap st !! p) as [s|]; [|lia].
  unfold checkIdle, checkAge.
  repeat match goal with
         | |- context [Z.ltb ?a ?b] => destruct (Z.ltb a b)
         | |- context [Z.leb ?a ?b] => destruct (Z.leb a b)
         end; simpl; lia.
Qed.

Lemma scan_idle_mono (c : Client) (now : Z) (st : scan)
    (es : list (Z * ptr)) :
  idleActiveCount st <= idleActiveCount (scanFrom c now st es).
Proof.
  revert st. induction es as [|e es IH]; intros st; [simpl; lia|].
  rewrite scanFrom_cons. pose proof (step_idle_mono c now st e).
  specialize (IH (cleanupStep c now st e)). lia.
Qed.

(** X22.  The idle close takes the oldest sessions: in the pool of every
    client state, when a tick marks a session for the idle close it also
    marks every timed-out session that comes later in the pool, that is,
    every older one; the leases go to the newest timed-out sessions. *)
Theorem idle_close_takes_oldest (config : ClientConfig) (os : list op)
    (now : Z) (pre mid post : list (Z * ptr)) (k1 k2 : Z) (p1 p2 : ptr)
    (s2 : Session) :
  let c := run os (fst (NewClient config)) in
  let final := cleanupScan c now in
  idleSession c = pre ++ (k1, p1) :: mid ++ (k2, p2) :: post ->
  heap c !! p2 = Some s2 ->
  idleSince s2 < idleExpTime c now ->
  p1 ∈ idleSessionsToClose final ->
  p2 ∈ idleSessionsToClose final.
Proof.
  cbv zeta. set (c := run os (fst (NewClient config))).
  intros Hpool Hs2 Hexp H1.
  assert (Hi : PoolInv c) by apply PoolInv_run, NewClient_PoolInv.
  pose proof (PoolInv_NoDup c Hi) as Hnd.
  destruct (pool_keyed c Hi k1 p1) as (s1 & Hs1 & _).
  { rewrite Hpool. apply elem_of_app. right. left. }
  assert (Hpool2 : idleSession c
                   = (pre ++ (k1, p1) :: mid) ++ (k2, p2) :: post)
    by (rewrite Hpool, <- app_assoc; reflexivity).
  pose proof (before_heap c now _ _ k1 p1 s1 Hpool Hnd Hs1) as Hb1.
  pose proof (before_heap c now _ _ k2 p2 s2 Hpool2 Hnd Hs2) as Hb2.
  apply (final_idle_list c now _ _ k1 p1 Hpool Hnd) in H1.
  apply (step_idle_iff c now _ k1 p1 s1 Hb1) in H1 as [Ht1 Hf1].
  apply (final_idle_list c now _ _ k2 p2 Hpool2 Hnd).
  apply (step_idle_iff c now _ k2 p2 s2 Hb2). split; [exact Hexp|].
  rewrite scanFrom_app, scanFrom_cons.
  pose proof (step_idle_mono c now (scanFrom c now (scanInit c) pre)
                (k1, p1)) as Hm1.
  pose proof (scan_idle_mono c now
                (cleanupStep c now (scanFrom c now (scanInit c) pre)
                   (k1, p1)) mid) as Hm2.
  lia.
Qed.

(** Scenario 2: the tick marks the third newest session, hence the oldest
    one too. *)
Lemma idle_close_takes_oldest_witness :
  0%nat ∈ idleSessionsToClose (cleanupScan fiveIdleClient fiveIdleTick).
Proof.
  unfold fiveIdleClient.
  set (c := run fiveIdleOps (fst (NewClient fiveIdleConfig))).
  pose (k := 18446744073709551610).
  assert (Hpool : idleSession c
                  = [(k, 4%nat); (k + 1, 3%nat)] ++ (k + 2, 2%nat)
                    :: [(k + 3, 1%nat)] ++ (k + 4, 0%nat) :: [])
    by (vm_compute; reflexivity).
  assert (Hs : heap c !! 0%nat
               = Some (mkSession 1 (940 * Second) (940 * Second) false))
    by (vm_compute; reflexivity).
  apply (idle_close_takes_oldest fiveIdleConfig fiveIdleOps fiveIdleTick
           _ _ _ _ _ 2%nat 0%nat _ Hpool Hs).
  - vm_compute. reflexivity.
  - fold c.
    replace (idleSessionsToClose (cleanupScan c fiveIdleTick))
      with [2; 1; 0]%nat by (vm_compute; reflexivity).
    left.
Defined.
